(** * claude-statusline: a shallow embedding of the rendering core

    The development follows the TypeScript sources of the statusline plugin:
    - [hooks/utils/token.ts]   token estimation and usage,
    - [src/config.ts]          layered configuration,
    - [src/lib/colors.ts], [src/lib/formatters.ts]  colours, paths, durations,
                               progress bars,
    - [hooks/utils/git.ts], [hooks/utils/display.ts]  the hook-side formatters,
    - [src/index.ts], [hooks/session-start.ts], [hooks/user-prompt-submit.ts]
                               the entry points,
    - [src/lib/git.ts]         the git status of the native renderer,
    - [hooks/session-start.mjs], [hooks/user-prompt-submit.mjs]
                               the hook scripts.

    Modelling conventions.
    - A JavaScript string is the list of its UTF-16 code units ([jsstring]).
    - JavaScript numbers are given by their values: integers as [Z],
      fractional values as [Q].  Where the sources divide or multiply before
      [Math.round] or [toFixed], the result is rounded to binary64 as
      JavaScript does ([binary64], [quotient], [product]): this decides which
      way a percentage such as 14.5 goes.  Integers are kept whatever their
      size, so the model follows the program as long as its numbers stay
      below [2^53].  [Math.floor] and [Math.ceil] of a quotient of two such
      integers give the integer quotient on doubles as well and are taken on
      the exact quotient.  [Binary64] below runs the same expressions on the
      doubles of the kernel.  [parseInt] returns [option Z], [None] standing
      for [NaN].
    - A call that can throw returns [option] ([None] is the exception).
    - Regular expression literals are values of [regex], run by a
      backtracking matcher that follows the ECMAScript matching order. *)

From Stdlib Require Import Ascii String DecimalString.
From Stdlib Require Import List NArith ZArith QArith Qround Qpower Bool.
From Stdlib Require Import Lia Lqa.
From Stdlib Require Floats Uint63 DecimalPos.
From stdpp Require gmap strings.
Import ListNotations.

Set Implicit Arguments.

(* ===================================================================== *)
(** * JavaScript base values *)
(* ===================================================================== *)

Module JS.

(** A string is its sequence of UTF-16 code units. *)
Definition jsstring := list N.

(** An ASCII literal of the source, as code units. *)
Definition js (s : string) : jsstring :=
  map N_of_ascii (list_ascii_of_string s).

Definition code_eqb (a b : N) : bool := N.eqb a b.

Fixpoint jsstring_eqb (a b : jsstring) : bool :=
  match a, b with
  | [], [] => true
  | x :: a', y :: b' => code_eqb x y && jsstring_eqb a' b'
  | _, _ => false
  end.

(** [WhiteSpace] and [LineTerminator] code points: what [\s] matches and what
    [String.prototype.trim] and [parseInt] strip. *)
Definition is_whitespace (c : N) : bool :=
  ((9 <=? c) && (c <=? 13) || (c =? 32) || (c =? 160) || (c =? 5760)
   || ((8192 <=? c) && (c <=? 8202)) || (c =? 8232) || (c =? 8233)
   || (c =? 8239) || (c =? 8287) || (c =? 12288) || (c =? 65279))%N.

(** [\d]: the ASCII digits. *)
Definition is_digit (c : N) : bool := ((48 <=? c) && (c <=? 57))%N.

Fixpoint drop_while (p : N -> bool) (s : jsstring) : jsstring :=
  match s with
  | [] => []
  | c :: t => if p c then drop_while p t else s
  end.

Fixpoint take_while (p : N -> bool) (s : jsstring) : jsstring :=
  match s with
  | [] => []
  | c :: t => if p c then c :: take_while p t else []
  end.

(** [String.prototype.trim] *)
Definition String_trim (s : jsstring) : jsstring :=
  rev (drop_while is_whitespace (rev (drop_while is_whitespace s))).

(** [String.prototype.startsWith] *)
Fixpoint String_startsWith (s pre : jsstring) : bool :=
  match pre, s with
  | [], _ => true
  | p :: pre', c :: s' => code_eqb c p && String_startsWith s' pre'
  | _ :: _, [] => false
  end.

(** [String.prototype.includes] *)
Fixpoint String_includes (s sub : jsstring) : bool :=
  String_startsWith s sub ||
  match s with
  | [] => false
  | _ :: t => String_includes t sub
  end.

(** [String.prototype.slice(n)] for [0 <= n]. *)
Definition String_slice_from (s : jsstring) (n : nat) : jsstring := skipn n s.

(** [String.prototype.repeat]: a negative count throws a [RangeError]. *)
Definition String_repeat (s : jsstring) (count : Z) : option jsstring :=
  if (count <? 0)%Z then None
  else Some (concat (repeat s (Z.to_nat count))).

(** [Array.prototype.join] on an array of strings. *)
Fixpoint Array_join (l : list jsstring) (sep : jsstring) : jsstring :=
  match l with
  | [] => []
  | [x] => x
  | x :: rest => x ++ sep ++ Array_join rest sep
  end.

(** [String.prototype.split] on a separator that is one code unit out of a
    set ([split("/")], [split(/[/\\]/)]): the pieces between separators,
    empty pieces included. *)
Fixpoint split_acc (p : N -> bool) (cur : jsstring) (s : jsstring)
  : list jsstring :=
  match s with
  | [] => [rev cur]
  | c :: t => if p c then rev cur :: split_acc p [] t
              else split_acc p (c :: cur) t
  end.

Definition String_split (p : N -> bool) (s : jsstring) : list jsstring :=
  split_acc p [] s.

(** [Number.prototype.toString] on an integer. *)
Definition Number_toString (z : Z) : jsstring :=
  js (NilZero.string_of_int (Z.to_int z)).

(** Value of a run of decimal digits, most significant first. *)
Definition digits_value (ds : jsstring) : Z :=
  fold_left (fun acc d => (10 * acc + (Z.of_N d - 48))%Z) ds 0%Z.

(** The optional sign in front of the digits. *)
Definition read_sign (s : jsstring) : Z * jsstring :=
  match s with
  | 45%N :: t => ((-1)%Z, t)
  | 43%N :: t => (1%Z, t)
  | _ => (1%Z, s)
  end.

(** [parseInt(s, 10)]: leading white space is skipped, one sign is read, then
    the longest run of digits; no digit gives [NaN]. *)
Definition parseInt (s : jsstring) : option Z :=
  let '(sign, s2) := read_sign (drop_while is_whitespace s) in
  match take_while is_digit s2 with
  | [] => None
  | ds => Some (sign * digits_value ds)%Z
  end.

(** [Math.floor], [Math.ceil], [Math.round] (ties go up). *)
Definition Math_floor (x : Q) : Z := Qfloor x.
Definition Math_ceil (x : Q) : Z := Qceiling x.
Definition Math_round (x : Q) : Z := Qfloor (x + (1 # 2)).

(** ** Binary64 rounding

    The result of [/] and [*] is the binary64 value nearest to the exact
    result, a tie going to the value whose significand is even.  For
    [2^e <= |x| < 2^(e+1)] the binary64 values are [2^(e-52)] apart, that is
    they have [52 - e] binary digits after the point; at most 1074 (the
    subnormal values) and, in this model, at least 0: integers are never
    rounded, where binary64 would round them from [2^53] on. *)

(** The nearest integer, a tie going to the even one. *)
Definition round_half_even (x : Q) : Z :=
  let n := Qfloor x in
  match Qcompare (x - inject_Z n) (1 # 2) with
  | Lt => n
  | Gt => (n + 1)%Z
  | Eq => if Z.even n then n else (n + 1)%Z
  end.

(** The binary exponent [e] of a positive number: [2^e <= x < 2^(e+1)]. *)
Definition exponent (x : Q) : Z :=
  if Qle_bool 1 x then Z.log2 (Qfloor x)
  else (- Z.log2_up (Qceiling (/ x)))%Z.

(** The number of binary digits binary64 keeps after the point. *)
Definition fraction_bits (x : Q) : Z :=
  Z.max 0 (Z.min 1074 (52 - exponent x)).

(** [x] rounded to [bits] binary digits after the point. *)
Definition rounded_at (bits : Z) (x : Q) : Q :=
  let scale := inject_Z (2 ^ bits) in
  inject_Z (round_half_even (x * scale)) / scale.

(** The binary64 value nearest to a positive number. *)
Definition nearest (x : Q) : Q := rounded_at (fraction_bits x) x.

Definition binary64 (x : Q) : Q :=
  match Qcompare x 0 with
  | Eq => 0
  | Gt => nearest x
  | Lt => - nearest (- x)
  end.

(** [x / y] and [x * y] on numbers. *)
Definition quotient (x y : Q) : Q := binary64 (x / y).
Definition product (x y : Q) : Q := binary64 (x * y).

(** The remainder operator [%] on integers: the sign follows the dividend. *)
Definition js_rem (a b : Z) : Z := Z.rem a b.

(** Sequencing of calls that can throw. *)
Definition and_then {A B : Type} (x : option A) (f : A -> option B)
  : option B :=
  match x with
  | Some a => f a
  | None => None
  end.

(** [Number.prototype.toFixed(f)] on a number below [10^21]: the sign, then
    the decimal digits of the integer nearest to [|x| * 10^f] (the larger
    one on a tie), padded with zeros to [f + 1] digits, with a point before
    the last [f] of them. *)
Definition Number_toFixed (x : Q) (f : nat) : jsstring :=
  let '(s, x) := match x ?= 0 with
                 | Lt => (js "-", - x)
                 | _ => ([], x)
                 end in
  let n := Qfloor (x * inject_Z (10 ^ Z.of_nat f) + (1 # 2)) in
  let m := Number_toString n in
  s ++ match f with
       | O => m
       | _ =>
           let m := repeat 48%N (S f - length m) ++ m in
           let k := length m in
           firstn (k - f) m ++ js "." ++ skipn (k - f) m
       end.

End JS.
Import JS.

Notation "x <- e ;; k" := (and_then e (fun x => k))
  (at level 100, e at next level, right associativity).

(* ===================================================================== *)
(** * Regular expressions *)
(* ===================================================================== *)

Module RegExp.

(** The pattern syntax the sources use.  [Group] is the capturing group
    number 1 (no pattern of the sources has a second one, and none puts a
    group under a quantifier). *)
Inductive regex : Type :=
| Empty : regex
| Char : N -> regex
| Class : (N -> bool) -> regex
| Seq : regex -> regex -> regex
| Alt : regex -> regex -> regex
| Star : regex -> regex
| Group : regex -> regex.

(** [r+] and [r?], greedy. *)
Definition Plus (r : regex) : regex := Seq r (Star r).
Definition Opt (r : regex) : regex := Alt r Empty.

(** A literal word. *)
Fixpoint Lit (w : jsstring) : regex :=
  match w with
  | [] => Empty
  | [c] => Char c
  | c :: w' => Seq (Char c) (Lit w')
  end.

Record RegExp := {
  pattern : regex;
  ignoreCase : bool;
  global : bool
}.

(** [Canonicalize] of the [i] flag without the [u] flag: upper-casing of one
    code unit.  Only the mapping of [a]-[z] is kept: the patterns of the
    sources hold ASCII letters only, and ECMAScript never lets a code unit
    above 127 canonicalize to one below 128. *)
Definition canonicalize (c : N) : N :=
  if ((97 <=? c) && (c <=? 122))%N then (c - 32)%N else c.

Definition char_match (ic : bool) (x c : N) : bool :=
  if ic then code_eqb (canonicalize x) (canonicalize c) else code_eqb x c.

(** The backtracking matcher, in continuation-passing style as in the
    ECMAScript semantics: [mtch ic r s cap k] matches [r] against a prefix of
    the remaining input [s] and hands the rest of the input and the capture
    to [k]; when [k] fails the next alternative is tried.  A greedy [Star]
    tries one more iteration before it tries the continuation, and rejects
    an iteration that consumes nothing. *)
Fixpoint mtch {R : Type} (ic : bool) (r : regex) (s : jsstring)
  (cap : option jsstring) (k : jsstring -> option jsstring -> option R)
  {struct r} : option R :=
  match r with
  | Empty => k s cap
  | Char c =>
      match s with
      | x :: s' => if char_match ic x c then k s' cap else None
      | [] => None
      end
  | Class p =>
      match s with
      | x :: s' => if p x then k s' cap else None
      | [] => None
      end
  | Seq r1 r2 => mtch ic r1 s cap (fun s1 c1 => mtch ic r2 s1 c1 k)
  | Alt r1 r2 =>
      match mtch ic r1 s cap k with
      | Some x => Some x
      | None => mtch ic r2 s cap k
      end
  | Star r1 =>
      (fix loop (fuel : nat) (s0 : jsstring) (cap0 : option jsstring)
         {struct fuel} : option R :=
         match fuel with
         | O => k s0 cap0
         | S fuel' =>
             match mtch ic r1 s0 cap0
                     (fun s1 c1 =>
                        if (length s1 =? length s0)%nat then None
                        else loop fuel' s1 c1) with
             | Some x => Some x
             | None => k s0 cap0
             end
         end) (length s) s cap
  | Group r1 =>
      mtch ic r1 s cap
        (fun s1 _ => k s1 (Some (firstn (length s - length s1) s)))
  end.

(** The loop of [Star] inside [mtch], under a name. *)
Definition star_loop {R : Type} (ic : bool) (r1 : regex)
  (k : jsstring -> option jsstring -> option R)
  : nat -> jsstring -> option jsstring -> option R :=
  fix loop (fuel : nat) (s0 : jsstring) (cap0 : option jsstring)
    {struct fuel} : option R :=
    match fuel with
    | O => k s0 cap0
    | S fuel' =>
        match mtch ic r1 s0 cap0
                (fun s1 c1 =>
                   if (length s1 =? length s0)%nat then None
                   else loop fuel' s1 c1) with
        | Some x => Some x
        | None => k s0 cap0
        end
    end.

(** One attempt at the current position: the input left after the match and
    the capture. *)
Definition exec_at (re : RegExp) (s : jsstring)
  : option (jsstring * option jsstring) :=
  mtch (ignoreCase re) (pattern re) s None (fun s' c => Some (s', c)).

(** [RegExp.prototype.exec] from index 0: the leftmost position with a
    match. *)
Fixpoint exec (re : RegExp) (s : jsstring)
  : option (jsstring * option jsstring) :=
  match exec_at re s with
  | Some m => Some m
  | None =>
      match s with
      | [] => None
      | _ :: t => exec re t
      end
  end.

(** [String.prototype.match] with a regular expression without the [g]
    flag (the only use in the sources): [None] is [null], otherwise element
    [1] of the match array. *)
Definition String_match (s : jsstring) (re : RegExp)
  : option (option jsstring) :=
  match exec re s with
  | Some (_, c) => Some c
  | None => None
  end.

(** [String.prototype.replace] with a regular expression and a replacement
    text without [$].  With the [g] flag every match, left to right, is
    replaced, and after an empty match the scan moves on by one code unit;
    without it only the leftmost match is replaced. *)
Fixpoint replace_from (fuel : nat) (re : RegExp) (rep s : jsstring)
  : jsstring :=
  match fuel with
  | O => s
  | S fuel' =>
      match exec_at re s with
      | Some (s', _) =>
          match s with
          | [] => rep
          | c :: t =>
              if (length s' =? length s)%nat
              then rep ++ c :: replace_from fuel' re rep t
              else rep ++ replace_from fuel' re rep s'
          end
      | None =>
          match s with
          | [] => []
          | c :: t => c :: replace_from fuel' re rep t
          end
      end
  end.

Fixpoint replace_first (re : RegExp) (rep s : jsstring) : jsstring :=
  match exec_at re s with
  | Some (s', _) => rep ++ s'
  | None =>
      match s with
      | [] => []
      | c :: t => c :: replace_first re rep t
      end
  end.

Definition String_replace (s : jsstring) (re : RegExp) (rep : jsstring)
  : jsstring :=
  if global re then replace_from (S (length s)) re rep s
  else replace_first re rep s.

End RegExp.
Import RegExp.

(* ===================================================================== *)
(** * hooks/utils/token.ts *)
(* ===================================================================== *)

Module Token.

Record TokenUsage := {
  current : Z;
  max : Z;
  percentage : Z
}.

(** The literal "/\s+/g". *)
Definition whitespace_runs : RegExp :=
  {| pattern := Plus (Class is_whitespace);
     ignoreCase := false;
     global := true |}.

(** [estimateTokens] *)
Definition estimateTokens (text : jsstring) : Z :=
  match text with
  | [] => 0
  | _ =>
      let trimmed := String_trim (String_replace text whitespace_runs (js " ")) in
      Math_ceil (inject_Z (Z.of_nat (length trimmed)) / 4)
  end.

(** The literal of [parseConversationTokens], flag [i]: the capturing group
    (a run of digits, then any number of a comma and a run of digits), then
    any white space, [token] and an optional [s]. *)
Definition grouped_digits : regex :=
  Seq (Plus (Class is_digit))
      (Star (Seq (Char 44) (Plus (Class is_digit)))).

Definition token_suffix : regex :=
  Seq (Star (Class is_whitespace)) (Seq (Lit (js "token")) (Opt (Char 115))).

Definition token_count : RegExp :=
  {| pattern := Seq (Group grouped_digits) token_suffix;
     ignoreCase := true;
     global := false |}.

(** The literal "/,/g". *)
Definition commas : RegExp :=
  {| pattern := Char 44; ignoreCase := false; global := true |}.

(** The value of [parseInt] as a number of the model; the [NaN] branch is
    never taken on the text a [token_count] match captures (lemma
    [captured_parses] below). *)
Definition number_of (x : option Z) : Z :=
  match x with Some z => z | None => 0 end.

(** [parseConversationTokens].  [tokenMatch1] is [tokenMatch[1]]: a match of
    [token_count] always sets it (lemma [exec_token_some] below), so its
    [None] branch, where JavaScript would throw, is never taken.  [parseInt]
    is the integer the digits spell; JavaScript returns that integer below
    [2^53] and the nearest double beyond, so the statements about the number
    read take it below [2^53]. *)
Definition parseConversationTokens (summary : jsstring) : Z :=
  match summary with
  | [] => 0
  | _ =>
      match String_match summary token_count with
      | Some tokenMatch1 =>
          match tokenMatch1 with
          | Some g => number_of (parseInt (String_replace g commas []))
          | None => 0
          end
      | None => estimateTokens summary
      end
  end.

(** [summary || ""] *)
Definition or_empty (summary : option jsstring) : jsstring :=
  match summary with
  | Some s => s
  | None => []
  end.

(** [calculateTokenUsage].  For [maxTokens = 0] JavaScript yields [NaN] or
    [Infinity], which the model does not hold: statements about this
    function take [0 < maxTokens]. *)
Definition calculateTokenUsage (summary : option jsstring) (maxTokens : Z)
  : TokenUsage :=
  let current := parseConversationTokens (or_empty summary) in
  let safeCurrent := Z.min current maxTokens in
  let percentage :=
    Math_round
      (product (quotient (inject_Z safeCurrent) (inject_Z maxTokens)) 100) in
  {| current := safeCurrent; max := maxTokens; percentage := percentage |}.

(** [isContextCritical], [isContextLow] with their default thresholds *)
Definition isContextCritical (usage : TokenUsage) (threshold : Z) : bool :=
  (threshold <=? percentage usage)%Z.

Definition isContextLow (usage : TokenUsage) (threshold : Z) : bool :=
  (threshold <=? percentage usage)%Z.

(** The two warning texts; the leading pictographs are U+26A0 U+FE0F and
    U+2139 U+FE0F. *)
Definition warning_critical : jsstring :=
  [9888; 65039]%N
  ++ js " Context window nearly full! Consider starting a new session.".

Definition warning_low : jsstring :=
  [8505; 65039]%N
  ++ js " Context usage is above 75%. Some history may be summarized.".

(** [getContextWarning]; [None] is [null]. *)
Definition getContextWarning (usage : TokenUsage) : option jsstring :=
  if isContextCritical usage 90 then Some warning_critical
  else if isContextLow usage 75 then Some warning_low
  else None.

(** [formatTokenCount].  [toFixed] sees the rounded quotient: 1150000 is
    printed as 1.1M, the double of 1.15 lying below it. *)
Definition formatTokenCount (count : Z) : jsstring :=
  if (1000000 <=? count)%Z then
    Number_toFixed (quotient (inject_Z count) 1000000) 1 ++ js "M"
  else if (1000 <=? count)%Z then
    Number_toFixed (quotient (inject_Z count) 1000) 0 ++ js "K"
  else Number_toString count.

(** [formatTokenUsage] *)
Definition formatTokenUsage (usage : TokenUsage) : jsstring :=
  let currentStr := formatTokenCount (current usage) in
  let maxStr := formatTokenCount (max usage) in
  Number_toString (percentage usage) ++ js "% (" ++ currentStr ++ js "/"
  ++ maxStr ++ js ")".

(** [getTokenColor] *)
Definition getTokenColor (percentage : Z) : jsstring :=
  if (75 <=? percentage)%Z then js "low"
  else if (25 <=? percentage)%Z then js "medium"
  else js "high".

End Token.

Import Token.

(** ** The rounded expressions on the doubles of the kernel *)

Module Binary64.
Import Floats.PrimFloat Floats.SpecFloat Floats.FloatOps.

(** The exact value of a finite double. *)
Definition exact_value (x : float) : option Q :=
  match Prim2SF x with
  | S754_zero _ => Some 0
  | S754_finite sign m e =>
      let magnitude :=
        if (0 <=? e)%Z then inject_Z (Zpos m * 2 ^ e)
        else Zpos m # Pos.pow 2 (Z.to_pos (- e)) in
      Some (if sign then - magnitude else magnitude)
  | S754_infinity _ | S754_nan => None
  end.

(** [Math.round] of a finite double. *)
Definition Math_round_double (x : float) : option Z :=
  option_map Math_round (exact_value x).

(** The double of an integer from 0 to [2^63 - 1]. *)
Definition double_of (z : Z) : float := of_uint63 (Uint63.of_Z z).

(** [Math.round((a / b) * c)] on the doubles of three integers, as
    JavaScript evaluates it. *)
Definition rounded_share (a b c : Z) : option Z :=
  Math_round_double (mul (div (double_of a) (double_of b)) (double_of c)).

(** [Math.round((safeCurrent / maxTokens) * 100)] of [calculateTokenUsage]
    and [Math.round((percentage / 100) * length)] of the bars. *)
Definition percentage_double (safeCurrent maxTokens : Z) : option Z :=
  rounded_share safeCurrent maxTokens 100.

Definition filled_double (percentage length : Z) : option Z :=
  rounded_share percentage 100 length.

End Binary64.

(* ===================================================================== *)
(** * src/config.ts *)
(* ===================================================================== *)

Module Config.
Import stdpp.base stdpp.gmap stdpp.strings.

Record ColorConfig := {
  low : jsstring;
  medium : jsstring;
  high : jsstring
}.

Record StatuslineConfig := {
  maxTokens : Z;
  progressBarWidth : Z;
  showIcons : bool;
  colors : ColorConfig
}.

(** What [getEnv] and [getPlatform] read: the environment and the platform
    name of the process. *)
Record Process := {
  env : gmap string jsstring;
  platform : jsstring
}.

Definition getEnv (p : Process) (key : string) : option jsstring :=
  env p !! key.

Definition getPlatform (p : Process) : jsstring := platform p.

(** Truthiness of [string | undefined]. *)
Definition truthy (x : option jsstring) : bool :=
  match x with
  | Some (_ :: _) => true
  | _ => false
  end.

Definition DEFAULT_CONFIG : StatuslineConfig :=
  {| maxTokens := 200000;
     progressBarWidth := 20;
     showIcons := true;
     colors := {| low := js "red"; medium := js "yellow"; high := js "green" |} |}.

Definition MODEL_TOKEN_LIMITS : list (jsstring * Z) :=
  [ (js "claude-3-5-haiku", 200000);
    (js "claude-3-5-sonnet", 200000);
    (js "claude-3-opus", 200000);
    (js "claude-opus-4-5", 1000000);
    (js "claude-sonnet-4-5", 200000);
    (js "claude-opus-4-6", 1000000);
    (js "claude-sonnet-4-6", 200000) ]%Z.

Definition set_maxTokens (v : Z) (c : StatuslineConfig) : StatuslineConfig :=
  {| maxTokens := v; progressBarWidth := progressBarWidth c;
     showIcons := showIcons c; colors := colors c |}.

Definition set_progressBarWidth (v : Z) (c : StatuslineConfig)
  : StatuslineConfig :=
  {| maxTokens := maxTokens c; progressBarWidth := v;
     showIcons := showIcons c; colors := colors c |}.

Definition set_showIcons (v : bool) (c : StatuslineConfig) : StatuslineConfig :=
  {| maxTokens := maxTokens c; progressBarWidth := progressBarWidth c;
     showIcons := v; colors := colors c |}.

(** [loadConfig]: the assignments to [config], in the order of the source. *)
Definition loadConfig (p : Process) : StatuslineConfig :=
  let config := DEFAULT_CONFIG in
  let maxTokensEnv := getEnv p "STATUSLINE_MAX_TOKENS" in
  let config :=
    if truthy maxTokensEnv then
      let parsed := parseInt (or_empty maxTokensEnv) in
      match parsed with
      | Some n => set_maxTokens n config
      | None => config
      end
    else config in
  let progressBarWidthEnv := getEnv p "STATUSLINE_PROGRESS_WIDTH" in
  let config :=
    if truthy progressBarWidthEnv then
      let parsed := parseInt (or_empty progressBarWidthEnv) in
      match parsed with
      | Some n => if (0 <? n)%Z then set_progressBarWidth n config else config
      | None => config
      end
    else config in
  let showIconsEnv := getEnv p "STATUSLINE_ICONS" in
  let config :=
    if truthy showIconsEnv then
      set_showIcons
        (jsstring_eqb (or_empty showIconsEnv) (js "true")
         || jsstring_eqb (or_empty showIconsEnv) (js "1")) config
    else config in
  let config :=
    if jsstring_eqb (getPlatform p) (js "windows") then
      let term := or_empty (getEnv p "TERM") in
      let wtSession := getEnv p "WT_SESSION" in
      if negb (String_includes term (js "xterm")) && negb (truthy wtSession)
      then set_showIcons false config
      else config
    else config in
  config.

(** [getMaxTokensForModel]: the first key of the table the model name
    includes. *)
Fixpoint first_limit (table : list (jsstring * Z)) (model : jsstring)
  : option Z :=
  match table with
  | [] => None
  | (key, value) :: rest =>
      if String_includes model key then Some value
      else first_limit rest model
  end.

Definition getMaxTokensForModel (model : jsstring) : Z :=
  match first_limit MODEL_TOKEN_LIMITS model with
  | Some v => v
  | None => maxTokens DEFAULT_CONFIG
  end.

(** [updateConfigForModel] *)
Definition updateConfigForModel (config : StatuslineConfig) (model : jsstring)
  : StatuslineConfig :=
  set_maxTokens (getMaxTokensForModel model) config.

End Config.

(* ===================================================================== *)
(** * src/lib/colors.ts *)
(* ===================================================================== *)

Module Colors.

Definition ColorFunction := jsstring -> jsstring.

Definition ESC : N := 27.

(** The escape sequence [ESC [ body m]. *)
Definition sgr (body : string) : jsstring := ESC :: js "[" ++ js body ++ js "m".

Module ANSI.
Definition reset := sgr "0".
Definition black := sgr "30".
Definition white := sgr "37".
Definition brightBlack := sgr "90".
Definition brightRed := sgr "91".
Definition brightGreen := sgr "92".
Definition brightYellow := sgr "93".
Definition brightWhite := sgr "97".
Definition bgBlack := sgr "40".
Definition bgBlue := sgr "44".
Definition bgMagenta := sgr "45".
Definition bgCyan := sgr "46".
Definition bgWhite := sgr "47".
Definition bgBlackBright := sgr "100".
Definition bold := sgr "1".
Definition dim := sgr "2".
Definition italic := sgr "3".
Definition underline := sgr "4".
Definition blink := sgr "5".
Definition inverse := sgr "7".
Definition hidden := sgr "8".
Definition strikethrough := sgr "9".
Definition red := sgr "31".
Definition green := sgr "32".
Definition yellow := sgr "33".
Definition blue := sgr "34".
Definition magenta := sgr "35".
Definition cyan := sgr "36".
Definition brightBlue := sgr "94".
Definition brightMagenta := sgr "95".
Definition brightCyan := sgr "96".
Definition bgRed := sgr "41".
Definition bgGreen := sgr "42".
Definition bgYellow := sgr "43".
Definition bgRedBright := sgr "101".
Definition bgGreenBright := sgr "102".
Definition bgYellowBright := sgr "103".
Definition bgBlueBright := sgr "104".
Definition bgMagentaBright := sgr "105".
Definition bgCyanBright := sgr "106".
Definition bgWhiteBright := sgr "107".
End ANSI.

(** [color] and [bgColor] *)
Definition color (code : jsstring) : ColorFunction :=
  fun text => code ++ text ++ ANSI.reset.

Definition bgColor (code : jsstring) : ColorFunction :=
  fun text => code ++ text ++ ANSI.reset.

Definition orange : ColorFunction :=
  fun text => sgr "38;5;208" ++ text ++ ANSI.reset.

Definition peach : ColorFunction :=
  fun text => sgr "38;2;222;115;86" ++ text ++ ANSI.reset.

Definition bgPeach : ColorFunction :=
  fun text => sgr "48;2;222;115;86" ++ text ++ ANSI.reset.

(** The members of [colors] the formatters use. *)
Definition green := color ANSI.brightGreen.
Definition red := color ANSI.brightRed.
Definition yellow := color ANSI.brightYellow.
Definition black := color ANSI.black.
Definition white := color ANSI.white.
Definition gray := color ANSI.brightBlack.
Definition lightGray := color ANSI.brightWhite.
Definition bgBlack := bgColor ANSI.bgBlack.
Definition bgBlackBright := bgColor ANSI.bgBlackBright.
Definition bgWhite := bgColor ANSI.bgWhite.
Definition bgBlue := bgColor ANSI.bgBlue.
Definition bgMagenta := bgColor ANSI.bgMagenta.
Definition bgCyan := bgColor ANSI.bgCyan.

(** The other members of [colors]. *)
Definition purple := color ANSI.brightMagenta.
Definition dimWhite := color ANSI.white.
Definition cyan := color ANSI.brightCyan.
Definition blue := color ANSI.brightBlue.
Definition dim := color ANSI.dim.
Definition bold := color ANSI.bold.
Definition hidden := color ANSI.hidden.
Definition italic := color ANSI.italic.
Definition underline := color ANSI.underline.
Definition strikethrough := color ANSI.strikethrough.
Definition reset := color ANSI.reset.
Definition inverse := color ANSI.inverse.

(** The exported object [colors], in the order of its keys. *)
Definition colors : list (string * ColorFunction) :=
  [ ("green", green); ("red", red); ("purple", purple); ("yellow", yellow);
    ("orange", orange); ("peach", peach); ("bgPeach", bgPeach);
    ("black", black); ("white", white); ("gray", gray);
    ("dimWhite", dimWhite); ("lightGray", lightGray);
    ("cyan", cyan); ("blue", blue);
    ("bgBlack", bgBlack); ("bgBlackBright", bgBlackBright);
    ("bgWhite", bgWhite); ("bgBlue", bgBlue); ("bgMagenta", bgMagenta);
    ("bgCyan", bgCyan);
    ("dim", dim); ("bold", bold); ("hidden", hidden); ("italic", italic);
    ("underline", underline); ("strikethrough", strikethrough);
    ("reset", reset); ("inverse", inverse) ]%string.

(** The literal of [stripAnsi], flag [g].  In the order of the pattern: the
    introducer ESC or CSI; any run of the six punctuation characters; an
    optional parameter list, one to four digits followed by any number of
    groups of a semicolon and at most four digits; the final character. *)
Definition ansi_introducer (c : N) : bool := ((c =? 27) || (c =? 155))%N.

Definition ansi_punctuation (c : N) : bool :=
  ((c =? 91) || (c =? 40) || (c =? 41) || (c =? 35) || (c =? 59)
   || (c =? 63))%N.

Definition ansi_final (c : N) : bool :=
  (is_digit c || ((65 <=? c) && (c <=? 79)) || (c =? 82) || (c =? 90)
   || (c =? 99) || ((102 <=? c) && (c <=? 110)) || (c =? 113) || (c =? 114)
   || (c =? 121) || (c =? 61) || (c =? 62) || (c =? 60))%N.

(** The greedy bounded repetitions of a digit: at most [n], and from one
    to [S n]. *)
Fixpoint digits_upto (n : nat) : regex :=
  match n with
  | O => Empty
  | S n' => Opt (Seq (Class is_digit) (digits_upto n'))
  end.

Definition digits_1to4 : regex := Seq (Class is_digit) (digits_upto 3).

Definition ansi_parameters : regex :=
  Seq digits_1to4 (Star (Seq (Char 59) (digits_upto 4))).

Definition ansi_sequences : RegExp :=
  {| pattern :=
       Seq (Class ansi_introducer)
         (Seq (Star (Class ansi_punctuation))
            (Seq (Opt ansi_parameters) (Class ansi_final)));
     ignoreCase := false;
     global := true |}.

(** [stripAnsi] *)
Definition stripAnsi (str : jsstring) : jsstring :=
  String_replace str ansi_sequences [].

End Colors.

(* ===================================================================== *)
(** * src/lib/formatters.ts *)
(* ===================================================================== *)

Module Formatters.
Import Colors.

(** What [homedir()] of [os] and [sep] of [path] return. *)
Record Os := {
  homedir : jsstring;
  sep : jsstring
}.

(** The class of the literal "/[/\\]/". *)
Definition is_slash (c : N) : bool := ((c =? 47) || (c =? 92))%N.

Definition nonempty (s : jsstring) : bool :=
  match s with [] => false | _ => true end.

Definition ELLIPSIS : N := 8230.

(** [segments.slice(-2)] *)
Definition slice_last2 (l : list jsstring) : list jsstring :=
  skipn (length l - 2) l.

(** The value of the local [formattedPath] of [formatPath]: a leading home
    directory becomes [~]. *)
Definition homeSubstituted (os : Os) (path : jsstring) : jsstring :=
  let home := homedir os in
  if nonempty home && String_startsWith path home
  then js "~" ++ String_slice_from path (length home)
  else path.

(** [path.split(...).filter((s) => s.length > 0)] *)
Definition segmentsOf (path : jsstring) : list jsstring :=
  filter nonempty (String_split is_slash path).

(** [formatPath]; the modes are the strings the source compares with. *)
Definition formatPath (os : Os) (path : jsstring) (mode : jsstring)
  : jsstring :=
  let formattedPath := homeSubstituted os path in
  if jsstring_eqb mode (js "basename") then
    let segments := segmentsOf path in
    match last segments [] with
    | [] => path
    | seg => seg
    end
  else if jsstring_eqb mode (js "truncated")
          && (2 <? length (segmentsOf formattedPath))%nat then
    let segments := segmentsOf formattedPath in
    [ELLIPSIS] ++ sep os ++ Array_join (slice_last2 segments) (sep os)
  else formattedPath.

(** [formatDuration] *)
Definition formatDuration (ms : Q) : jsstring :=
  let minutes := Math_floor (ms / 60000) in
  let hours := Math_floor (inject_Z minutes / 60) in
  let mins := js_rem minutes 60 in
  if (0 <? hours)%Z then
    if (0 <? mins)%Z
    then Number_toString hours ++ js "h" ++ Number_toString mins ++ js "m"
    else Number_toString hours ++ js "h"
  else Number_toString mins ++ js "m".

Definition Qltb (a b : Q) : bool := negb (Qle_bool b a).

(** [getProgressBarColor] *)
Definition getProgressBarColor (percentage : Q) (colorMode : jsstring)
  : ColorFunction :=
  if jsstring_eqb colorMode (js "progressive") then
    if Qltb percentage 50 then gray
    else if Qltb percentage 70 then yellow
    else if Qltb percentage 90 then orange
    else red
  else if jsstring_eqb colorMode (js "green") then green
  else if jsstring_eqb colorMode (js "yellow") then yellow
  else if jsstring_eqb colorMode (js "peach") then peach
  else if jsstring_eqb colorMode (js "black") then black
  else if jsstring_eqb colorMode (js "white") then white
  else red.

(** [getProgressBarBackground]; [None] is [null]. *)
Definition getProgressBarBackground (background : jsstring)
  : option ColorFunction :=
  if jsstring_eqb background (js "none") then None
  else if jsstring_eqb background (js "dark") then Some bgBlack
  else if jsstring_eqb background (js "gray") then Some bgBlackBright
  else if jsstring_eqb background (js "light") then Some bgWhite
  else if jsstring_eqb background (js "blue") then Some bgBlue
  else if jsstring_eqb background (js "purple") then Some bgMagenta
  else if jsstring_eqb background (js "cyan") then Some bgCyan
  else if jsstring_eqb background (js "peach") then Some bgPeach
  else None.

(** [bgFn ? bgFn(colorFn(x)) : colorFn(x)] *)
Definition paint (colorFn : ColorFunction) (bgFn : option ColorFunction)
  (x : jsstring) : jsstring :=
  match bgFn with
  | Some bg => bg (colorFn x)
  | None => colorFn x
  end.

Definition FULL_BLOCK : N := 9608.
Definition LIGHT_SHADE : N := 9617.
Definition BLACK_PARALLELOGRAM : N := 9648.
Definition WHITE_PARALLELOGRAM : N := 9649.

(** [formatProgressBarFilled] *)
Definition formatProgressBarFilled (percentage : Q) (length : Z)
  (colorMode background : jsstring) : option jsstring :=
  let filled :=
    Math_round (product (quotient percentage 100) (inject_Z length)) in
  let empty := (length - filled)%Z in
  filledBar <- String_repeat [FULL_BLOCK] filled ;;
  emptyBar <- String_repeat [LIGHT_SHADE] empty ;;
  let colorFn := getProgressBarColor percentage colorMode in
  let bgFn := getProgressBarBackground background in
  let coloredFilled := paint colorFn bgFn filledBar in
  let coloredEmpty := paint colorFn bgFn emptyBar in
  Some (coloredFilled ++ coloredEmpty).

(** [formatProgressBarRectangle] *)
Definition formatProgressBarRectangle (percentage : Q) (length : Z)
  (colorMode background : jsstring) : option jsstring :=
  let filled :=
    Math_round (product (quotient percentage 100) (inject_Z length)) in
  let empty := (length - filled)%Z in
  filledBar <- String_repeat [BLACK_PARALLELOGRAM] filled ;;
  emptyBar <- String_repeat [WHITE_PARALLELOGRAM] empty ;;
  let colorFn := getProgressBarColor percentage colorMode in
  let bgFn := getProgressBarBackground background in
  let coloredFilled := paint colorFn bgFn filledBar in
  let coloredEmpty := paint colorFn bgFn emptyBar in
  Some (coloredFilled ++ coloredEmpty).

(** [brailleChars]: U+28C0, U+28C4, U+28E4, U+28E6, U+28F6, U+28F7, U+28FF. *)
Definition brailleChars : list jsstring :=
  [[10432]; [10436]; [10468]; [10470]; [10486]; [10487]; [10495]]%N.

Definition BRAILLE_FULL : N := 10495.
Definition BRAILLE_EMPTY : N := 10432.

(** The local constants of [formatProgressBarBraille]. *)
Record BrailleSteps := {
  totalSteps : Z;
  currentStep : Z;
  fullBlocks : Z;
  partialIndex : Z;
  emptyBlocks : Z
}.

Definition brailleSteps (percentage : Q) (length : Z) : BrailleSteps :=
  let levels := (Z.of_nat (List.length brailleChars) - 1)%Z in
  let totalSteps := (length * levels)%Z in
  let currentStep :=
    Math_round (product (quotient percentage 100) (inject_Z totalSteps)) in
  let fullBlocks := Math_floor (inject_Z currentStep / inject_Z levels) in
  let partialIndex := js_rem currentStep levels in
  let emptyBlocks :=
    (length - fullBlocks - (if (0 <? partialIndex)%Z then 1 else 0))%Z in
  {| totalSteps := totalSteps; currentStep := currentStep;
     fullBlocks := fullBlocks; partialIndex := partialIndex;
     emptyBlocks := emptyBlocks |}.

(** [formatProgressBarBraille] *)
Definition formatProgressBarBraille (percentage : Q) (length : Z)
  (colorMode background : jsstring) : option jsstring :=
  let st := brailleSteps percentage length in
  let colorFn := getProgressBarColor percentage colorMode in
  let bgFn := getProgressBarBackground background in
  fullRun <- String_repeat [BRAILLE_FULL] (fullBlocks st) ;;
  let fullPart := paint colorFn bgFn fullRun in
  let partialPart :=
    if (0 <? partialIndex st)%Z
    then paint colorFn bgFn
           (nth (Z.to_nat (partialIndex st)) brailleChars (js "undefined"))
    else [] in
  emptyPart <-
    (if (0 <? emptyBlocks st)%Z
     then emptyRun <- String_repeat [BRAILLE_EMPTY] (emptyBlocks st) ;;
          Some (paint colorFn bgFn emptyRun)
     else Some []) ;;
  Some (fullPart ++ partialPart ++ emptyPart).

(** [formatProgressBar] *)
Definition formatProgressBar (percentage : Q) (length : Z)
  (style colorMode background : jsstring) : option jsstring :=
  if jsstring_eqb style (js "rectangle") then
    formatProgressBarRectangle percentage length colorMode background
  else if jsstring_eqb style (js "braille") then
    formatProgressBarBraille percentage length colorMode background
  else formatProgressBarFilled percentage length colorMode background.

(** [formatResetTime], from the two instants it compares: [resetTime] is
    [new Date(resetsAt).getTime()], [None] when the date is invalid, and
    [now] is [new Date().getTime()], both in whole milliseconds. *)
Definition formatResetTime (resetTime : option Z) (now : Z) : jsstring :=
  match resetTime with
  | None => js "N/A"
  | Some t =>
      let diffMs := (t - now)%Z in
      if (diffMs <=? 0)%Z then js "now"
      else
        let hours := Math_floor (inject_Z diffMs / 3600000) in
        let minutes :=
          Math_floor (inject_Z (js_rem diffMs 3600000) / 60000) in
        if (0 <? hours)%Z
        then Number_toString hours ++ js "h"
             ++ Number_toString minutes ++ js "m"
        else Number_toString minutes ++ js "m"
  end.

End Formatters.

(* ===================================================================== *)
(** * hooks/utils/git.ts and hooks/utils/display.ts *)
(* ===================================================================== *)

Module Git.

(** [formatPath] of the hook renderer ([maxLength] is not read). *)
Definition formatPath (relativePath : jsstring) : jsstring :=
  if jsstring_eqb relativePath (js ".") then js "~"
  else
    let segments := String_split (fun c => (c =? 47)%N) relativePath in
    if (length segments <=? 2)%nat then js "~/" ++ relativePath
    else
      let first := hd [] segments in
      let last := last segments [] in
      js "~/" ++ first ++ js "/.../" ++ last.

Record GitInfo := {
  branch : jsstring;
  root : jsstring;
  currentPath : jsstring;
  relativePath : jsstring;
  dirty : bool;
  staged : bool;
  commitsAhead : Z;
  commitsBehind : Z
}.

Record FileStats := {
  insertions : Z;
  deletions : Z;
  modifications : Z
}.

(** [formatBranch] *)
Definition formatBranch (branch : jsstring) (dirty : bool) : jsstring :=
  if Formatters.nonempty branch then
    if dirty then branch ++ js "*" else branch
  else [].

(** The literal of [getRelativePath], flag [g]: one backslash. *)
Definition backslashes : RegExp :=
  {| pattern := Char 92; ignoreCase := false; global := true |}.

(** [getRelativePath], from the two paths it reads: [root] is what
    [getGitRoot] returned and [current] is [cwd || getCwd()]. *)
Definition getRelativePath (root current : jsstring) : jsstring :=
  if jsstring_eqb root current then js "."
  else
    let rootNormalized := String_replace root backslashes (js "/") in
    let currentNormalized := String_replace current backslashes (js "/") in
    if String_startsWith currentNormalized rootNormalized then
      let relative :=
        String_slice_from currentNormalized (length rootNormalized) in
      let relative :=
        if String_startsWith relative (js "/")
        then String_slice_from relative 1
        else relative in
      if Formatters.nonempty relative then relative else js "."
    else current.

(** The two literals of [parseStats] inside [getFileStats]: a captured run
    of digits, a space and the word insertion, or the word deletion. *)
Definition insertion_count : RegExp :=
  {| pattern := Seq (Group (Plus (Class is_digit))) (Lit (js " insertion"));
     ignoreCase := false;
     global := false |}.

Definition deletion_count : RegExp :=
  {| pattern := Seq (Group (Plus (Class is_digit))) (Lit (js " deletion"));
     ignoreCase := false;
     global := false |}.

Record ShortStat := { ins : Z; del : Z }.

(** [insMatch ? parseInt(insMatch[1]) : 0]; a match always sets its
    group. *)
Definition matched_count (m : option (option jsstring)) : Z :=
  match m with
  | Some (Some g) => number_of (parseInt g)
  | _ => 0%Z
  end.

(** [parseStats], the local function of [getFileStats]. *)
Definition parseStats (stats : jsstring) : ShortStat :=
  let insMatch := String_match stats insertion_count in
  let delMatch := String_match stats deletion_count in
  {| ins := matched_count insMatch; del := matched_count delMatch |}.

(** [filesChanged ? filesChanged.split("\n").length : 0] *)
Definition changed_lines (files : jsstring) : Z :=
  if Formatters.nonempty files
  then Z.of_nat (length (String_split (fun c => (c =? 10)%N) files))
  else 0%Z.

(** [getFileStats], from what the git commands printed: [isRepo] is the
    result of [isGitRepo], the four texts are the trimmed outputs of the
    two [--shortstat] and the two [--name-only] commands. *)
Definition getFileStats (isRepo : bool)
  (diffStats cachedStats filesChanged filesCached : jsstring) : FileStats :=
  if negb isRepo then
    {| insertions := 0; deletions := 0; modifications := 0 |}
  else
    let diff := parseStats diffStats in
    let cached := parseStats cachedStats in
    {| insertions := ins diff + ins cached;
       deletions := del diff + del cached;
       modifications := changed_lines filesChanged + changed_lines filesCached |}.

End Git.

Module Display.

(** The class of digits and semicolons. *)
Definition ansi_body (c : N) : bool := is_digit c || (c =? 59)%N.

(** The literal of [stripAnsiCodes], flag [g]: ESC, an opening bracket, any
    run of digits and semicolons, [m]. *)
Definition ansi_codes : RegExp :=
  {| pattern :=
       Seq (Char 27)
         (Seq (Char 91) (Seq (Star (Class ansi_body)) (Char 109)));
     ignoreCase := false;
     global := true |}.

(** [stripAnsiCodes] *)
Definition stripAnsiCodes (text : jsstring) : jsstring :=
  String_replace text ansi_codes [].

Record StatuslineDisplay := {
  branch : jsstring;
  path : jsstring;
  progressBar : jsstring;
  tokenInfo : jsstring;
  fileStats : jsstring;
  full : jsstring
}.

(** The object a hook writes, inside its [hookSpecificOutput] wrapper; an
    absent optional field is [None]. *)
Record HookOutput := {
  hookEventName : jsstring;
  additionalContext : option jsstring;
  systemMessage : option jsstring
}.

(** [formatStatuslineForContext]; the calls [lines.push()] without an
    argument add nothing. *)
Definition formatStatuslineForContext (display : StatuslineDisplay)
  : jsstring :=
  let lines :=
    if Formatters.nonempty (full display) then
      [js "## Statusline"; full display]
      ++ (if Formatters.nonempty (fileStats display)
          then [js "File changes: " ++ fileStats display]
          else [])
    else [] in
  Array_join lines [10%N].

(** [getWarningSystemMessage] *)
Definition getWarningSystemMessage (tokenUsage : TokenUsage)
  : option jsstring :=
  match getContextWarning tokenUsage with
  | Some (c :: w) =>
      Some (Colors.ANSI.brightYellow ++ (c :: w) ++ Colors.ANSI.reset)
  | _ => None
  end.

(** [createHookOutput] *)
Definition createHookOutput (display : StatuslineDisplay)
  (tokenUsage : TokenUsage) (eventName : jsstring) : HookOutput :=
  let contextText := formatStatuslineForContext display in
  let warning := getWarningSystemMessage tokenUsage in
  {| hookEventName := eventName;
     additionalContext :=
       if Formatters.nonempty contextText then Some contextText else None;
     systemMessage :=
       match warning with
       | Some (c :: w) => Some (c :: w)
       | _ => None
       end |}.

(** [ICONS] and [ASCII_ICONS] of types.ts; the first two glyphs of [ICONS]
    are empty strings in the source. *)
Record IconSet := {
  branch_icon : jsstring;
  folder_icon : jsstring;
  git_dirty : jsstring;
  git_staged : jsstring;
  git_ahead : jsstring;
  git_behind : jsstring;
  insertion : jsstring;
  deletion : jsstring;
  modification : jsstring;
  separator : jsstring
}.

Definition ICONS : IconSet :=
  {| branch_icon := []; folder_icon := [];
     git_dirty := js "*"; git_staged := js "+";
     git_ahead := [8593%N]; git_behind := [8595%N];
     insertion := js "+"; deletion := js "-"; modification := js "~";
     separator := js "|" |}.

Definition ASCII_ICONS : IconSet :=
  {| branch_icon := js "B:"; folder_icon := js "D:";
     git_dirty := js "*"; git_staged := js "+";
     git_ahead := js "^"; git_behind := js "v";
     insertion := js "+"; deletion := js "-"; modification := js "~";
     separator := js "|" |}.

Section Build.

(** [renderProgressBar(createProgressBar(percentage, width, showIcons),
    showIcons, true)]: progress.ts is not among the sources; the call
    returns a text or throws. *)
Variable progressBarOf : Z -> Z -> bool -> option jsstring.

(** [buildStatusline] *)
Definition buildStatusline (gitInfo : Git.GitInfo)
  (fileStats : Git.FileStats) (tokenUsage : TokenUsage)
  (config : Config.StatuslineConfig) : option StatuslineDisplay :=
  let icons := if Config.showIcons config then ICONS else ASCII_ICONS in
  let branch :=
    if Formatters.nonempty (Git.branch gitInfo)
    then branch_icon icons ++ js " "
         ++ Git.formatBranch (Git.branch gitInfo) (Git.dirty gitInfo)
    else [] in
  let path :=
    if Formatters.nonempty (Git.relativePath gitInfo)
    then folder_icon icons ++ js " "
         ++ Git.formatPath (Git.relativePath gitInfo)
    else [] in
  progressBar <-
    progressBarOf (percentage tokenUsage) (Config.progressBarWidth config)
      (Config.showIcons config) ;;
  let tokenInfo := formatTokenUsage tokenUsage in
  let fileStatsParts :=
    (if (0 <? Git.insertions fileStats)%Z
     then [insertion icons ++ Number_toString (Git.insertions fileStats)]
     else [])
    ++ (if (0 <? Git.deletions fileStats)%Z
        then [deletion icons ++ Number_toString (Git.deletions fileStats)]
        else [])
    ++ (if (0 <? Git.modifications fileStats)%Z
        then [modification icons
              ++ Number_toString (Git.modifications fileStats)]
        else []) in
  let fileStatsStr :=
    if (0 <? length fileStatsParts)%nat
    then Array_join fileStatsParts (js " ")
    else [] in
  let parts :=
    filter Formatters.nonempty [branch; path; progressBar; tokenInfo] in
  let full := Array_join parts (js "  ") in
  Some {| branch := branch;
          path := path;
          progressBar := progressBar;
          tokenInfo := tokenInfo;
          fileStats := fileStatsStr;
          full := full |}.

End Build.

(** [formatStatuslineForSystemMessage] *)
Definition formatStatuslineForSystemMessage (display : StatuslineDisplay)
  : jsstring :=
  let parts :=
    (if Formatters.nonempty (branch display)
     then [js "Branch: " ++ branch display] else [])
    ++ (if Formatters.nonempty (path display)
        then [js "Path: " ++ path display] else [])
    ++ [js "Context: " ++ tokenInfo display]
    ++ (if Formatters.nonempty (fileStats display)
        then [js "Changes: " ++ fileStats display] else []) in
  Array_join parts (js " | ").

(** [formatCompactStatusline]; [icons] is computed and not used. *)
Definition formatCompactStatusline (gitInfo : Git.GitInfo)
  (tokenUsage : TokenUsage) (config : Config.StatuslineConfig) : jsstring :=
  let icons := if Config.showIcons config then ICONS else ASCII_ICONS in
  let parts :=
    (if Formatters.nonempty (Git.branch gitInfo)
     then [Git.branch gitInfo] else [])
    ++ (if Formatters.nonempty (Git.relativePath gitInfo)
           && negb (jsstring_eqb (Git.relativePath gitInfo) (js "."))
        then [Git.relativePath gitInfo] else [])
    ++ [Number_toString (percentage tokenUsage) ++ js "%"] in
  Array_join parts (js "  ").

End Display.

(* ===================================================================== *)
(** * The entry points: src/index.ts and the two hooks *)
(* ===================================================================== *)

Module Entry.
Import Config Display.

Record JsError := {
  name : jsstring;
  message : jsstring
}.

(** [String(error)] of an [Error] object. *)
Definition error_text (e : JsError) : jsstring :=
  name e ++ js ": " ++ message e.

Inductive result (A : Type) : Type :=
| Ok (a : A)
| Throw (e : JsError).
Arguments Ok {A} a.
Arguments Throw {A} e.

(** What the process has written: [O] is what one write to standard output
    carries (a line of text, or the object a hook serializes). *)
Record Streams (O : Type) := {
  stdout : list O;
  stderr : list jsstring
}.

Definition no_output {O : Type} : Streams O :=
  {| stdout := []; stderr := [] |}.

(** Computations that write to the streams and may throw. *)
Definition M (O A : Type) : Type := Streams O -> result A * Streams O.

Definition ret {O A : Type} (a : A) : M O A := fun w => (Ok a, w).

Definition bind {O A B : Type} (m : M O A) (f : A -> M O B) : M O B :=
  fun w =>
    match m w with
    | (Ok a, w') => f a w'
    | (Throw e, w') => (Throw e, w')
    end.

(** A call into code that writes nothing. *)
Definition call {O A : Type} (r : result A) : M O A := fun w => (r, w).

Definition try_catch {O A : Type} (body : M O A) (handler : JsError -> M O A)
  : M O A :=
  fun w =>
    match body w with
    | (Ok a, w') => (Ok a, w')
    | (Throw e, w') => handler e w'
    end.

Definition write_stdout {O : Type} (x : O) : M O unit :=
  fun w => (Ok tt, {| stdout := stdout w ++ [x]; stderr := stderr w |}).

Definition console_error {O : Type} (line : jsstring) : M O unit :=
  fun w => (Ok tt, {| stdout := stdout w; stderr := stderr w ++ [line] |}).

Record Exit (O : Type) := {
  streams : Streams O;
  exitCode : Z
}.

Notation "x <-- m ;;; k" := (bind m (fun x => k))
  (at level 100, m at next level, right associativity).
Notation "m ;;; k" := (bind m (fun _ => k))
  (at level 100, right associativity).

(** ** src/index.ts *)
Section Native.

(** The configuration of the native renderer, as far as [main] reads
    it. *)
Record NativeConfig := { oneLine : bool }.

(** [loadConfigSync] of lib/config.js, and lines 154 to 222 of [main]:
    the probes and [renderStatuslineRaw] of lib/render.js.  Those files
    are not among the sources; each is a call that writes nothing and
    either returns or throws. *)
Variable loadConfigSync : result NativeConfig.
Variable render : NativeConfig -> result jsstring.

Definition native_main : M jsstring unit :=
  config <-- call loadConfigSync ;;;
  output <-- call (render config) ;;;
  write_stdout output ;;;
  if negb (oneLine config) then write_stdout [] else ret tt.

(** [main().catch(...)]: the handler logs the message and calls
    [process.exit(1)]. *)
Definition native_run : Exit jsstring :=
  match native_main no_output with
  | (Ok _, w) => {| streams := w; exitCode := 0 |}
  | (Throw e, w) =>
      {| streams :=
           {| stdout := stdout w;
              stderr := stderr w ++ [js "Error: " ++ message e] |};
         exitCode := 1 |}
  end.

End Native.

(** ** hooks/session-start.ts and hooks/user-prompt-submit.ts *)
Section Hook.

Record HookInput := {
  eventName : option jsstring;
  conversation_summary : option jsstring;
  working_directory : option jsstring;
  model : option jsstring
}.

(** The event name of the hook: [SessionStart] or [UserPromptSubmit]. *)
Variable hookName : jsstring.
Variable process : Process.
(** [readInput], and the part of [main] from the git probes to
    [buildStatusline] (progress.ts and the git commands are not among the
    sources), then [formatCompactStatusline]: calls that write nothing
    and either return or throw. *)
Variable readInput : result HookInput.
Variable buildStatusline :
  HookInput -> TokenUsage -> StatuslineConfig -> result StatuslineDisplay.
Variable formatCompactStatusline :
  HookInput -> TokenUsage -> StatuslineConfig -> result jsstring.

(** The constants [eventName], [config] and [tokenUsage] that [main]
    computes from its input. *)
Definition eventNameOf (input : HookInput) : jsstring :=
  if truthy (eventName input) then or_empty (eventName input)
  else hookName.

Definition configOf (input : HookInput) : StatuslineConfig :=
  let config := loadConfig process in
  if truthy (model input)
  then updateConfigForModel config (or_empty (model input))
  else config.

Definition tokenUsageOf (input : HookInput) : TokenUsage :=
  calculateTokenUsage (conversation_summary input)
    (maxTokens (configOf input)).

Definition hook_body : M HookOutput unit :=
  input <-- call readInput ;;;
  let eventName := eventNameOf input in
  let config := configOf input in
  let tokenUsage := tokenUsageOf input in
  display <-- call (buildStatusline input tokenUsage config) ;;;
  let output := createHookOutput display tokenUsage eventName in
  write_stdout output ;;;
  compact <-- call (formatCompactStatusline input tokenUsage config) ;;;
  console_error (js "[Statusline] " ++ compact).

Definition minimal_output : HookOutput :=
  {| hookEventName := hookName;
     additionalContext := None;
     systemMessage := None |}.

Definition hook_main : M HookOutput unit :=
  try_catch hook_body
    (fun error =>
       console_error (js "[Statusline] Error: " ++ error_text error) ;;;
       write_stdout minimal_output).

(** [await main()] at the top level: the process ends with code 0, or
    with code 1 when [main] rejects. *)
Definition hook_run : Exit HookOutput :=
  match hook_main no_output with
  | (Ok _, w) => {| streams := w; exitCode := 0 |}
  | (Throw _, w) => {| streams := w; exitCode := 1 |}
  end.

End Hook.

(** ** The payload context window of [main] in src/index.ts *)

(** [input.context_window.current_usage]; an absent field is [None]. *)
Record CurrentUsage := {
  input_tokens : option Z;
  cache_creation_input_tokens : option Z;
  cache_read_input_tokens : option Z
}.

(** [x || d] on a number or [undefined]. *)
Definition number_or (x : option Z) (d : Z) : Z :=
  match x with
  | Some 0%Z => d
  | Some z => z
  | None => d
  end.

Record PayloadContext := {
  contextTokens : Z;
  contextPercentage : Z
}.

(** Lines 181 to 190 of [main]; the statements take a window that is not
    0. *)
Definition payloadContext (currentUsage : CurrentUsage)
  (context_window_size : option Z) (maxContextTokens : Z) : PayloadContext :=
  let contextTokens :=
    (number_or (input_tokens currentUsage) 0
     + number_or (cache_creation_input_tokens currentUsage) 0
     + number_or (cache_read_input_tokens currentUsage) 0)%Z in
  let maxTokens := number_or context_window_size maxContextTokens in
  {| contextTokens := contextTokens;
     contextPercentage :=
       Z.min 100
         (Math_round
            (product (quotient (inject_Z contextTokens) (inject_Z maxTokens))
               100)) |}.

End Entry.

(* ===================================================================== *)
(** * src/lib/git.ts *)
(* ===================================================================== *)

Module NativeGit.

(** A JavaScript number that can be [NaN] ([None]). *)
Definition number := option Z.

Definition plus (x y : number) : number :=
  match x, y with
  | Some a, Some b => Some (a + b)%Z
  | _, _ => None
  end.

Record Stats := {
  added : number;
  deleted : number
}.

Record Counts := {
  added_lines : number;
  deleted_lines : number;
  files : Z
}.

Record GitStatus := {
  branch : jsstring;
  hasChanges : bool;
  staged : Counts;
  unstaged : Counts
}.

(** [parseInt(n, 10) || 0] *)
Definition parsed_or_zero (n : jsstring) : Z :=
  match parseInt n with
  | Some z => z
  | None => 0%Z
  end.

(** [const [a, d] = columns]: an element the array does not have is
    [undefined], and adding it gives [NaN]. *)
Definition element (columns : list Z) (i : nat) : number :=
  nth_error columns i.

Definition is_newline (c : N) : bool := (c =? 10)%N.
Definition is_tab (c : N) : bool := (c =? 9)%N.

(** The body of the loop of [parseStats]. *)
Definition parseStats_line (acc : Stats) (line : jsstring) : Stats :=
  if Formatters.nonempty (String_trim line) then
    let columns := map parsed_or_zero (String_split is_tab line) in
    {| added := plus (added acc) (element columns 0);
       deleted := plus (deleted acc) (element columns 1) |}
  else acc.

(** [parseStats] *)
Definition parseStats (diff : jsstring) : Stats :=
  fold_left parseStats_line (String_split is_newline diff)
    {| added := Some 0%Z; deleted := Some 0%Z |}.

(** [countFiles] *)
Definition countFiles (diff : jsstring) : Z :=
  Z.of_nat
    (length (filter (fun f => Formatters.nonempty (String_trim f))
               (String_split is_newline diff))).

(** What the git commands of [getGitStatusSync] gave: the exit codes of
    the three [execGitQuiet] calls and the trimmed outputs of the [execGit]
    calls, empty when the command failed. *)
Record Commands := {
  gitDirCheck : Z;
  branchResult : jsstring;
  diffCheck : Z;
  cachedCheck : Z;
  unstagedDiff : jsstring;
  stagedDiff : jsstring;
  stagedFilesResult : jsstring;
  unstagedFilesResult : jsstring
}.

Definition no_counts : Counts :=
  {| added_lines := Some 0%Z; deleted_lines := Some 0%Z; files := 0 |}.

(** [getGitBranch] *)
Definition getGitBranch (c : Commands) : jsstring :=
  if Formatters.nonempty (branchResult c) then branchResult c
  else js "detached".

(** [hasChanges] *)
Definition hasChangesOf (c : Commands) : bool :=
  negb (diffCheck c =? 0)%Z || negb (cachedCheck c =? 0)%Z.

(** [getGitStatusSync] *)
Definition getGitStatusSync (c : Commands) : GitStatus :=
  if negb (gitDirCheck c =? 0)%Z then
    {| branch := js "no-git"; hasChanges := false;
       staged := no_counts; unstaged := no_counts |}
  else
    let branch := getGitBranch c in
    let dirty := hasChangesOf c in
    if negb dirty then
      {| branch := branch; hasChanges := false;
         staged := no_counts; unstaged := no_counts |}
    else
      let unstagedStats := parseStats (unstagedDiff c) in
      let stagedStats := parseStats (stagedDiff c) in
      let stagedFilesCount := countFiles (stagedFilesResult c) in
      let unstagedFilesCount := countFiles (unstagedFilesResult c) in
      {| branch := branch;
         hasChanges := true;
         staged := {| added_lines := added stagedStats;
                      deleted_lines := deleted stagedStats;
                      files := stagedFilesCount |};
         unstaged := {| added_lines := added unstagedStats;
                        deleted_lines := deleted unstagedStats;
                        files := unstagedFilesCount |} |}.

End NativeGit.

(* ===================================================================== *)
(** * hooks/session-start.mjs and hooks/user-prompt-submit.mjs *)
(* ===================================================================== *)

Module HookScripts.
Import stdpp.base stdpp.gmap stdpp.strings.

(** [getTokenUsage]; [summary] is [input?.conversation_summary]. *)
Definition getTokenUsage (summary : option jsstring) (maxTokens : Z)
  : TokenUsage :=
  let summary := or_empty summary in
  let estimated := Math_ceil (inject_Z (Z.of_nat (length summary)) / 4) in
  let current := Z.min estimated maxTokens in
  {| Token.current := current;
     Token.max := maxTokens;
     Token.percentage :=
       Math_round
         (product (quotient (inject_Z current) (inject_Z maxTokens)) 100) |}.

(** [getProgressBar] *)
Definition getProgressBar (percentage : Z) (width : Z) : option jsstring :=
  let filled :=
    Math_round (product (quotient (inject_Z percentage) 100) (inject_Z width))
  in
  let empty := (width - filled)%Z in
  filledBar <- String_repeat [Formatters.FULL_BLOCK] filled ;;
  emptyBar <- String_repeat [Formatters.LIGHT_SHADE] empty ;;
  let bar := filledBar ++ emptyBar in
  let color :=
    if (75 <=? percentage)%Z then Colors.sgr "91"
    else if (25 <=? percentage)%Z then Colors.sgr "93"
    else Colors.sgr "92" in
  Some (color ++ js "[" ++ bar ++ js "]" ++ Colors.sgr "0").

(** The values the object of [getGitInfo] holds. *)
Inductive value : Type :=
| VString (s : jsstring)
| VBoolean (b : bool).

Definition object := gmap string value.

(** The two objects [getGitInfo] can return. *)
Definition gitInfoOf (branch root relative : jsstring) (dirty : bool)
  : object :=
  <["branch" := VString branch]>
    (<["root" := VString root]>
       (<["relative" := VString relative]>
          (<["dirty" := VBoolean dirty]> empty))).

Definition gitInfoFallback : object :=
  gitInfoOf [] (js ".") (js ".") false.

(** Truthiness, and the text of a property in a template literal; a
    missing property is [undefined]. *)
Definition truthy (x : option value) : bool :=
  match x with
  | Some (VString (_ :: _)) => true
  | Some (VBoolean true) => true
  | _ => false
  end.

Definition text (x : option value) : jsstring :=
  match x with
  | Some (VString s) => s
  | Some (VBoolean true) => js "true"
  | Some (VBoolean false) => js "false"
  | None => js "undefined"
  end.

Definition is_dot (x : option value) : bool :=
  match x with
  | Some (VString s) => jsstring_eqb s (js ".")
  | _ => false
  end.

(** The three texts [main] reads from [gitInfo]; [noBranch] is the
    fallback of the branch, [no-git] in session-start.mjs and the empty
    string in user-prompt-submit.mjs. *)
Definition branchText (gitInfo : object) (noBranch : jsstring) : jsstring :=
  if truthy (gitInfo !! "branch") then text (gitInfo !! "branch")
  else noBranch.

Definition dirtyText (gitInfo : object) : jsstring :=
  if truthy (gitInfo !! "dirty") then js "*" else [].

Definition relativePathText (gitInfo : object) : jsstring :=
  if is_dot (gitInfo !! "relativePath") then js "~"
  else js "~/" ++ text (gitInfo !! "relativePath").

(** [tokenCount] and [maxToken] of [main]. *)
Definition tokenCount (tokenUsage : TokenUsage) : jsstring :=
  if (1000 <=? current tokenUsage)%Z
  then Number_toFixed (quotient (inject_Z (current tokenUsage)) 1000) 0
       ++ js "K"
  else Number_toString (current tokenUsage).

Definition maxToken (tokenUsage : TokenUsage) : jsstring :=
  if (1000000 <=? Token.max tokenUsage)%Z
  then Number_toFixed (quotient (inject_Z (Token.max tokenUsage)) 1000000) 1
       ++ js "M"
  else Number_toFixed (quotient (inject_Z (Token.max tokenUsage)) 1000) 0
       ++ js "K".

(** The [statusline] of user-prompt-submit.mjs, from the object of
    [getGitInfo] and the summary of the input; session-start.mjs puts the
    same text between two escape sequences and after a pictograph. *)
Definition statusline (gitInfo : object) (noBranch : jsstring)
  (summary : option jsstring) : option jsstring :=
  let tokenUsage := getTokenUsage summary 200000 in
  progressBar <- getProgressBar (percentage tokenUsage) 20 ;;
  Some (branchText gitInfo noBranch ++ dirtyText gitInfo ++ js "  "
        ++ relativePathText gitInfo ++ js "  " ++ progressBar ++ js "  "
        ++ Number_toString (percentage tokenUsage) ++ js "% ("
        ++ tokenCount tokenUsage ++ js "/" ++ maxToken tokenUsage
        ++ js ")").

End HookScripts.

(* ===================================================================== *)
(** * Reference definitions *)
(* ===================================================================== *)

(** What the statements below are phrased with: the language of a pattern,
    and the notions of the specification written out from its words. *)

Unset Implicit Arguments.

Module RegExpLang.

(** The words a pattern denotes; an iteration of [Star] is never empty, as
    in the matcher. *)
Inductive star_lang (L : jsstring -> Prop) : jsstring -> Prop :=
| star_nil : star_lang L []
| star_more a b : a <> [] -> L a -> star_lang L b -> star_lang L (a ++ b).

Fixpoint lang (ic : bool) (r : regex) : jsstring -> Prop :=
  match r with
  | Empty => fun a => a = []
  | Char c => fun a => exists x, a = [x] /\ char_match ic x c = true
  | Class p => fun a => exists x, a = [x] /\ p x = true
  | Seq r1 r2 => fun a => exists a1 a2, a = a1 ++ a2 /\ lang ic r1 a1 /\ lang ic r2 a2
  | Alt r1 r2 => fun a => lang ic r1 a \/ lang ic r2 a
  | Star r1 => star_lang (lang ic r1)
  | Group r1 => lang ic r1
  end.

Fixpoint nogroup (r : regex) : bool :=
  match r with
  | Empty | Char _ | Class _ => true
  | Seq r1 r2 | Alt r1 r2 => nogroup r1 && nogroup r2
  | Star r1 => nogroup r1
  | Group _ => false
  end.

(** What a successful run of the matcher means: a prefix in the language
    was consumed and the continuation succeeded on the rest. *)
Definition sound_for {R : Type} (ic : bool) (r : regex) : Prop :=
  forall s cap (k : jsstring -> option jsstring -> option R) x,
    mtch ic r s cap k = Some x ->
    exists a s' cap',
      s = a ++ s' /\ lang ic r a /\ k s' cap' = Some x /\
      (nogroup r = true -> cap' = cap).

(** A word of the language followed by input on which the continuation
    succeeds makes the matcher succeed. *)
Definition complete_for {R : Type} (ic : bool) (r : regex) : Prop :=
  forall a, lang ic r a ->
  forall s' cap (k : jsstring -> option jsstring -> option R),
    (forall c, k s' c <> None) ->
    mtch ic r (a ++ s') cap k <> None.

End RegExpLang.
Import RegExpLang.

Module TokenSpec.

(** Every run of white space becomes one space: a white-space character
    followed by another one is dropped, the last one of a run is replaced
    by a space. *)
Fixpoint collapse_whitespace (s : jsstring) : jsstring :=
  match s with
  | [] => []
  | c :: t =>
      if is_whitespace c then
        match t with
        | c' :: _ => if is_whitespace c' then collapse_whitespace t
                     else 32%N :: collapse_whitespace t
        | [] => [32%N]
        end
      else c :: collapse_whitespace t
  end.

(** The estimate of the specification: the length of the collapsed and
    trimmed text, divided by four, rounded up. *)
Definition estimate_spec (s : jsstring) : Z :=
  Qceiling (inject_Z (Z.of_nat (length (String_trim (collapse_whitespace s)))) / 4).

Definition digit_run (d : jsstring) : Prop :=
  d <> [] /\ forallb is_digit d = true.

(** A decimal number with optional comma grouping: a run of digits, then
    any number of groups made of a comma and a run of digits. *)
Definition grouped_number (num : jsstring) : Prop :=
  exists d gs,
    digit_run d /\ Forall digit_run gs /\
    num = d ++ concat (map (cons 44%N) gs).

Definition same_letters (w : jsstring) (word : string) : Prop :=
  map canonicalize w = map canonicalize (js word).

(** The word token or tokens, in any letter case. *)
Definition token_word (w : jsstring) : Prop :=
  same_letters w "token" \/ same_letters w "tokens".

Definition whitespace_run (ws : jsstring) : Prop :=
  forallb is_whitespace ws = true.

(** [s] holds, after [pre], the number [num] followed by the word (white
    space may stand between them, as between any two words). *)
Definition token_occurrence (s pre num : jsstring) : Prop :=
  exists ws w post,
    s = pre ++ num ++ ws ++ w ++ post /\
    grouped_number num /\ whitespace_run ws /\ token_word w.

Definition remove_commas (num : jsstring) : jsstring :=
  filter (fun c => negb (c =? 44)%N) num.

(** The number a grouped number denotes. *)
Definition decimal_value (num : jsstring) : Z :=
  digits_value (remove_commas num).

(** The characters a grouped number is made of. *)
Definition is_digit_or_comma (c : N) : bool := is_digit c || (c =? 44)%N.

End TokenSpec.
Import TokenSpec.

Module BarSpec.
Import Colors Formatters Display.

(** An escape sequence that [ansi_codes] matches. *)
Definition is_sgr (code : jsstring) : Prop :=
  exists body, forallb ansi_body body = true /\
               code = 27%N :: 91%N :: body ++ [109%N].

(** A colour function: an escape sequence in front, [reset] behind. *)
Definition is_wrapper (f : ColorFunction) : Prop :=
  exists code, is_sgr code /\ forall x, f x = code ++ x ++ ANSI.reset.

(** The glyphs a bar of each style is made of at its two ends; a style
    other than rectangle and braille is drawn as filled. *)
Definition emptyGlyph (style : jsstring) : N :=
  if jsstring_eqb style (js "rectangle") then WHITE_PARALLELOGRAM
  else if jsstring_eqb style (js "braille") then BRAILLE_EMPTY
  else LIGHT_SHADE.

Definition filledGlyph (style : jsstring) : N :=
  if jsstring_eqb style (js "rectangle") then BLACK_PARALLELOGRAM
  else if jsstring_eqb style (js "braille") then BRAILLE_FULL
  else FULL_BLOCK.

End BarSpec.
Import BarSpec.

Module ConfigSpec.
Import Config.
Import stdpp.base stdpp.gmap stdpp.strings.

(** A process on Linux with one environment variable set. *)
Definition process_with (key : string) (value : jsstring) : Process :=
  {| env := {[ key := value ]}; platform := js "linux" |}.

End ConfigSpec.
Import ConfigSpec.

Module AnsiSpec.
Import Colors.

(** A run of at most four digits. *)
Definition short_digits (g : jsstring) : bool :=
  forallb is_digit g && (length g <=? 4)%nat.

(** The parameter lists of the colour codes: between semicolons, runs of at
    most four digits, the first one not empty. *)
Definition sgr_parameters (body : jsstring) : bool :=
  match String_split (fun c => (c =? 59)%N) body with
  | g :: gs =>
      negb (length g =? 0)%nat && short_digits g && forallb short_digits gs
  | [] => false
  end.

(** A text without the two characters that start an escape sequence. *)
Definition plain_text (text : jsstring) : Prop :=
  forallb (fun c => negb (ansi_introducer c)) text = true.

End AnsiSpec.
Import AnsiSpec.

Module NumstatSpec.

(** One line of [git diff --numstat]: the added lines, the deleted lines
    and the path, tabs in between; a binary file has a dash for each of
    the two counts ([None]). *)
Definition count_text (n : option Z) : jsstring :=
  match n with
  | Some z => Number_toString z
  | None => js "-"
  end.

Definition count_value (n : option Z) : Z :=
  match n with
  | Some z => z
  | None => 0%Z
  end.

Definition numstat_line (e : option Z * option Z * jsstring) : jsstring :=
  let '(a, d, name) := e in
  count_text a ++ [9%N] ++ count_text d ++ [9%N] ++ name.

Definition numstat (entries : list (option Z * option Z * jsstring))
  : jsstring :=
  Array_join (map numstat_line entries) [10%N].

Definition counted (n : option Z) : Prop :=
  match n with
  | Some z => (0 <= z)%Z
  | None => True
  end.

Definition one_line (name : jsstring) : Prop :=
  forallb (fun c => negb (c =? 10)%N) name = true.

Definition numstat_entry (e : option Z * option Z * jsstring) : Prop :=
  let '(a, d, name) := e in counted a /\ counted d /\ one_line name.

Definition sum (l : list Z) : Z := fold_right Z.add 0%Z l.

(** Backslashes turned into slashes. *)
Definition forward_slashes (s : jsstring) : jsstring :=
  map (fun c => if (c =? 92)%N then 47%N else c) s.

End NumstatSpec.
Import NumstatSpec.

Module ShortstatSpec.

(** What [git diff --shortstat] prints, trimmed: the number of files, then
    the insertions and the deletions, each left out when its count is 0,
    each word in the singular for a count of 1. *)
Definition plural (n : Z) (word : string) : jsstring :=
  if (n =? 1)%Z then js word else js word ++ js "s".

Definition files_part (f : Z) : jsstring :=
  Number_toString f ++ js " " ++ plural f "file" ++ js " changed".

Definition count_part (n : Z) (word sign : string) : jsstring :=
  if (n =? 0)%Z then []
  else js ", " ++ Number_toString n ++ js " " ++ plural n word ++ js sign.

Definition shortstat (f i d : Z) : jsstring :=
  files_part f ++ count_part i "insertion" "(+)"
  ++ count_part d "deletion" "(-)".

End ShortstatSpec.
Import ShortstatSpec.




(** Checks over a range of integers, decided by evaluation. *)
Module RangeCheck.

(** [P] holds from [lo] to [hi]. *)
Definition all_between (lo hi : Z) (P : Z -> bool) : bool :=
  forallb (fun n => P (lo + Z.of_nat n)%Z) (seq 0 (Z.to_nat (hi - lo + 1))).

(** [x] is the number [y]. *)
Definition same (x : option Z) (y : Z) : bool :=
  match x with
  | Some z => (z =? y)%Z
  | None => false
  end.

(** A count of filled glyphs that [repeat] rejects on a bar of [len]
    glyphs. *)
Definition out_of_range (filled len : Z) : bool :=
  ((filled <? 0) || (len <? filled))%Z.

End RangeCheck.
Import RangeCheck.

(* ===================================================================== *)
(** * Binary64 rounding *)
(* ===================================================================== *)

Module RoundingFacts.


Lemma round_half_even_comp (x y : Q) :
  x == y -> round_half_even x = round_half_even y.
Proof.
  intros H. unfold round_half_even.
  rewrite (Qfloor_comp _ _ H).
  assert (E : (x - inject_Z (Qfloor y) ?= 1 # 2)
              = (y - inject_Z (Qfloor y) ?= 1 # 2)) by now rewrite H.
  now rewrite E.
Qed.

Lemma round_half_even_Z (n : Z) : round_half_even (inject_Z n) = n.
Proof.
  unfold round_half_even. rewrite Qfloor_Z.
  destruct (Qcompare_spec (inject_Z n - inject_Z n) (1 # 2)) as [H|H|H];
    try reflexivity; exfalso; lra.
Qed.

Lemma round_half_even_bounds (x : Q) :
  (Qfloor x <= round_half_even x <= Qfloor x + 1)%Z.
Proof.
  unfold round_half_even.
  destruct (x - inject_Z (Qfloor x) ?= 1 # 2);
    try destruct (Z.even (Qfloor x)); lia.
Qed.

Lemma round_half_even_le (x y : Q) :
  x <= y -> (round_half_even x <= round_half_even y)%Z.
Proof.
  intros H.
  pose proof (Qfloor_resp_le _ _ H) as Hf.
  destruct (Z.eq_dec (Qfloor x) (Qfloor y)) as [E|E].
  - unfold round_half_even. rewrite E.
    destruct (Qcompare_spec (x - inject_Z (Qfloor y)) (1 # 2)) as [Hx|Hx|Hx];
      destruct (Qcompare_spec (y - inject_Z (Qfloor y)) (1 # 2)) as [Hy|Hy|Hy];
      try destruct (Z.even (Qfloor y)); try lia; exfalso; lra.
  - pose proof (round_half_even_bounds x). pose proof (round_half_even_bounds y).
    lia.
Qed.

Lemma round_half_even_error (x : Q) :
  x - (1 # 2) <= inject_Z (round_half_even x) <= x + (1 # 2).
Proof.
  pose proof (Qfloor_le x) as Hl. pose proof (Qlt_floor x) as Hu.
  rewrite inject_Z_plus in Hu. change (inject_Z 1) with 1 in Hu.
  unfold round_half_even.
  destruct (Qcompare_spec (x - inject_Z (Qfloor x)) (1 # 2)) as [H|H|H];
    try destruct (Z.even (Qfloor x)); rewrite ?inject_Z_plus;
    change (inject_Z 1) with 1; lra.
Qed.

Lemma pow2_Z (e : Z) : (0 <= e)%Z -> 2 ^ e == inject_Z (2 ^ e).
Proof. intros H. symmetry. now apply (Zpower_Qpower 2 e). Qed.

Lemma pow2_pos (e : Z) : 0 < 2 ^ e.
Proof. apply Qpower_0_lt. reflexivity. Qed.

Lemma pow2_Z_pos (e : Z) : (0 <= e)%Z -> 0 < inject_Z (2 ^ e).
Proof. intros H. rewrite <- pow2_Z by exact H. apply pow2_pos. Qed.

Lemma exponent_comp (x y : Q) : x == y -> exponent x = exponent y.
Proof.
  intros H. unfold exponent.
  assert (E : Qle_bool 1 x = Qle_bool 1 y) by now rewrite H.
  rewrite E, (Qfloor_comp _ _ H).
  assert (I : / x == / y) by now rewrite H.
  now rewrite (Qceiling_comp _ _ I).
Qed.

Lemma exponent_spec (x : Q) :
  0 < x -> 2 ^ exponent x <= x /\ x < 2 ^ (exponent x + 1).
Proof.
  intros Hx. unfold exponent.
  destruct (Qle_bool 1 x) eqn:E.
  - apply Qle_bool_iff in E.
    assert (Hn : (0 < Qfloor x)%Z).
    { change 1 with (inject_Z 1) in E. apply Qfloor_resp_le in E.
      rewrite Qfloor_Z in E. lia. }
    destruct (Z.log2_spec _ Hn) as [Hl Hu].
    pose proof (Z.log2_nonneg (Qfloor x)) as Hp.
    rewrite !pow2_Z by lia. split.
    + apply Qle_trans with (inject_Z (Qfloor x)); [|apply Qfloor_le].
      rewrite <- Zle_Qle. exact Hl.
    + apply Qlt_le_trans with (inject_Z (Qfloor x + 1)); [apply Qlt_floor|].
      rewrite <- Zle_Qle. unfold Z.succ in Hu. lia.
  - assert (Hx1 : x < 1).
    { apply Qnot_le_lt. intros H. apply Qle_bool_iff in H. congruence. }
    clear E.
    set (y := / x). set (c := Qceiling y).
    assert (Hxy : x * y == 1).
    { unfold y. field. intros H. rewrite H in Hx. discriminate. }
    assert (Hy : 1 < y).
    { apply Qnot_le_lt. intros H.
      assert (x * y <= x * 1) by (apply Qmult_le_l; assumption). lra. }
    pose proof (Qle_ceiling y) as Hc1. pose proof (Qceiling_lt y) as Hc2.
    fold c in Hc1, Hc2.
    assert (Hc : (1 < c)%Z).
    { apply Z.lt_nge. intros H. rewrite Zle_Qle in H.
      change (inject_Z 1) with 1 in H. lra. }
    destruct (Z.log2_up_spec _ Hc) as [Hl Hu].
    assert (Hup : (0 < Z.log2_up c)%Z) by (apply Z.log2_up_pos; exact Hc).
    set (u := Z.log2_up c) in *.
    split.
    + rewrite Qpower_opp, pow2_Z by lia.
      apply Qle_shift_inv_r; [apply pow2_Z_pos; lia|].
      rewrite Zle_Qle in Hu.
      assert (x * y <= x * inject_Z (2 ^ u)).
      { apply Qmult_le_l; [exact Hx|]. lra. }
      lra.
    + replace (- u + 1)%Z with (- (u - 1))%Z by lia.
      rewrite Qpower_opp, pow2_Z by lia.
      apply Qlt_shift_inv_l; [apply pow2_Z_pos; lia|].
      assert (Hl' : (2 ^ (u - 1) <= c - 1)%Z).
      { replace (Z.pred u) with (u - 1)%Z in Hl by lia. lia. }
      rewrite Zle_Qle in Hl'.
      assert (x * inject_Z (2 ^ (u - 1)) < x * y).
      { apply Qmult_lt_l; [exact Hx|]. lra. }
      lra.
Qed.

Lemma exponent_unique (x : Q) (e : Z) :
  2 ^ e <= x -> x < 2 ^ (e + 1) -> exponent x = e.
Proof.
  intros H1 H2.
  assert (Hx : 0 < x) by (pose proof (pow2_pos e); lra).
  destruct (exponent_spec x Hx) as [S1 S2].
  assert (A : (exponent x < e + 1)%Z).
  { apply (Qpower_lt_compat_l_inv 2); [lra|reflexivity]. }
  assert (B : (e < exponent x + 1)%Z).
  { apply (Qpower_lt_compat_l_inv 2); [lra|reflexivity]. }
  lia.
Qed.

Lemma exponent_le (x y : Q) :
  0 < x -> x <= y -> (exponent x <= exponent y)%Z.
Proof.
  intros Hx Hxy.
  destruct (exponent_spec x Hx) as [S1 _].
  destruct (exponent_spec y) as [_ T2]; [lra|].
  assert (A : (exponent x < exponent y + 1)%Z).
  { apply (Qpower_lt_compat_l_inv 2); [lra|reflexivity]. }
  lia.
Qed.

Lemma nearest_rounded_at (x : Q) : nearest x = rounded_at (fraction_bits x) x.
Proof. reflexivity. Qed.

Lemma fraction_bits_nonneg (x : Q) : (0 <= fraction_bits x)%Z.
Proof. unfold fraction_bits. lia. Qed.

Lemma fraction_bits_comp (x y : Q) :
  x == y -> fraction_bits x = fraction_bits y.
Proof. intros H. unfold fraction_bits. now rewrite (exponent_comp _ _ H). Qed.

Lemma rounded_at_comp (m : Z) (x y : Q) : x == y -> rounded_at m x == rounded_at m y.
Proof.
  intros H. unfold rounded_at; cbv zeta.
  rewrite (round_half_even_comp (x * inject_Z (2 ^ m)) (y * inject_Z (2 ^ m)));
    [reflexivity | now rewrite H].
Qed.

Lemma rounded_at_le (m : Z) (x y : Q) :
  (0 <= m)%Z -> x <= y -> rounded_at m x <= rounded_at m y.
Proof.
  intros Hm H. unfold rounded_at; cbv zeta.
  pose proof (pow2_Z_pos m Hm) as Hp.
  apply Qmult_le_compat_r; [|apply Qlt_le_weak, Qinv_lt_0_compat, Hp].
  rewrite <- Zle_Qle. apply round_half_even_le.
  apply Qmult_le_compat_r; [exact H | lra].
Qed.

Lemma rounded_at_fix (m n : Z) (x : Q) :
  (0 <= m)%Z -> x * inject_Z (2 ^ m) == inject_Z n -> rounded_at m x == x.
Proof.
  intros Hm H. unfold rounded_at; cbv zeta.
  pose proof (pow2_Z_pos m Hm) as Hp.
  rewrite (round_half_even_comp _ _ H), round_half_even_Z, <- H.
  field. lra.
Qed.

Lemma rounded_at_error (m : Z) (x : Q) :
  (0 <= m)%Z ->
  x - 1 / (2 * inject_Z (2 ^ m)) <= rounded_at m x <= x + 1 / (2 * inject_Z (2 ^ m)).
Proof.
  intros Hm. unfold rounded_at; cbv zeta.
  pose proof (pow2_Z_pos m Hm) as Hp.
  pose proof (round_half_even_error (x * inject_Z (2 ^ m))) as [H1 H2].
  set (s := inject_Z (2 ^ m)) in *.
  set (r := inject_Z (round_half_even (x * s))) in *.
  split.
  - apply Qle_shift_div_l; [exact Hp|].
    assert (E : (x - 1 / (2 * s)) * s == x * s - (1 # 2)) by (field; lra).
    rewrite E. exact H1.
  - apply Qle_shift_div_r; [exact Hp|].
    assert (E : (x + 1 / (2 * s)) * s == x * s + (1 # 2)) by (field; lra).
    rewrite E. exact H2.
Qed.

Lemma rounded_at_nonneg (m : Z) (x : Q) : (0 <= m)%Z -> 0 <= x -> 0 <= rounded_at m x.
Proof.
  intros Hm Hx.
  assert (E : rounded_at m 0 == 0).
  { apply (rounded_at_fix m 0); [exact Hm|]. ring. }
  rewrite <- E. now apply rounded_at_le.
Qed.

Lemma fraction_bits_antitone (x y : Q) :
  0 < x -> x <= y -> (fraction_bits y <= fraction_bits x)%Z.
Proof.
  intros Hx H. pose proof (exponent_le x y Hx H).
  unfold fraction_bits. lia.
Qed.

Lemma pow2_scaled (e m : Z) :
  (0 <= m)%Z -> (0 <= e + m)%Z ->
  2 ^ e * inject_Z (2 ^ m) == inject_Z (2 ^ (e + m)).
Proof.
  intros Hm He. rewrite <- !pow2_Z by lia.
  rewrite Qpower_plus; [reflexivity | discriminate].
Qed.

Lemma nearest_le (x y : Q) :
  0 < x -> x <= y -> nearest x <= nearest y.
Proof.
  intros Hx H. rewrite !nearest_rounded_at.
  pose proof (fraction_bits_antitone x y Hx H) as Ha.
  pose proof (fraction_bits_nonneg y) as Hy0.
  destruct (Z.eq_dec (fraction_bits x) (fraction_bits y)) as [E|E].
  - rewrite E. now apply rounded_at_le.
  - assert (Hy : 0 < y) by lra.
    destruct (exponent_spec x Hx) as [_ X2].
    destruct (exponent_spec y Hy) as [Y1 _].
    assert (He : (exponent x < exponent y)%Z).
    { unfold fraction_bits in Ha, E. pose proof (exponent_le x y Hx H). lia. }
    assert (Hb : (0 <= exponent y + fraction_bits y)%Z).
    { unfold fraction_bits in *. lia. }
    set (P := 2 ^ exponent y) in *.
    assert (HxP : x <= P).
    { apply Qlt_le_weak, Qlt_le_trans with (2 ^ (exponent x + 1));
        [exact X2|].
      apply Qpower_le_compat_l; [lia | discriminate]. }
    apply Qle_trans with (rounded_at (fraction_bits x) P);
      [apply rounded_at_le; [lia | exact HxP]|].
    rewrite (rounded_at_fix (fraction_bits x)
               (2 ^ (exponent y + fraction_bits x)) P)
      by (try lia; apply pow2_scaled; lia).
    rewrite <- (rounded_at_fix (fraction_bits y)
                  (2 ^ (exponent y + fraction_bits y)) P)
      by (try lia; apply pow2_scaled; lia).
    apply rounded_at_le; [lia | exact Y1].
Qed.

Lemma nearest_nonneg (x : Q) : 0 <= x -> 0 <= nearest x.
Proof.
  intros H. rewrite nearest_rounded_at.
  apply rounded_at_nonneg; [apply fraction_bits_nonneg | exact H].
Qed.

Lemma nearest_comp (x y : Q) : x == y -> nearest x == nearest y.
Proof.
  intros H. rewrite !nearest_rounded_at, (fraction_bits_comp _ _ H).
  now apply rounded_at_comp.
Qed.

Lemma binary64_comp (x y : Q) : x == y -> binary64 x == binary64 y.
Proof.
  intros H. unfold binary64.
  assert (E : (x ?= 0) = (y ?= 0)) by now rewrite H.
  rewrite E. destruct (y ?= 0); [reflexivity| |].
  - apply Qopp_comp, nearest_comp. now rewrite H.
  - now apply nearest_comp.
Qed.

#[export] Instance binary64_proper : Proper (Qeq ==> Qeq) binary64.
Proof. intros x y H. now apply binary64_comp. Qed.

Lemma binary64_le (x y : Q) : x <= y -> binary64 x <= binary64 y.
Proof.
  intros H. unfold binary64.
  destruct (Qcompare_spec x 0) as [Hx|Hx|Hx];
    destruct (Qcompare_spec y 0) as [Hy|Hy|Hy]; try lra.
  - apply nearest_nonneg. lra.
  - assert (0 <= nearest (- x)) by (apply nearest_nonneg; lra). lra.
  - assert (nearest (- y) <= nearest (- x)) by (apply nearest_le; lra). lra.
  - assert (0 <= nearest (- x)) by (apply nearest_nonneg; lra).
    assert (0 <= nearest y) by (apply nearest_nonneg; lra). lra.
  - apply nearest_le; lra.
Qed.

Lemma binary64_Z (n : Z) : binary64 (inject_Z n) == inject_Z n.
Proof.
  assert (P : forall k : Z, nearest (inject_Z k) == inject_Z k).
  { intros k. rewrite nearest_rounded_at.
    apply (rounded_at_fix _ (k * 2 ^ fraction_bits (inject_Z k)));
      [apply fraction_bits_nonneg|].
    now rewrite inject_Z_mult. }
  unfold binary64.
  destruct (Qcompare_spec (inject_Z n) 0) as [H|H|H].
  - now rewrite H.
  - rewrite <- inject_Z_opp, P, inject_Z_opp. ring.
  - apply P.
Qed.

Lemma binary64_0 : binary64 0 == 0.
Proof. reflexivity. Qed.

Lemma binary64_nonneg (x : Q) : 0 <= x -> 0 <= binary64 x.
Proof. intros H. rewrite <- binary64_0. now apply binary64_le. Qed.

(** Below [2^j] the rounding error is at most [2^(j-54)]. *)
Lemma binary64_error (j : Z) (x : Q) :
  (0 <= j <= 53)%Z -> 0 <= x -> x < inject_Z (2 ^ j) ->
  x - 1 / inject_Z (2 ^ (54 - j)) <= binary64 x
  /\ binary64 x <= x + 1 / inject_Z (2 ^ (54 - j)).
Proof.
  intros Hj H0 Hx.
  pose proof (pow2_Z_pos (54 - j) ltac:(lia)) as Hp.
  assert (Hq : 0 < 1 / inject_Z (2 ^ (54 - j))).
  { apply Qlt_shift_div_l; [exact Hp | lra]. }
  unfold binary64.
  destruct (Qcompare_spec x 0) as [E|E|E]; [lra | lra |].
  rewrite nearest_rounded_at.
  pose proof (fraction_bits_nonneg x) as Hm.
  pose proof (rounded_at_error (fraction_bits x) x Hm) as [G1 G2].
  assert (Hb : (53 - j <= fraction_bits x)%Z).
  { destruct (exponent_spec x E) as [S1 _].
    assert (A : (exponent x < j)%Z).
    { apply (Qpower_lt_compat_l_inv 2); [|reflexivity].
      rewrite (pow2_Z j) by lia. lra. }
    unfold fraction_bits. lia. }
  assert (Hs : 1 / (2 * inject_Z (2 ^ fraction_bits x))
               <= 1 / inject_Z (2 ^ (54 - j))).
  { pose proof (pow2_Z_pos (fraction_bits x) Hm) as Hf.
    apply Qle_shift_div_l; [exact Hp|].
    assert (T : 1 / (2 * inject_Z (2 ^ fraction_bits x))
                * inject_Z (2 ^ (54 - j))
                == inject_Z (2 ^ (54 - j))
                   / (2 * inject_Z (2 ^ fraction_bits x)))
      by (field; lra).
    rewrite T. apply Qle_shift_div_r; [lra|].
    rewrite Qmult_1_l.
    replace (54 - j)%Z with (1 + (53 - j))%Z by lia.
    rewrite Z.pow_add_r by lia. rewrite inject_Z_mult.
    change (inject_Z (2 ^ 1)) with 2.
    assert (inject_Z (2 ^ (53 - j)) <= inject_Z (2 ^ fraction_bits x)).
    { rewrite <- Zle_Qle. apply Z.pow_le_mono_r; lia. }
    lra. }
  lra.
Qed.

Lemma binary64_1 : binary64 1 == 1.
Proof. exact (binary64_Z 1). Qed.

#[export] Instance quotient_proper :
  Proper (Qeq ==> Qeq ==> Qeq) quotient.
Proof. intros x x' Hx y y' Hy. unfold quotient. now rewrite Hx, Hy. Qed.

#[export] Instance product_proper :
  Proper (Qeq ==> Qeq ==> Qeq) product.
Proof. intros x x' Hx y y' Hy. unfold product. now rewrite Hx, Hy. Qed.

Lemma Math_round_comp (x y : Q) : x == y -> Math_round x = Math_round y.
Proof. intros H. unfold Math_round. now rewrite H. Qed.

#[export] Instance Math_round_proper : Proper (Qeq ==> eq) Math_round.
Proof. intros x y H. now apply Math_round_comp. Qed.

Lemma Math_round_Z (n : Z) : Math_round (inject_Z n) = n.
Proof.
  unfold Math_round, Qfloor, Qplus, inject_Z. simpl.
  Z.div_mod_to_equations. lia.
Qed.

Lemma Math_round_le (x y : Q) : x <= y -> (Math_round x <= Math_round y)%Z.
Proof.
  intros H. unfold Math_round. apply Qfloor_resp_le.
  now apply Qplus_le_l.
Qed.

Lemma quotient_le (x y d : Q) :
  0 < d -> x <= y -> quotient x d <= quotient y d.
Proof.
  intros Hd H. apply binary64_le.
  apply Qmult_le_compat_r; [exact H|].
  now apply Qlt_le_weak, Qinv_lt_0_compat.
Qed.

Lemma product_le (x y t : Q) :
  0 <= t -> x <= y -> product x t <= product y t.
Proof.
  intros Ht H. apply binary64_le. now apply Qmult_le_compat_r.
Qed.

Lemma quotient_0 (d : Q) : quotient 0 d == 0.
Proof.
  unfold quotient. assert (E : 0 / d == 0) by (unfold Qdiv; ring).
  now rewrite E.
Qed.

Lemma quotient_same (d : Q) : ~ d == 0 -> quotient d d == 1.
Proof.
  intros Hd. unfold quotient.
  assert (E : d / d == 1) by (field; exact Hd).
  rewrite E. exact binary64_1.
Qed.

Lemma product_0 (t : Q) : product 0 t == 0.
Proof.
  unfold product. assert (E : 0 * t == 0) by ring. now rewrite E.
Qed.

Lemma product_1 (t : Z) : product 1 (inject_Z t) == inject_Z t.
Proof.
  unfold product. rewrite Qmult_1_l. apply binary64_Z.
Qed.

(** A share [x / d] of [t], rounded: the count of filled cells, of steps, or
    the percentage. *)
Lemma rounded_share_le (x y d t : Q) :
  0 < d -> 0 <= t -> x <= y ->
  (Math_round (product (quotient x d) t)
   <= Math_round (product (quotient y d) t))%Z.
Proof.
  intros Hd Ht H. now apply Math_round_le, product_le, quotient_le.
Qed.

Lemma rounded_share_0 (d t : Q) :
  Math_round (product (quotient 0 d) t) = 0%Z.
Proof. now rewrite quotient_0, product_0. Qed.

Lemma rounded_share_full (d : Q) (t : Z) :
  ~ d == 0 -> Math_round (product (quotient d d) (inject_Z t)) = t.
Proof.
  intros Hd. rewrite (quotient_same d Hd), product_1. apply Math_round_Z.
Qed.

Lemma rounded_share_bounds (x d : Q) (t : Z) :
  0 < d -> 0 <= x -> x <= d -> (0 <= t)%Z ->
  (0 <= Math_round (product (quotient x d) (inject_Z t)) <= t)%Z.
Proof.
  intros Hd H0 H1 Ht.
  assert (Ht' : 0 <= inject_Z t).
  { change 0 with (inject_Z 0). now rewrite <- Zle_Qle. }
  split.
  - rewrite <- (rounded_share_0 d (inject_Z t)).
    now apply rounded_share_le.
  - rewrite <- (rounded_share_full d t) at 2
      by (intros E; rewrite E in Hd; discriminate).
    now apply rounded_share_le.
Qed.

Lemma Qfloor_between (x : Q) (n : Z) :
  inject_Z n <= x -> x < inject_Z (n + 1) -> Qfloor x = n.
Proof.
  intros H1 H2.
  pose proof (Qfloor_le x) as F1. pose proof (Qlt_floor x) as F2.
  assert (A : (n < Qfloor x + 1)%Z).
  { rewrite Zlt_Qlt. lra. }
  assert (B : (Qfloor x < n + 1)%Z).
  { rewrite Zlt_Qlt. lra. }
  lia.
Qed.

(** The error of a rounded share [x / d] of [t < 2^j]: at most
    [2^(j-53)]. *)
Lemma share_error (x d : Q) (t j : Z) :
  0 < d -> 0 <= x -> x <= d -> (0 <= t < 2 ^ j)%Z -> (0 <= j <= 53)%Z ->
  let y := product (quotient x d) (inject_Z t) in
  let v := x / d * inject_Z t in
  v - 1 / inject_Z (2 ^ (53 - j)) <= y /\
  y <= v + 1 / inject_Z (2 ^ (53 - j)).
Proof.
  intros Hd H0 H1 Ht Hj y v.
  set (q := x / d) in *.
  assert (Hq0 : 0 <= q).
  { unfold q. apply Qle_shift_div_l; [exact Hd|]. lra. }
  assert (Hq1 : q <= 1).
  { unfold q. apply Qle_shift_div_r; [exact Hd|]. lra. }
  assert (R1 : binary64 q <= 1).
  { rewrite <- binary64_1. now apply binary64_le. }
  assert (R0 : 0 <= binary64 q) by now apply binary64_nonneg.
  assert (Eq : q - (1 # 18014398509481984) <= binary64 q
               /\ binary64 q <= q + (1 # 18014398509481984)).
  { destruct (Qlt_le_dec q 1) as [Hlt|Hge].
    - exact (binary64_error 0 q ltac:(lia) Hq0 Hlt).
    - assert (E : q == 1) by lra. rewrite E, binary64_1. lra. }
  set (T := inject_Z t) in *.
  set (A := inject_Z (2 ^ j)). set (B := inject_Z (2 ^ (54 - j))).
  assert (HA : 0 < A) by (apply pow2_Z_pos; lia).
  assert (HB : 0 < B) by (apply pow2_Z_pos; lia).
  assert (HAB : A * B == 18014398509481984).
  { unfold A, B. rewrite <- inject_Z_mult, <- Z.pow_add_r by lia.
    replace (j + (54 - j))%Z with 54%Z by lia. reflexivity. }
  assert (HT0 : 0 <= T).
  { unfold T. change 0 with (inject_Z 0). rewrite <- Zle_Qle. lia. }
  assert (HTA : T < A).
  { unfold T, A. rewrite <- Zlt_Qlt. lia. }
  assert (He : 1 / inject_Z (2 ^ (53 - j)) == 2 / B).
  { unfold B. replace (54 - j)%Z with (1 + (53 - j))%Z by lia.
    rewrite Z.pow_add_r, inject_Z_mult by lia.
    change (inject_Z (2 ^ 1)) with 2.
    pose proof (pow2_Z_pos (53 - j) ltac:(lia)). field. lra. }
  assert (Ez : binary64 q * T - 1 / B <= y /\ y <= binary64 q * T + 1 / B).
  { apply (binary64_error j (binary64 q * T)); [lia | |].
    - apply Qmult_le_0_compat; assumption.
    - apply Qle_lt_trans with (1 * T); [|fold A; lra].
      apply Qmult_le_compat_r; assumption. }
  assert (Hu : (binary64 q - q) * T <= 1 / B).
  { apply Qle_trans with ((1 # 18014398509481984) * T).
    - apply Qmult_le_compat_r; [lra | exact HT0].
    - apply Qle_shift_div_l; [exact HB|].
      assert ((1 # 18014398509481984) * T * B
              <= (1 # 18014398509481984) * A * B).
      { apply Qmult_le_compat_r; [|lra].
        apply Qmult_le_l; [reflexivity | lra]. }
      assert ((1 # 18014398509481984) * A * B == 1).
      { rewrite <- Qmult_assoc, HAB. reflexivity. }
      lra. }
  assert (Hl : - (1 / B) <= (binary64 q - q) * T).
  { apply Qle_trans with (- (1 # 18014398509481984) * T).
    - assert ((1 # 18014398509481984) * T <= 1 / B).
      { apply Qle_shift_div_l; [exact HB|].
        assert ((1 # 18014398509481984) * T * B
                <= (1 # 18014398509481984) * A * B).
        { apply Qmult_le_compat_r; [|lra].
          apply Qmult_le_l; [reflexivity | lra]. }
        assert ((1 # 18014398509481984) * A * B == 1).
        { rewrite <- Qmult_assoc, HAB. reflexivity. }
        lra. }
      lra.
    - apply Qmult_le_compat_r; [lra | exact HT0]. }
  rewrite He. unfold v.
  assert (E2 : 2 / B == 1 / B + 1 / B) by (field; lra).
  rewrite E2.
  assert (E3 : (binary64 q - q) * T == binary64 q * T - q * T) by ring.
  lra.
Qed.

Lemma inject_Z_sub (a b : Z) : inject_Z (a - b) == inject_Z a - inject_Z b.
Proof.
  unfold Z.sub. rewrite inject_Z_plus, inject_Z_opp. reflexivity.
Qed.

(** [Math.round] of a number within [eps] of the fraction [n / d - 1/2],
    where [eps < 1 / d]: the integer quotient [n / d], unless [d] divides
    [n] (the fraction lies half-way between two integers), where it may be
    one less. *)
Lemma Math_round_near (y eps : Q) (n d : Z) :
  (0 < d)%Z -> 0 <= eps -> eps * inject_Z d < 1 ->
  inject_Z n / inject_Z d - (1 # 2) - eps <= y ->
  y <= inject_Z n / inject_Z d - (1 # 2) + eps ->
  (n / d - 1 <= Math_round y <= n / d)%Z /\
  ((n mod d <> 0)%Z -> Math_round y = (n / d)%Z).
Proof.
  intros Hd He0 He H1 H2.
  assert (Hd' : 0 < inject_Z d).
  { change 0 with (inject_Z 0). rewrite <- Zlt_Qlt. lia. }
  pose proof (Z.div_mod n d ltac:(lia)) as E.
  pose proof (Z.mod_pos_bound n d ltac:(lia)) as Hr.
  set (k := (n / d)%Z) in *. set (r := (n mod d)%Z) in *.
  set (u := / inject_Z d).
  assert (Hu : inject_Z d * u == 1) by (unfold u; field; lra).
  assert (Hu0 : 0 < u) by (now apply Qinv_lt_0_compat).
  assert (Hud : eps < u).
  { unfold u. apply Qlt_shift_inv_l; [exact Hd' | exact He]. }
  assert (Es : inject_Z n / inject_Z d == inject_Z k + inject_Z r * u).
  { rewrite E, inject_Z_plus, inject_Z_mult. unfold u. field. lra. }
  assert (Hr0 : 0 <= inject_Z r * u).
  { apply Qmult_le_0_compat; [|lra].
    change 0 with (inject_Z 0). rewrite <- Zle_Qle. lia. }
  assert (Hr1 : inject_Z r * u <= 1 - u).
  { assert (inject_Z r * u <= (inject_Z d - 1) * u).
    { apply Qmult_le_compat_r; [|lra].
      change 1 with (inject_Z 1). rewrite <- inject_Z_sub, <- Zle_Qle. lia. }
    lra. }
  unfold Math_round.
  pose proof (Qfloor_le (y + (1 # 2))) as F1.
  pose proof (Qlt_floor (y + (1 # 2))) as F2.
  rewrite inject_Z_plus in F2. change (inject_Z 1) with 1 in F2.
  split.
  - split.
    + assert (A : (k - 1 < Qfloor (y + (1 # 2)) + 1)%Z).
      { rewrite Zlt_Qlt, inject_Z_plus, inject_Z_sub.
        change (inject_Z 1) with 1. lra. }
      lia.
    + assert (B : (Qfloor (y + (1 # 2)) < k + 1)%Z).
      { rewrite Zlt_Qlt, inject_Z_plus. change (inject_Z 1) with 1. lra. }
      lia.
  - intros Hne.
    assert (Hr2 : u <= inject_Z r * u).
    { assert (1 * u <= inject_Z r * u).
      { apply Qmult_le_compat_r; [|lra].
        change 1 with (inject_Z 1). rewrite <- Zle_Qle. lia. }
      lra. }
    apply Qfloor_between.
    + lra.
    + rewrite inject_Z_plus. change (inject_Z 1) with 1. lra.
Qed.

(** [Math.round] of a number within [eps < 1] of [x] is within one of
    [Math.round] of [x]. *)
Lemma Math_round_within (x y eps : Q) :
  eps <= 1 -> x - eps <= y -> y <= x + eps ->
  (Math_round x - 1 <= Math_round y <= Math_round x + 1)%Z.
Proof.
  intros He H1 H2. unfold Math_round.
  pose proof (Qfloor_le (y + (1 # 2))) as F1.
  pose proof (Qlt_floor (y + (1 # 2))) as F2.
  pose proof (Qfloor_le (x + (1 # 2))) as G1.
  pose proof (Qlt_floor (x + (1 # 2))) as G2.
  rewrite inject_Z_plus in F2, G2. change (inject_Z 1) with 1 in F2, G2.
  split.
  - assert (A : (Qfloor (x + (1 # 2)) - 1 < Qfloor (y + (1 # 2)) + 1)%Z).
    { rewrite Zlt_Qlt, inject_Z_plus, inject_Z_sub.
      change (inject_Z 1) with 1. lra. }
    lia.
  - assert (B : (Qfloor (y + (1 # 2)) < Qfloor (x + (1 # 2)) + 1 + 1)%Z).
    { rewrite Zlt_Qlt, !inject_Z_plus. change (inject_Z 1) with 1. lra. }
    lia.
Qed.


Lemma Math_round_ratio (n b : Z) :
  (0 < b)%Z ->
  Math_round (inject_Z n / inject_Z b) = ((2 * n + b) / (2 * b))%Z.
Proof.
  intros Hb. destruct b as [|p|p]; try lia.
  unfold Math_round, Qfloor, Qdiv, Qmult, Qinv, Qplus, inject_Z. simpl.
  f_equal; lia.
Qed.

(** The rounded share of integers against the exact one: equal unless the
    exact share lies half-way between two integers, where the rounded one
    may be the integer below. *)
Lemma rounded_share_near (a d t j : Z) :
  (0 <= a <= d)%Z -> (0 < d)%Z -> (0 <= t < 2 ^ j)%Z -> (0 <= j <= 53)%Z ->
  (2 * d < 2 ^ (53 - j))%Z ->
  let code :=
    Math_round (product (quotient (inject_Z a) (inject_Z d)) (inject_Z t)) in
  let exact := Math_round (inject_Z a / inject_Z d * inject_Z t) in
  exact = ((2 * (a * t) + d) / (2 * d))%Z /\
  (exact - 1 <= code <= exact)%Z /\
  (((2 * (a * t) + d) mod (2 * d) <> 0)%Z -> code = exact).
Proof.
  intros Ha Hd Ht Hj Hsmall code exact.
  assert (Hd' : 0 < inject_Z d).
  { change 0 with (inject_Z 0). rewrite <- Zlt_Qlt. lia. }
  assert (E : exact = ((2 * (a * t) + d) / (2 * d))%Z).
  { unfold exact.
    rewrite (Math_round_comp (inject_Z a / inject_Z d * inject_Z t)
               (inject_Z (a * t) / inject_Z d))
      by (rewrite inject_Z_mult; field; lra).
    now apply Math_round_ratio. }
  split; [exact E|]. rewrite E.
  destruct (share_error (inject_Z a) (inject_Z d) t j Hd') as [P1 P2];
    try assumption.
  { change 0 with (inject_Z 0). rewrite <- Zle_Qle. lia. }
  { rewrite <- Zle_Qle. lia. }
  assert (F : inject_Z (2 * (a * t) + d) / inject_Z (2 * d) - (1 # 2)
              == inject_Z a / inject_Z d * inject_Z t).
  { rewrite inject_Z_plus, !inject_Z_mult. field. lra. }
  pose proof (pow2_Z_pos (53 - j) ltac:(lia)) as Hp.
  apply (Math_round_near _ (1 / inject_Z (2 ^ (53 - j)))).
  - lia.
  - apply Qle_shift_div_l; [exact Hp | lra].
  - assert (T : 1 / inject_Z (2 ^ (53 - j)) * inject_Z (2 * d)
                == inject_Z (2 * d) / inject_Z (2 ^ (53 - j)))
      by (field; lra).
    rewrite T. apply Qlt_shift_div_r; [exact Hp|].
    rewrite Qmult_1_l, <- Zlt_Qlt. exact Hsmall.
  - rewrite F. exact P1.
  - rewrite F. exact P2.
Qed.

(** For any percentage the rounded share is within one of the exact one. *)
Lemma rounded_share_within (x d : Q) (t : Z) :
  0 < d -> 0 <= x -> x <= d -> (0 <= t < 2 ^ 53)%Z ->
  let code := Math_round (product (quotient x d) (inject_Z t)) in
  let exact := Math_round (x / d * inject_Z t) in
  (exact - 1 <= code <= exact + 1)%Z.
Proof.
  intros Hd H0 H1 Ht code exact.
  destruct (share_error x d t 53 Hd H0 H1 Ht ltac:(lia)) as [P1 P2].
  apply (Math_round_within _ _ (1 / inject_Z (2 ^ (53 - 53))));
    [discriminate | exact P1 | exact P2].
Qed.

Lemma fraction_bits_below (j : Z) (x : Q) :
  (0 <= j <= 53)%Z -> 0 < x -> x < inject_Z (2 ^ j) ->
  (53 - j <= fraction_bits x)%Z.
Proof.
  intros Hj H0 Hx.
  destruct (exponent_spec x H0) as [S1 _].
  assert (A : (exponent x < j)%Z).
  { apply (Qpower_lt_compat_l_inv 2); [|reflexivity].
    rewrite (pow2_Z j) by lia. lra. }
  unfold fraction_bits. lia.
Qed.

(** A number with [b] binary digits after the point is a binary64 value as
    long as it is below [2^(53-b)]. *)
Lemma binary64_exact (x : Q) (n b : Z) :
  (0 <= b <= 53)%Z -> 0 <= x -> x < inject_Z (2 ^ (53 - b)) ->
  x * inject_Z (2 ^ b) == inject_Z n ->
  binary64 x == x.
Proof.
  intros Hb H0 Hx Hn. unfold binary64.
  destruct (Qcompare_spec x 0) as [E|E|E]; [now rewrite E | lra |].
  unfold nearest.
  pose proof (fraction_bits_below (53 - b) x ltac:(lia) E Hx) as Hf.
  apply (rounded_at_fix _ (n * 2 ^ (fraction_bits x - b)));
    [apply fraction_bits_nonneg|].
  replace (fraction_bits x) with (b + (fraction_bits x - b))%Z at 1 by lia.
  rewrite Z.pow_add_r by lia.
  rewrite !inject_Z_mult, <- Hn. ring.
Qed.

End RoundingFacts.
Import RoundingFacts.

(** From here on the rounding is used through its properties. *)
Opaque binary64.

(* ===================================================================== *)
(** * Facts about the matcher *)
(* ===================================================================== *)

Module RegExpFacts.

Lemma mtch_star_unfold {R : Type} ic r1 s cap
  (k : jsstring -> option jsstring -> option R) :
  mtch ic (Star r1) s cap k = star_loop ic r1 k (length s) s cap.
Proof. reflexivity. Qed.

Section Soundness.
Context {R : Type}.
Variable ic : bool.

Lemma star_loop_sound r1 :
  sound_for (R := R) ic r1 ->
  forall fuel s cap (k : jsstring -> option jsstring -> option R) x,
    star_loop ic r1 k fuel s cap = Some x ->
    exists a s' cap',
      s = a ++ s' /\ star_lang (lang ic r1) a /\ k s' cap' = Some x /\
      (nogroup r1 = true -> cap' = cap).
Proof.
  intros IH fuel.
  induction fuel as [|fuel IHf]; intros s cap k x H; simpl in H.
  - exists [], s, cap. repeat split; auto. constructor.
  - destruct (mtch ic r1 s cap _) as [y|] eqn:E.
    + inversion H; subst y; clear H.
      apply IH in E. destruct E as (a1 & s1 & c1 & Hs & La & Hk & Hc).
      destruct (length s1 =? length s)%nat eqn:El; [discriminate|].
      apply IHf in Hk. destruct Hk as (a2 & s2 & c2 & Hs2 & La2 & Hk2 & Hc2).
      exists (a1 ++ a2), s2, c2. repeat split; auto.
      * subst. now rewrite app_assoc.
      * constructor; auto. intros ->. subst s. simpl in El.
        rewrite Nat.eqb_refl in El. discriminate.
      * intros Hn. rewrite Hc2, Hc; auto.
    + exists [], s, cap. repeat split; auto. constructor.
Qed.

Lemma mtch_sound r : sound_for (R := R) ic r.
Proof.
  induction r as [|c|p|r1 IH1 r2 IH2|r1 IH1 r2 IH2|r1 IH1|r1 IH1];
    intros s cap k x H; simpl in H.
  - exists [], s, cap. repeat split; auto.
  - destruct s as [|y s']; [discriminate|].
    destruct (char_match ic y c) eqn:E; [|discriminate].
    exists [y], s', cap. repeat split; auto. simpl. eauto.
  - destruct s as [|y s']; [discriminate|].
    destruct (p y) eqn:E; [|discriminate].
    exists [y], s', cap. repeat split; auto. simpl. eauto.
  - apply IH1 in H. destruct H as (a1 & s1 & c1 & Hs & La & Hk & Hc).
    apply IH2 in Hk. destruct Hk as (a2 & s2 & c2 & Hs2 & La2 & Hk2 & Hc2).
    exists (a1 ++ a2), s2, c2. repeat split; auto.
    + subst. now rewrite app_assoc.
    + simpl. eauto.
    + simpl. intros Hn. apply andb_true_iff in Hn. destruct Hn.
      rewrite Hc2, Hc; auto.
  - destruct (mtch ic r1 s cap k) as [y|] eqn:E.
    + inversion H; subst y. apply IH1 in E.
      destruct E as (a1 & s1 & c1 & Hs & La & Hk & Hc).
      exists a1, s1, c1. repeat split; auto.
      * simpl. auto.
      * simpl. intros Hn. apply andb_true_iff in Hn. destruct Hn. auto.
    + apply IH2 in H. destruct H as (a1 & s1 & c1 & Hs & La & Hk & Hc).
      exists a1, s1, c1. repeat split; auto.
      * simpl. auto.
      * simpl. intros Hn. apply andb_true_iff in Hn. destruct Hn. auto.
  - apply (star_loop_sound _ IH1) in H.
    destruct H as (a & s' & c' & Hs & La & Hk & Hc).
    exists a, s', c'. repeat split; auto.
  - apply IH1 in H. destruct H as (a1 & s1 & c1 & Hs & La & Hk & Hc).
    exists a1, s1, (Some (firstn (length s - length s1) s)).
    split; [exact Hs|]. split; [exact La|]. split; [exact Hk|].
    simpl. intros Hn. discriminate Hn.
Qed.

End Soundness.

Section Completeness.
Context {R : Type}.
Variable ic : bool.

Lemma star_loop_complete r1 :
  complete_for (R := R) ic r1 ->
  forall a, star_lang (lang ic r1) a ->
  forall s' (k : jsstring -> option jsstring -> option R),
    (forall c, k s' c <> None) ->
    forall fuel cap, (length (a ++ s') <= fuel)%nat ->
    star_loop ic r1 k fuel (a ++ s') cap <> None.
Proof.
  intros IH a Ha.
  induction Ha as [|a b Hne La Hb IHb]; intros s' k Hk fuel cap Hf.
  - simpl. destruct fuel; simpl; auto.
    destruct (mtch ic r1 s' cap _); [discriminate | auto].
  - destruct fuel as [|fuel].
    + destruct a; [congruence | simpl in Hf; lia].
    + simpl. rewrite <- app_assoc.
      destruct (mtch ic r1 (a ++ b ++ s') cap _) as [y|] eqn:E;
        [discriminate|].
      exfalso. revert E. apply IH; auto.
      intros c.
      destruct (length (b ++ s') =? length (a ++ b ++ s'))%nat eqn:El.
      * apply Nat.eqb_eq in El. rewrite !length_app in El.
        destruct a; [congruence | simpl in El; lia].
      * apply IHb; auto.
        rewrite <- app_assoc, length_app in Hf.
        destruct a; [congruence | simpl in Hf; lia].
Qed.

Lemma mtch_complete r : complete_for (R := R) ic r.
Proof.
  induction r as [|c|p|r1 IH1 r2 IH2|r1 IH1 r2 IH2|r1 IH1|r1 IH1];
    intros a La s' cap k Hk; simpl in La.
  - subst a. simpl. auto.
  - destruct La as (x & -> & E). simpl. rewrite E. auto.
  - destruct La as (x & -> & E). simpl. rewrite E. auto.
  - destruct La as (a1 & a2 & -> & L1 & L2). simpl.
    rewrite <- app_assoc. apply IH1; [exact L1|].
    intros c. apply IH2; auto.
  - simpl. destruct La as [L|L].
    + destruct (mtch ic r1 (a ++ s') cap k) eqn:E; [discriminate|].
      exfalso. revert E. apply IH1; auto.
    + destruct (mtch ic r1 (a ++ s') cap k) eqn:E; [discriminate|].
      apply IH2; auto.
  - rewrite mtch_star_unfold. apply star_loop_complete; auto.
  - simpl. apply IH1; auto.
Qed.

End Completeness.

(** The matcher hands its continuation a suffix of its input. *)
Lemma exec_at_suffix re s s' c :
  exec_at re s = Some (s', c) -> exists a, s = a ++ s'.
Proof.
  unfold exec_at. intros H. apply mtch_sound in H.
  destruct H as (a & s1 & c1 & Hs & _ & Hk & _).
  inversion Hk; subst. eauto.
Qed.

(** A greedy [Star] over a class consumes the longest run when the
    continuation accepts what follows it. *)
Lemma star_class_greedy {R : Type} ic p
  (k : jsstring -> option jsstring -> option R) x :
  forall s fuel cap,
    (length s <= fuel)%nat ->
    k (drop_while p s) cap = Some x ->
    star_loop ic (Class p) k fuel s cap = Some x.
Proof.
  induction s as [|c t IH]; intros fuel cap Hf Hk.
  - destruct fuel; simpl in *; auto.
  - destruct fuel as [|fuel]; [simpl in Hf; lia|].
    simpl in Hk |- *. destruct (p c) eqn:E.
    + replace (length t =? S (length t))%nat with false
        by (symmetry; apply Nat.eqb_neq; lia).
      rewrite (IH fuel cap); auto. simpl in Hf. lia.
    + exact Hk.
Qed.

(** [replace_from] does not depend on its fuel once it exceeds the length of
    the text. *)
Lemma replace_from_fuel re rep :
  forall f1 f2 s,
    (length s < f1)%nat -> (length s < f2)%nat ->
    replace_from f1 re rep s = replace_from f2 re rep s.
Proof.
  induction f1 as [|f1 IH]; intros f2 s H1 H2; [lia|].
  destruct f2 as [|f2]; [lia|]. simpl.
  destruct (exec_at re s) as [[s' c]|] eqn:E.
  - destruct s as [|x t]; [reflexivity|].
    destruct (length s' =? length (x :: t))%nat eqn:El.
    + f_equal. f_equal. apply IH; simpl in *; lia.
    + f_equal. apply Nat.eqb_neq in El.
      apply exec_at_suffix in E. destruct E as [a Ha].
      assert (length (x :: t) = length a + length s')%nat
        by (rewrite Ha, length_app; reflexivity).
      apply IH; simpl in *; lia.
  - destruct s as [|x t]; [reflexivity|].
    f_equal. apply IH; simpl in *; lia.
Qed.

Section GlobalReplace.
Variable re : RegExp.
Variable rep : jsstring.
Hypothesis re_global : global re = true.

Lemma String_replace_nil :
  exec_at re [] = None -> String_replace [] re rep = [].
Proof.
  intros H. unfold String_replace. rewrite re_global. simpl. now rewrite H.
Qed.

Lemma String_replace_skip c t :
  exec_at re (c :: t) = None ->
  String_replace (c :: t) re rep = c :: String_replace t re rep.
Proof.
  intros H. unfold String_replace. rewrite re_global.
  set (rest := replace_from (S (length t)) re rep t).
  cbn [replace_from length]. rewrite H. reflexivity.
Qed.

Lemma String_replace_hit a c s' cap :
  exec_at re (c :: a ++ s') = Some (s', cap) ->
  String_replace (c :: a ++ s') re rep = rep ++ String_replace s' re rep.
Proof.
  intros H. unfold String_replace. rewrite re_global.
  set (rest := replace_from (S (length s')) re rep s').
  cbn [replace_from]. rewrite H. subst rest.
  replace (length s' =? length (c :: a ++ s'))%nat with false.
  - f_equal. apply replace_from_fuel; simpl; rewrite ?length_app; lia.
  - symmetry. apply Nat.eqb_neq. simpl. rewrite length_app. lia.
Qed.

End GlobalReplace.

End RegExpFacts.

(* ===================================================================== *)
(** * Token estimation *)
(* ===================================================================== *)

Module TokenFacts.
Import RegExpFacts.

(** ** The white-space pattern *)

Lemma take_drop_while p (s : jsstring) :
  take_while p s ++ drop_while p s = s.
Proof.
  induction s as [|c t IH]; simpl; auto.
  destruct (p c); simpl; congruence.
Qed.

Lemma exec_at_whitespace_hit c t :
  is_whitespace c = true ->
  exec_at whitespace_runs (c :: t) = Some (drop_while is_whitespace t, None).
Proof.
  intros H. unfold exec_at. simpl pattern. simpl ignoreCase.
  unfold Plus. cbn [mtch]. rewrite H.
  change (star_loop false (Class is_whitespace)
            (fun s' c0 => Some (s', c0)) (length t) t None
          = Some (drop_while is_whitespace t, None)).
  apply star_class_greedy; auto.
Qed.

Lemma exec_at_whitespace_miss c t :
  is_whitespace c = false -> exec_at whitespace_runs (c :: t) = None.
Proof.
  intros H. unfold exec_at. simpl pattern. unfold Plus. cbn [mtch].
  now rewrite H.
Qed.

Lemma collapse_whitespace_head c t :
  is_whitespace c = true ->
  collapse_whitespace (c :: t)
  = 32%N :: collapse_whitespace (drop_while is_whitespace t).
Proof.
  revert c. induction t as [|c' t' IH]; intros c H.
  - simpl. now rewrite H.
  - change (collapse_whitespace (c :: c' :: t'))
      with (if is_whitespace c
            then if is_whitespace c' then collapse_whitespace (c' :: t')
                 else 32%N :: collapse_whitespace (c' :: t')
            else c :: collapse_whitespace (c' :: t')).
    cbn [drop_while]. rewrite H.
    destruct (is_whitespace c') eqn:E.
    + now apply IH.
    + reflexivity.
Qed.

Lemma drop_while_length p (s : jsstring) :
  (length (drop_while p s) <= length s)%nat.
Proof.
  induction s as [|c t IH]; simpl; auto.
  destruct (p c); simpl; lia.
Qed.

(** The replacement done by [estimateTokens] is the collapse of the
    specification. *)
Lemma replace_whitespace_collapse s :
  String_replace s whitespace_runs (js " ") = collapse_whitespace s.
Proof.
  remember (length s) as n eqn:Hn. revert s Hn.
  induction n as [n IH] using lt_wf_ind. intros s Hn.
  destruct s as [|c t].
  - apply (String_replace_nil whitespace_runs); reflexivity.
  - destruct (is_whitespace c) eqn:E.
    + rewrite collapse_whitespace_head by exact E.
      pose proof (exec_at_whitespace_hit c t E) as Hx.
      rewrite <- (take_drop_while is_whitespace t) in Hx at 1.
      rewrite <- (take_drop_while is_whitespace t) at 1.
      rewrite (String_replace_hit whitespace_runs (js " ") eq_refl _ _ _ _ Hx).
      simpl app. f_equal.
      apply (IH (length (drop_while is_whitespace t))); auto.
      pose proof (drop_while_length is_whitespace t). simpl in Hn. lia.
    + rewrite (String_replace_skip whitespace_runs (js " ") eq_refl _ _ (exec_at_whitespace_miss c t E)).
      simpl. rewrite E. f_equal.
      apply (IH (length t)); auto. simpl in Hn. lia.
Qed.

Lemma collapse_all_whitespace s :
  forallb is_whitespace s = true ->
  collapse_whitespace s = [] \/ collapse_whitespace s = [32%N].
Proof.
  induction s as [|c t IH]; intros H; simpl in *; auto.
  apply andb_true_iff in H. destruct H as [Hc Ht]. rewrite Hc.
  destruct t as [|c' t']; auto.
  simpl in Ht. apply andb_true_iff in Ht. destruct Ht as [Hc' Ht'].
  rewrite Hc'. apply IH. simpl. now rewrite Hc', Ht'.
Qed.

Lemma Qceiling_quarter (n : Z) :
  Qceiling (inject_Z n / 4) = ((n + 3) / 4)%Z.
Proof.
  unfold Qceiling, Qfloor, Qdiv, Qmult, Qinv, Qopp, inject_Z. simpl.
  Z.div_mod_to_equations. lia.
Qed.

Lemma estimateTokens_eq s : estimateTokens s = estimate_spec s.
Proof.
  unfold estimateTokens, estimate_spec, Math_ceil.
  destruct s as [|c t]; [reflexivity|].
  now rewrite replace_whitespace_collapse.
Qed.

Lemma estimateTokens_nonneg s : (0 <= estimateTokens s)%Z.
Proof.
  rewrite estimateTokens_eq. unfold estimate_spec.
  rewrite Qceiling_quarter. apply Z.div_pos; lia.
Qed.

(** ** Character classes *)

Lemma is_digit_spec c : is_digit c = true <-> (48 <= c <= 57)%N.
Proof.
  unfold is_digit. rewrite andb_true_iff, !N.leb_le. tauto.
Qed.

Lemma is_whitespace_spec c :
  is_whitespace c = true <->
  ((9 <= c <= 13) \/ c = 32 \/ c = 160 \/ c = 5760 \/ (8192 <= c <= 8202)
   \/ c = 8232 \/ c = 8233 \/ c = 8239 \/ c = 8287 \/ c = 12288
   \/ c = 65279)%N.
Proof.
  unfold is_whitespace.
  rewrite !orb_true_iff, !andb_true_iff, !N.leb_le, !N.eqb_eq. tauto.
Qed.

Lemma is_digit_or_comma_spec c :
  is_digit_or_comma c = true <-> ((48 <= c <= 57) \/ c = 44)%N.
Proof.
  unfold is_digit_or_comma.
  rewrite orb_true_iff, is_digit_spec, N.eqb_eq. tauto.
Qed.

Lemma not_true_false (b : bool) : ~ b = true -> b = false.
Proof. destruct b; congruence. Qed.

Lemma whitespace_not_digit_or_comma c :
  is_whitespace c = true -> is_digit_or_comma c = false.
Proof.
  intros H. apply not_true_false. rewrite is_digit_or_comma_spec.
  apply is_whitespace_spec in H. lia.
Qed.

Lemma digit_not_whitespace c :
  is_digit c = true -> is_whitespace c = false.
Proof.
  intros H. apply not_true_false. rewrite is_whitespace_spec.
  apply is_digit_spec in H. lia.
Qed.

Lemma canonicalize_spec c :
  ((97 <= c <= 122)%N /\ canonicalize c = (c - 32)%N) \/
  (~ (97 <= c <= 122)%N /\ canonicalize c = c).
Proof.
  unfold canonicalize.
  destruct ((97 <=? c) && (c <=? 122))%N eqn:E.
  - left. apply andb_true_iff in E. rewrite !N.leb_le in E. tauto.
  - right. split; auto. intros H.
    rewrite <- !N.leb_le, <- andb_true_iff in H. congruence.
Qed.

Lemma char_match_comma x : char_match true x 44 = true <-> x = 44%N.
Proof.
  unfold char_match, code_eqb. rewrite N.eqb_eq.
  change (canonicalize 44) with 44%N.
  destruct (canonicalize_spec x) as [[H1 H2]|[H1 H2]]; rewrite H2; lia.
Qed.

Lemma letter_t_not_digit_or_comma x :
  canonicalize x = 84%N -> is_digit_or_comma x = false.
Proof.
  intros H. apply not_true_false. rewrite is_digit_or_comma_spec.
  destruct (canonicalize_spec x) as [[H1 H2]|[H1 H2]]; rewrite H2 in H; lia.
Qed.

(** ** Languages of the pieces of the pattern *)

Lemma lang_star_class ic p a :
  star_lang (lang ic (Class p)) a <-> forallb p a = true.
Proof.
  split.
  - induction 1 as [|a b Hne (x & -> & Hx) Hb IH]; simpl; auto.
    now rewrite Hx.
  - induction a as [|c t IH]; intros H.
    + constructor.
    + simpl in H. apply andb_true_iff in H. destruct H as [Hc Ht].
      change (c :: t) with ([c] ++ t).
      apply star_more; [discriminate | simpl; eauto | auto].
Qed.

Lemma lang_plus_class ic p a :
  lang ic (Plus (Class p)) a <-> (a <> [] /\ forallb p a = true).
Proof.
  unfold Plus. cbn [lang]. split.
  - intros (a1 & a2 & -> & (x & -> & Hx) & H2).
    apply (proj1 (lang_star_class ic p a2)) in H2. simpl. rewrite Hx, H2. split; [discriminate|auto].
  - intros [Hne H]. destruct a as [|c t]; [congruence|].
    simpl in H. apply andb_true_iff in H. destruct H as [Hc Ht].
    exists [c], t. repeat split; eauto. now apply (proj2 (lang_star_class ic p t)).
Qed.

Lemma lang_comma_groups g :
  star_lang (lang true (Seq (Char 44) (Plus (Class is_digit)))) g <->
  exists gs, Forall digit_run gs /\ g = concat (map (cons 44%N) gs).
Proof.
  split.
  - induction 1 as [|a b Hne La Hb IH].
    + exists []. split; [constructor|reflexivity].
    + destruct IH as (gs & Hgs & ->).
      cbn [lang] in La. destruct La as (a1 & a2 & -> & (x & -> & Hx) & H2).
      apply char_match_comma in Hx. subst x.
      apply (proj1 (lang_plus_class true is_digit a2)) in H2.
      exists (a2 :: gs). split; [constructor; auto|].
      reflexivity.
  - intros (gs & Hgs & ->). induction Hgs as [|d gs Hd Hgs IH].
    + constructor.
    + simpl. change (44%N :: d ++ concat (map (cons 44%N) gs))
        with ((44%N :: d) ++ concat (map (cons 44%N) gs)).
      apply star_more; [discriminate | | exact IH].
      cbn [lang]. exists [44%N], d. split; [reflexivity|]. split.
      * exists 44%N. split; auto.
      * now apply (proj2 (lang_plus_class true is_digit d)).
Qed.

Lemma lang_grouped_digits num :
  lang true grouped_digits num <-> grouped_number num.
Proof.
  unfold grouped_digits, grouped_number.
  change (lang true (Seq (Plus (Class is_digit))
                       (Star (Seq (Char 44) (Plus (Class is_digit))))) num)
    with (exists a1 a2, num = a1 ++ a2 /\
            lang true (Plus (Class is_digit)) a1 /\
            star_lang (lang true (Seq (Char 44) (Plus (Class is_digit)))) a2).
  split.
  - intros (a1 & a2 & -> & H1 & H2).
    apply (proj1 (lang_plus_class _ _ _)) in H1.
    apply (proj1 (lang_comma_groups _)) in H2.
    destruct H2 as (gs & Hgs & ->). exists a1, gs. auto.
  - intros (d & gs & Hd & Hgs & ->).
    exists d, (concat (map (cons 44%N) gs)). repeat split.
    + now apply (proj2 (lang_plus_class _ _ _)).
    + apply (proj2 (lang_comma_groups _)). eauto.
Qed.

Lemma lang_token_letters w :
  lang true (Lit (js "token")) w <-> same_letters w "token".
Proof.
  unfold same_letters. cbn. unfold char_match, code_eqb. split.
  - intros (a1 & r1 & -> & (x1 & -> & H1) &
            a2 & r2 & -> & (x2 & -> & H2) &
            a3 & r3 & -> & (x3 & -> & H3) &
            a4 & r4 & -> & (x4 & -> & H4) & x5 & -> & H5).
    apply N.eqb_eq in H1, H2, H3, H4, H5. simpl. congruence.
  - intros H.
    destruct w as [|x1 [|x2 [|x3 [|x4 [|x5 [|x6 w]]]]]]; try discriminate.
    injection H as H1 H2 H3 H4 H5.
    exists [x1], [x2; x3; x4; x5]. repeat split.
    { exists x1. now rewrite H1. }
    exists [x2], [x3; x4; x5]. repeat split.
    { exists x2. now rewrite H2. }
    exists [x3], [x4; x5]. repeat split.
    { exists x3. now rewrite H3. }
    exists [x4], [x5]. repeat split.
    { exists x4. now rewrite H4. }
    exists x5. now rewrite H5.
Qed.

Lemma lang_token_word w :
  lang true (Seq (Lit (js "token")) (Opt (Char 115))) w <-> token_word w.
Proof.
  change (lang true (Seq (Lit (js "token")) (Opt (Char 115))) w)
    with (exists a1 a2, w = a1 ++ a2 /\ lang true (Lit (js "token")) a1 /\
            ((exists x, a2 = [x] /\ char_match true x 115 = true) \/ a2 = [])).
  unfold token_word. split.
  - intros (a1 & a2 & -> & H1 & H2).
    apply (proj1 (lang_token_letters _)) in H1.
    unfold same_letters in *. destruct H2 as [(x & -> & Hx)| ->].
    + right. rewrite map_app, H1. unfold char_match, code_eqb in Hx.
      apply N.eqb_eq in Hx. simpl. now rewrite Hx.
    + left. now rewrite app_nil_r.
  - intros [H|H]; unfold same_letters in H.
    + exists w, []. rewrite app_nil_r. repeat split; auto.
      now apply (proj2 (lang_token_letters _)).
    + destruct w as [|x1 [|x2 [|x3 [|x4 [|x5 [|x6 [|x7 w]]]]]]];
        try discriminate.
      injection H as H1 H2 H3 H4 H5 H6.
      exists [x1; x2; x3; x4; x5], [x6]. repeat split.
      * apply (proj2 (lang_token_letters _)).
        unfold same_letters. simpl. congruence.
      * left. exists x6. split; auto. unfold char_match, code_eqb.
        now rewrite H6.
Qed.

Lemma lang_token_suffix q :
  lang true token_suffix q <->
  exists ws w, q = ws ++ w /\ whitespace_run ws /\ token_word w.
Proof.
  unfold token_suffix.
  change (lang true (Seq (Star (Class is_whitespace))
                       (Seq (Lit (js "token")) (Opt (Char 115)))) q)
    with (exists a1 a2, q = a1 ++ a2 /\
            star_lang (lang true (Class is_whitespace)) a1 /\
            lang true (Seq (Lit (js "token")) (Opt (Char 115))) a2).
  split.
  - intros (a1 & a2 & -> & H1 & H2). exists a1, a2.
    apply (proj1 (lang_star_class _ _ _)) in H1.
    apply (proj1 (lang_token_word _)) in H2. auto.
  - intros (ws & w & -> & H1 & H2). exists ws, w.
    apply (proj2 (lang_star_class true _ _)) in H1.
    apply (proj2 (lang_token_word _)) in H2. auto.
Qed.

(** ** The leftmost match *)

Lemma exec_here re s m : exec_at re s = Some m -> exec re s = Some m.
Proof. intros H. destruct s; cbn [exec]; now rewrite H. Qed.

Lemma exec_skip re pre suf :
  (forall p1 p2, pre = p1 ++ p2 -> p2 <> [] -> exec_at re (p2 ++ suf) = None) ->
  exec re (pre ++ suf) = exec re suf.
Proof.
  induction pre as [|x pre IH]; intros H; [reflexivity|].
  pose proof (H [] (x :: pre) eq_refl ltac:(discriminate)) as H0.
  change ((x :: pre) ++ suf) with (x :: pre ++ suf) in H0 |- *.
  cbn [exec]. rewrite H0.
  apply IH. intros p1 p2 -> Hne. apply (H (x :: p1) p2); auto.
Qed.


Lemma exec_some_inv re s m :
  exec re s = Some m -> exists p1 p2, s = p1 ++ p2 /\ exec_at re p2 = Some m.
Proof.
  induction s as [|x s IH]; cbn [exec].
  - destruct (exec_at re []) eqn:E; [|discriminate].
    intros H. inversion H; subst. exists [], []. auto.
  - destruct (exec_at re (x :: s)) eqn:E.
    + intros H. inversion H; subst. exists [], (x :: s). auto.
    + intros H. destruct (IH H) as (p1 & p2 & -> & Hp).
      exists (x :: p1), p2. auto.
Qed.

(** ** One attempt of the token-count pattern *)

Lemma exec_at_token_unfold s :
  exec_at token_count s
  = mtch true grouped_digits s None
      (fun s1 _ =>
         mtch true token_suffix s1 (Some (firstn (length s - length s1) s))
           (fun s' c => Some (s', c))).
Proof. reflexivity. Qed.

Lemma firstn_consumed (a b : jsstring) :
  firstn (length (a ++ b) - length b) (a ++ b) = a.
Proof.
  rewrite length_app. replace (length a + length b - length b)%nat
    with (length a + 0)%nat by lia.
  rewrite firstn_app_2. simpl. apply app_nil_r.
Qed.

Lemma exec_at_token_sound s rest cap :
  exec_at token_count s = Some (rest, cap) ->
  exists num q,
    s = num ++ q ++ rest /\ grouped_number num /\
    lang true token_suffix q /\ cap = Some num.
Proof.
  rewrite exec_at_token_unfold. intros H.
  apply mtch_sound in H. destruct H as (num & s1 & c1 & -> & Ln & H & _).
  rewrite firstn_consumed in H.
  apply mtch_sound in H. destruct H as (q & s2 & c2 & -> & Lq & H & Hc).
  specialize (Hc eq_refl). subst c2. inversion H; subst.
  exists num, q. repeat split; auto. now apply lang_grouped_digits.
Qed.

Lemma exec_at_token_complete num q rest :
  grouped_number num -> lang true token_suffix q ->
  exec_at token_count (num ++ q ++ rest) <> None.
Proof.
  intros Hn Hq. rewrite exec_at_token_unfold.
  apply mtch_complete; [now apply lang_grouped_digits|].
  intros c. apply mtch_complete; [exact Hq|]. discriminate.
Qed.

(** ** The number of an occurrence is determined by where it starts *)

Lemma digit_run_chars d :
  digit_run d -> forallb is_digit_or_comma d = true.
Proof.
  intros [_ H]. induction d as [|c t IH]; simpl in *; auto.
  apply andb_true_iff in H. destruct H as [Hc Ht].
  unfold is_digit_or_comma at 1. rewrite Hc. simpl. auto.
Qed.

Lemma grouped_number_chars num :
  grouped_number num -> forallb is_digit_or_comma num = true.
Proof.
  intros (d & gs & Hd & Hgs & ->). rewrite forallb_app.
  rewrite (digit_run_chars d Hd). simpl.
  induction Hgs as [|g gs Hg Hgs IH]; simpl; auto.
  rewrite forallb_app, (digit_run_chars g Hg), IH. reflexivity.
Qed.

Lemma grouped_number_head num :
  grouped_number num -> exists c t, num = c :: t /\ is_digit c = true.
Proof.
  intros (d & gs & [Hne Hd] & _ & ->).
  destruct d as [|c t]; [congruence|].
  simpl in Hd. apply andb_true_iff in Hd. destruct Hd as [Hc _].
  exists c, (t ++ concat (map (cons 44%N) gs)). auto.
Qed.

Lemma token_word_head w :
  token_word w -> exists c t, w = c :: t /\ canonicalize c = 84%N.
Proof.
  unfold token_word, same_letters.
  intros [H|H]; (destruct w as [|c t]; [discriminate|]);
    injection H as Hc _; eauto.
Qed.

Lemma token_suffix_head q :
  lang true token_suffix q ->
  exists c t, q = c :: t /\ is_digit_or_comma c = false.
Proof.
  intros H. apply lang_token_suffix in H.
  destruct H as (ws & w & -> & Hws & Hw).
  destruct ws as [|c t].
  - destruct (token_word_head w Hw) as (c & t & -> & Hc).
    exists c, t. split; auto. now apply letter_t_not_digit_or_comma.
  - unfold whitespace_run in Hws. simpl in Hws.
    apply andb_true_iff in Hws. destruct Hws as [Hc _].
    exists c, (t ++ w). split; auto. now apply whitespace_not_digit_or_comma.
Qed.

Lemma take_while_prefix p (a : jsstring) c b :
  forallb p a = true -> p c = false -> take_while p (a ++ c :: b) = a.
Proof.
  induction a as [|x a IH]; simpl; intros Ha Hc.
  - now rewrite Hc.
  - apply andb_true_iff in Ha. destruct Ha as [Hx Ha].
    rewrite Hx. f_equal. auto.
Qed.

Lemma occurrence_number num q rest :
  grouped_number num -> lang true token_suffix q ->
  take_while is_digit_or_comma (num ++ q ++ rest) = num.
Proof.
  intros Hn Hq. destruct (token_suffix_head q Hq) as (c & t & -> & Hc).
  simpl. apply take_while_prefix; auto. now apply grouped_number_chars.
Qed.

Lemma token_occurrence_iff s pre num :
  token_occurrence s pre num <->
  exists q post,
    s = pre ++ num ++ q ++ post /\ grouped_number num /\
    lang true token_suffix q.
Proof.
  unfold token_occurrence. split.
  - intros (ws & w & post & -> & Hn & Hws & Hw).
    exists (ws ++ w), post. rewrite <- app_assoc. repeat split; auto.
    apply lang_token_suffix. eauto.
  - intros (q & post & -> & Hn & Hq).
    apply lang_token_suffix in Hq. destruct Hq as (ws & w & -> & Hws & Hw).
    exists ws, w, post. rewrite <- app_assoc. auto.
Qed.

(** The matcher succeeds at a position exactly when an occurrence starts
    there, and captures its number. *)
Lemma exec_at_token_occurrence suf :
  (exists num, token_occurrence suf [] num) <->
  exec_at token_count suf <> None.
Proof.
  split.
  - intros (num & H). apply token_occurrence_iff in H.
    destruct H as (q & post & -> & Hn & Hq).
    rewrite app_nil_l. now apply exec_at_token_complete.
  - destruct (exec_at token_count suf) as [[rest cap]|] eqn:E; [|congruence].
    intros _. apply exec_at_token_sound in E.
    destruct E as (num & q & -> & Hn & Hq & _).
    exists num. apply token_occurrence_iff. exists q, rest. auto.
Qed.

Lemma exec_at_token_capture suf num :
  token_occurrence suf [] num ->
  exists rest, exec_at token_count suf = Some (rest, Some num).
Proof.
  intros H.
  destruct (exec_at token_count suf) as [[rest cap]|] eqn:E.
  - apply exec_at_token_sound in E.
    destruct E as (num' & q' & Hs & Hn' & Hq' & ->).
    apply token_occurrence_iff in H.
    destruct H as (q & post & Hs2 & Hn & Hq). simpl in Hs2.
    assert (num' = num) as ->.
    { rewrite <- (occurrence_number num' q' rest Hn' Hq').
      rewrite <- (occurrence_number num q post Hn Hq). congruence. }
    eauto.
  - exfalso. revert E. apply exec_at_token_occurrence. eauto.
Qed.

Lemma token_occurrence_shift s pre num :
  token_occurrence (pre ++ s) pre num <-> token_occurrence s [] num.
Proof.
  unfold token_occurrence. split.
  - intros (ws & w & post & H & R). apply app_inv_head in H. subst s.
    exists ws, w, post. auto.
  - intros (ws & w & post & -> & R). exists ws, w, post. auto.
Qed.

(** [exec] returns the capture of the leftmost occurrence. *)
Lemma exec_token_leftmost s pre num :
  token_occurrence s pre num ->
  (forall pre' num', token_occurrence s pre' num' ->
                     (length pre <= length pre')%nat) ->
  exists rest, exec token_count s = Some (rest, Some num).
Proof.
  intros Hocc Hleft.
  assert (exists suf, s = pre ++ suf) as [suf ->].
  { destruct Hocc as (ws & w & post & -> & _). eauto. }
  apply token_occurrence_shift in Hocc.
  destruct (exec_at_token_capture suf num Hocc) as [rest Hx].
  exists rest. rewrite exec_skip; [now apply exec_here|].
  intros p1 p2 -> Hne.
  destruct (exec_at token_count (p2 ++ suf)) as [[r c]|] eqn:E; auto.
  exfalso.
  assert (exists n, token_occurrence (p2 ++ suf) [] n) as [n Hn].
  { apply exec_at_token_occurrence. congruence. }
  apply (token_occurrence_shift (p2 ++ suf) p1 n) in Hn.
  rewrite app_assoc in Hn. apply Hleft in Hn.
  rewrite length_app in Hn. destruct p2; [congruence | simpl in Hn; lia].
Qed.


Lemma exec_token_some s rest cap :
  exec token_count s = Some (rest, cap) ->
  exists pre num, token_occurrence s pre num /\ cap = Some num.
Proof.
  intros H. apply exec_some_inv in H. destruct H as (p1 & p2 & -> & H).
  apply exec_at_token_sound in H. destruct H as (num & q & -> & Hn & Hq & ->).
  exists p1, num. split; auto.
  apply token_occurrence_iff. exists q, rest. auto.
Qed.


(** ** Reading the captured number *)

Lemma exec_at_commas c t :
  exec_at commas (c :: t) = if (c =? 44)%N then Some (t, None) else None.
Proof. reflexivity. Qed.

Lemma replace_commas g : String_replace g commas [] = remove_commas g.
Proof.
  induction g as [|c t IH].
  - apply (String_replace_nil commas); reflexivity.
  - unfold remove_commas. cbn [filter]. destruct (c =? 44)%N eqn:E.
    + pose proof (exec_at_commas c t) as Hx. rewrite E in Hx.
      pose proof (String_replace_hit commas [] eq_refl [] c t None Hx) as Hr.
      cbn [app] in Hr. rewrite Hr. exact IH.
    + pose proof (exec_at_commas c t) as Hx. rewrite E in Hx.
      rewrite (String_replace_skip commas [] eq_refl c t Hx).
      cbn [negb]. f_equal. exact IH.
Qed.

Lemma remove_commas_digits num :
  forallb is_digit_or_comma num = true ->
  forallb is_digit (remove_commas num) = true.
Proof.
  unfold remove_commas.
  induction num as [|c t IH]; simpl; auto. intros H.
  apply andb_true_iff in H. destruct H as [Hc Ht].
  destruct (c =? 44)%N eqn:E; simpl; auto.
  unfold is_digit_or_comma in Hc. rewrite E, orb_false_r in Hc.
  rewrite Hc. auto.
Qed.

Lemma remove_commas_nonempty num :
  grouped_number num -> remove_commas num <> [].
Proof.
  intros H. destruct (grouped_number_head num H) as (c & t & -> & Hc).
  unfold remove_commas. cbn [filter].
  replace (c =? 44)%N with false; [discriminate|].
  symmetry. apply N.eqb_neq. apply is_digit_spec in Hc. lia.
Qed.

Lemma take_while_all p (s : jsstring) :
  forallb p s = true -> take_while p s = s.
Proof.
  induction s as [|c t IH]; simpl; auto. intros H.
  apply andb_true_iff in H. destruct H as [Hc Ht].
  rewrite Hc. f_equal. auto.
Qed.

Lemma read_sign_digit c t :
  is_digit c = true -> read_sign (c :: t) = (1%Z, c :: t).
Proof.
  intros H. apply is_digit_spec in H.
  assert (c = 48 \/ c = 49 \/ c = 50 \/ c = 51 \/ c = 52 \/ c = 53
          \/ c = 54 \/ c = 55 \/ c = 56 \/ c = 57)%N as Hc by lia.
  repeat (destruct Hc as [-> | Hc]; [reflexivity|]). now subst c.
Qed.

Lemma parseInt_digits ds :
  ds <> [] -> forallb is_digit ds = true ->
  parseInt ds = Some (digits_value ds).
Proof.
  intros Hne H. destruct ds as [|c t]; [congruence|].
  pose proof H as H'. simpl in H'. apply andb_true_iff in H'.
  destruct H' as [Hc _].
  unfold parseInt. cbn [drop_while]. rewrite (digit_not_whitespace c Hc).
  rewrite (read_sign_digit c t Hc). rewrite (take_while_all _ _ H).
  now rewrite Z.mul_1_l.
Qed.

Lemma digits_fold_nonneg ds :
  forallb is_digit ds = true ->
  forall acc, (0 <= acc)%Z ->
    (0 <= fold_left (fun a d => 10 * a + (Z.of_N d - 48)) ds acc)%Z.
Proof.
  induction ds as [|c t IH]; simpl; intros H acc Ha; auto.
  apply andb_true_iff in H. destruct H as [Hc Ht].
  apply IH; auto. apply is_digit_spec in Hc. lia.
Qed.

Lemma decimal_value_nonneg num :
  grouped_number num -> (0 <= decimal_value num)%Z.
Proof.
  intros H. unfold decimal_value, digits_value.
  apply digits_fold_nonneg; [|lia].
  apply remove_commas_digits. now apply grouped_number_chars.
Qed.

(** [parseInt] never yields [NaN] on the text the pattern captures. *)
Lemma captured_parses num :
  grouped_number num ->
  parseInt (String_replace num commas []) = Some (decimal_value num).
Proof.
  intros H. rewrite replace_commas. apply parseInt_digits.
  - now apply remove_commas_nonempty.
  - apply remove_commas_digits. now apply grouped_number_chars.
Qed.

(** ** [parseConversationTokens] from the result of [exec] *)

Lemma parse_of_match s rest num :
  grouped_number num ->
  exec token_count s = Some (rest, Some num) ->
  parseConversationTokens s = decimal_value num.
Proof.
  intros Hn H. unfold parseConversationTokens, String_match.
  destruct s as [|c t].
  - cbn [exec] in H. discriminate.
  - rewrite H. now rewrite captured_parses.
Qed.

Lemma parse_of_no_match s :
  exec token_count s = None ->
  parseConversationTokens s = estimateTokens s.
Proof.
  intros H. unfold parseConversationTokens, String_match.
  destruct s as [|c t]; [reflexivity|]. now rewrite H.
Qed.

Lemma parseConversationTokens_nonneg s :
  (0 <= parseConversationTokens s)%Z.
Proof.
  destruct (exec token_count s) as [[rest cap]|] eqn:E.
  - destruct (exec_token_some s rest cap E) as (pre & num & Hocc & ->).
    destruct Hocc as (ws & w & post & _ & Hn & _).
    rewrite (parse_of_match s rest num Hn E).
    now apply decimal_value_nonneg.
  - rewrite (parse_of_no_match s E). apply estimateTokens_nonneg.
Qed.

End TokenFacts.

(* ===================================================================== *)
(** * Token usage: the statements *)
(* ===================================================================== *)

Import RegExpFacts TokenFacts.

(** The percentage of a clamped count. *)
Lemma percentage_range (a b : Z) :
  (0 <= a <= b)%Z -> (0 < b)%Z ->
  (0 <= Math_round (product (quotient (inject_Z a) (inject_Z b)) 100)
   <= 100)%Z.
Proof.
  intros Ha Hb.
  apply (rounded_share_bounds (inject_Z a) (inject_Z b) 100).
  - change 0 with (inject_Z 0). now rewrite <- Zlt_Qlt.
  - change 0 with (inject_Z 0). rewrite <- Zle_Qle. lia.
  - rewrite <- Zle_Qle. lia.
  - lia.
Qed.

Lemma percentage_full (b : Z) :
  (0 < b)%Z ->
  Math_round (product (quotient (inject_Z b) (inject_Z b)) 100) = 100%Z.
Proof.
  intros Hb. apply (rounded_share_full (inject_Z b) 100).
  intros E. apply (inject_Z_injective b 0) in E. lia.
Qed.

Lemma percentage_near (a b : Z) :
  (0 <= a <= b)%Z -> (0 < b < 2 ^ 45)%Z ->
  let code := Math_round (product (quotient (inject_Z a) (inject_Z b)) 100) in
  let exact := Math_round (100 * inject_Z a / inject_Z b) in
  (exact - 1 <= code <= exact)%Z /\
  (((200 * a + b) mod (2 * b) <> 0)%Z -> code = exact).
Proof.
  intros Ha Hb code exact.
  assert (Hb' : 0 < inject_Z b).
  { change 0 with (inject_Z 0). rewrite <- Zlt_Qlt. lia. }
  destruct (rounded_share_near a b 100 7) as (E & N1 & N2); try lia.
  assert (X : exact = Math_round (inject_Z a / inject_Z b * inject_Z 100)).
  { apply Math_round_comp. change (inject_Z 100) with 100. field. lra. }
  rewrite X. split; [exact N1|].
  intros Hne. apply N2.
  replace (2 * (a * 100))%Z with (200 * a)%Z by lia. exact Hne.
Qed.

(** On doubles 29 of 200 is 14 percent: the quotient 0.145 times 100 is
    14.499999999999998 once rounded, where [round (100 * 29 / 200)] is 15. *)
Lemma calculateTokenUsage_half_way :
  let usage := calculateTokenUsage (Some (js "29 tokens")) 200 in
  let rawCurrent := parseConversationTokens (js "29 tokens") in
  rawCurrent = 29%Z /\
  percentage usage = 14%Z /\
  Math_round (100 * inject_Z (Z.min rawCurrent 200) / inject_Z 200) = 15%Z /\
  percentage usage
  <> Math_round (100 * inject_Z (Z.min rawCurrent 200) / inject_Z 200).
Proof. vm_compute. repeat split; discriminate. Qed.

(** C1, as the code has it.  For every summary and every maximum
    [maxTokens > 0], the usage [calculateTokenUsage] returns has a
    percentage in [0, 100]; the reported current count is the raw count
    clamped to the maximum, so the percentage is 100 whenever the raw count
    reaches the maximum.  The percentage is
    [Math.round ((safeCurrent / maxTokens) * 100)] with the quotient and
    the product rounded to doubles: for a maximum below [2^45] it equals
    [round (100 * min (rawCurrent, maxTokens) / maxTokens)] unless that
    fraction lies exactly half-way between two integers, where it is that
    value or the integer below it. *)
Theorem calculateTokenUsage_percentage
  (summary : option jsstring) (maxTokens : Z) :
  (0 < maxTokens)%Z ->
  let usage := calculateTokenUsage summary maxTokens in
  let rawCurrent := parseConversationTokens (or_empty summary) in
  let safeCurrent := Z.min rawCurrent maxTokens in
  let exact :=
    Math_round (100 * inject_Z safeCurrent / inject_Z maxTokens) in
  (0 <= percentage usage <= 100)%Z /\
  current usage = safeCurrent /\
  (0 <= current usage <= max usage)%Z /\
  ((maxTokens <= rawCurrent)%Z -> percentage usage = 100%Z) /\
  ((maxTokens < 2 ^ 45)%Z ->
   (exact - 1 <= percentage usage <= exact)%Z /\
   (((200 * safeCurrent + maxTokens) mod (2 * maxTokens) <> 0)%Z ->
    percentage usage = exact)).
Proof.
  intros Hmax usage rawCurrent safeCurrent exact.
  pose proof (parseConversationTokens_nonneg (or_empty summary)) as Hraw.
  fold rawCurrent in Hraw.
  assert (Hmin : (0 <= safeCurrent <= maxTokens)%Z) by (unfold safeCurrent; lia).
  assert (Hp : percentage usage
               = Math_round (product (quotient (inject_Z safeCurrent)
                                        (inject_Z maxTokens)) 100))
    by reflexivity.
  split; [|split; [|split; [|split]]].
  - rewrite Hp. now apply percentage_range.
  - reflexivity.
  - unfold usage, calculateTokenUsage. cbn [current max]. exact Hmin.
  - intros Hge. rewrite Hp.
    replace safeCurrent with maxTokens by (unfold safeCurrent; lia).
    now apply percentage_full.
  - intros Hsmall. rewrite Hp.
    apply (percentage_near safeCurrent maxTokens Hmin). lia.
Qed.

Lemma calculateTokenUsage_percentage_witness :
  percentage (calculateTokenUsage (Some (js "50,000 tokens")) 200000) = 25%Z.
Proof.
  apply (calculateTokenUsage_percentage (Some (js "50,000 tokens")) 200000).
  - reflexivity.
  - reflexivity.
  - vm_compute. discriminate.
Defined.

(** C7.  For every text [s], [estimateTokens s] is the length of the text
    with every run of white space collapsed to one space and then trimmed,
    divided by four and rounded up; the empty text and a text of white
    space only give 0. *)
Theorem estimateTokens_spec (s : jsstring) :
  estimateTokens s
  = Qceiling (inject_Z (Z.of_nat
       (length (String_trim (collapse_whitespace s)))) / 4) /\
  estimateTokens [] = 0%Z /\
  (forallb is_whitespace s = true -> estimateTokens s = 0%Z).
Proof.
  split; [exact (estimateTokens_eq s)|]. split; [reflexivity|].
  intros H. rewrite estimateTokens_eq. unfold estimate_spec.
  destruct (collapse_all_whitespace s H) as [-> | ->]; reflexivity.
Qed.

Lemma estimateTokens_spec_witness :
  estimateTokens (js "   ") = 0%Z.
Proof.
  apply (estimateTokens_spec (js "   ")). reflexivity.
Defined.



(* ===================================================================== *)
(** * The context warning *)
(* ===================================================================== *)

(** C9.  [getContextWarning] returns the nearly-full warning (the warning
    sign U+26A0 U+FE0F, then " Context window nearly full! Consider starting
    a new session.") exactly when the percentage is at least 90, the milder
    usage warning (the information sign U+2139 U+FE0F, then " Context usage
    is above 75%. Some history may be summarized.") exactly when it is at
    least 75 and below 90, and no warning exactly when it is below 75; the
    two texts differ.  So 92 gives the first, 80 the second and 50 none. *)
Theorem getContextWarning_thresholds (usage : TokenUsage) :
  let nearly_full :=
    [9888; 65039]%N
    ++ js " Context window nearly full! Consider starting a new session." in
  let usage_high :=
    [8505; 65039]%N
    ++ js " Context usage is above 75%. Some history may be summarized." in
  (getContextWarning usage = Some nearly_full
   <-> (90 <= percentage usage)%Z) /\
  (getContextWarning usage = Some usage_high
   <-> (75 <= percentage usage < 90)%Z) /\
  (getContextWarning usage = None <-> (percentage usage < 75)%Z) /\
  nearly_full <> usage_high /\
  (forall c m,
     getContextWarning {| current := c; max := m; percentage := 92 |}
     = Some nearly_full /\
     getContextWarning {| current := c; max := m; percentage := 80 |}
     = Some usage_high /\
     getContextWarning {| current := c; max := m; percentage := 50 |}
     = None).
Proof.
  intros nearly_full usage_high.
  assert (Hc : warning_critical = nearly_full) by reflexivity.
  assert (Hl : warning_low = usage_high) by reflexivity.
  assert (Hd : nearly_full <> usage_high) by discriminate.
  clearbody nearly_full usage_high.
  unfold getContextWarning, isContextCritical, isContextLow.
  rewrite Hc, Hl.
  destruct (Z.leb_spec 90 (percentage usage)) as [H90|H90];
    destruct (Z.leb_spec 75 (percentage usage)) as [H75|H75];
    repeat split; intros; try lia; try congruence; try discriminate.
Qed.

(* ===================================================================== *)
(** * Durations *)
(* ===================================================================== *)

Import Formatters.

Lemma Qfloor_nonneg (x : Q) : 0 <= x -> (0 <= Qfloor x)%Z.
Proof.
  intros H. change 0%Z with (Qfloor 0). now apply Qfloor_resp_le.
Qed.

Lemma Qfloor_lt_Z (x : Q) (n : Z) : x < inject_Z n -> (Qfloor x < n)%Z.
Proof.
  intros H. rewrite Zlt_Qlt.
  apply Qle_lt_trans with (y := x); [apply Qfloor_le | exact H].
Qed.

Lemma Qfloor_ge_Z (x : Q) (n : Z) : inject_Z n <= x -> (n <= Qfloor x)%Z.
Proof.
  intros H. rewrite <- (Qfloor_Z n). now apply Qfloor_resp_le.
Qed.

Section Duration.
Variable ms : Q.
Hypothesis ms_nonneg : 0 <= ms.

Let minutes : Z := Qfloor (ms / 60000).

Lemma minutes_nonneg : (0 <= minutes)%Z.
Proof.
  apply Qfloor_nonneg. apply Qle_shift_div_l; [reflexivity|].
  now rewrite Qmult_0_l.
Qed.

Lemma minutes_of_long : 3600000 <= ms -> (60 <= minutes)%Z.
Proof.
  intros H. apply Qfloor_ge_Z. apply Qle_shift_div_l; [reflexivity|].
  exact H.
Qed.

Lemma minutes_of_short : ms < 3600000 -> (minutes < 60)%Z.
Proof.
  intros H. apply Qfloor_lt_Z. apply Qlt_shift_div_r; [reflexivity|].
  exact H.
Qed.

Lemma minutes_of_seconds : ms < 60000 -> minutes = 0%Z.
Proof.
  intros H. pose proof minutes_nonneg.
  assert (minutes < 1)%Z; [|lia].
  apply Qfloor_lt_Z. apply Qlt_shift_div_r; [reflexivity|]. exact H.
Qed.

Lemma formatDuration_unfold :
  formatDuration ms
  = if (0 <? minutes / 60)%Z then
      if (0 <? minutes mod 60)%Z
      then Number_toString (minutes / 60) ++ js "h"
           ++ Number_toString (minutes mod 60) ++ js "m"
      else Number_toString (minutes / 60) ++ js "h"
    else Number_toString (minutes mod 60) ++ js "m".
Proof.
  unfold formatDuration, Math_floor, js_rem. fold minutes.
  change (inject_Z minutes / 60) with (inject_Z minutes / inject_Z 60).
  rewrite <- Zdiv_Qdiv.
  rewrite Z.rem_mod_nonneg by (pose proof minutes_nonneg; lia).
  reflexivity.
Qed.

End Duration.

(** The hour mark itself shows that a duration of at least one hour is not
    always rendered with its minutes. *)
Lemma formatDuration_exact_hour :
  formatDuration 3600000 = js "1h" /\ formatDuration 3600000 <> js "1h0m".
Proof. split; [reflexivity | discriminate]. Qed.

(** C5, as the code has it.  For every [ms >= 0], with [hours] and [mins]
    the whole hours and the remaining whole minutes of [ms]: from one hour
    on the result is [hours], the letter h, [mins], the letter m when
    [mins > 0], and only [hours] and the letter h when [mins = 0]; below one
    hour it is [mins] and the letter m; below one minute it is 0m. *)
Theorem formatDuration_spec (ms : Q) :
  0 <= ms ->
  let minutes := Qfloor (ms / 60000) in
  let hours := (minutes / 60)%Z in
  let mins := (minutes mod 60)%Z in
  (3600000 <= ms -> (0 < mins)%Z ->
   formatDuration ms
   = Number_toString hours ++ js "h" ++ Number_toString mins ++ js "m") /\
  (3600000 <= ms -> mins = 0%Z ->
   formatDuration ms = Number_toString hours ++ js "h") /\
  (ms < 3600000 -> formatDuration ms = Number_toString mins ++ js "m") /\
  (ms < 60000 -> formatDuration ms = js "0m").
Proof.
  intros Hms minutes hours mins.
  rewrite (formatDuration_unfold ms Hms). fold minutes hours mins.
  pose proof (minutes_nonneg ms Hms) as Hm. fold minutes in Hm.
  repeat split.
  - intros Hlong Hpos. pose proof (minutes_of_long ms Hlong) as H.
    fold minutes in H.
    assert (0 < hours)%Z by (apply Z.div_str_pos; lia).
    replace (0 <? hours)%Z with true by (symmetry; apply Z.ltb_lt; lia).
    replace (0 <? mins)%Z with true by (symmetry; apply Z.ltb_lt; lia).
    reflexivity.
  - intros Hlong Hzero. pose proof (minutes_of_long ms Hlong) as H.
    fold minutes in H.
    assert (0 < hours)%Z by (apply Z.div_str_pos; lia).
    replace (0 <? hours)%Z with true by (symmetry; apply Z.ltb_lt; lia).
    rewrite Hzero. reflexivity.
  - intros Hshort. pose proof (minutes_of_short ms Hshort) as H.
    fold minutes in H.
    assert (hours = 0)%Z as -> by (apply Z.div_small; lia).
    reflexivity.
  - intros Hsec. pose proof (minutes_of_seconds ms Hms Hsec) as H.
    fold minutes in H. unfold hours, mins. rewrite H. reflexivity.
Qed.

Lemma formatDuration_spec_witness :
  formatDuration 7265000 = js "2h1m".
Proof.
  apply (formatDuration_spec 7265000); [discriminate | discriminate | reflexivity].
Defined.

(* ===================================================================== *)
(** * The braille bar: its steps *)
(* ===================================================================== *)

Lemma currentStep_bounds (p : Q) (len : Z) :
  0 <= p -> p <= 100 -> (0 <= len)%Z ->
  (0 <= currentStep (brailleSteps p len) <= len * 6)%Z.
Proof.
  intros H0 H100 Hlen. unfold brailleSteps. cbn [currentStep].
  change (Z.of_nat (length brailleChars) - 1)%Z with 6%Z.
  apply rounded_share_bounds; [reflexivity | exact H0 | exact H100 | lia].
Qed.

(** On doubles 35 percent of a bar of 15 cells is step 31: 0.35 times 90 is
    31.499999999999996 once rounded, where [round (35 / 100 * 90)] is 32. *)
Lemma brailleSteps_half_way :
  let st := brailleSteps 35 15 in
  currentStep st = 31%Z /\
  fullBlocks st = 5%Z /\
  partialIndex st = 1%Z /\
  Math_round (35 / 100 * inject_Z (15 * 6)) = 32%Z /\
  currentStep st <> Math_round (35 / 100 * inject_Z (15 * 6)).
Proof. vm_compute. repeat split; discriminate. Qed.

(** C3, as the code has it.  Braille style, seven levels: for percentages
    [p1 <= p2] in [0, 100] and a length of at least 1, [currentStep] lies
    between 0 and six times the length and does not decrease from [p1] to
    [p2]; [fullBlocks] is [currentStep] divided by 6, rounded down, and is at
    most the length; [partialIndex] is [currentStep] modulo 6;
    [emptyBlocks] is the length minus [fullBlocks] minus one when
    [partialIndex > 0], it is not negative, and the three parts add up to
    the length.  [currentStep] is
    [Math.round ((percentage / 100) * totalSteps)] with the quotient and the
    product rounded to doubles: it is within one of
    [round (p / 100 * (length * 6))], and for a whole percentage it equals
    that value unless the exact product lies half-way between two integers,
    where it is that value or the integer below. *)
Theorem brailleSteps_spec (p1 p2 : Q) (len : Z) :
  0 <= p1 -> p1 <= p2 -> p2 <= 100 -> (1 <= len)%Z ->
  let st := brailleSteps p1 len in
  let partial := if (0 <? partialIndex st)%Z then 1%Z else 0%Z in
  let exact := Math_round (p1 / 100 * inject_Z (len * 6)) in
  (0 <= currentStep st <= len * 6)%Z /\
  (currentStep st <= currentStep (brailleSteps p2 len))%Z /\
  fullBlocks st = (currentStep st / 6)%Z /\
  partialIndex st = (currentStep st mod 6)%Z /\
  (0 <= fullBlocks st <= len)%Z /\
  emptyBlocks st = (len - fullBlocks st - partial)%Z /\
  (0 <= emptyBlocks st)%Z /\
  (fullBlocks st + emptyBlocks st + partial = len)%Z /\
  ((len < 2 ^ 50)%Z -> (exact - 1 <= currentStep st <= exact + 1)%Z) /\
  (forall k : Z,
     p1 == inject_Z k -> (len < 2 ^ 42)%Z ->
     (exact - 1 <= currentStep st <= exact)%Z /\
     (((12 * k * len + 100) mod 200 <> 0)%Z -> currentStep st = exact)).
Proof.
  intros H0 H12 H100 Hlen st partial exact.
  assert (p1 <= 100) as H1 by (eapply Qle_trans; eauto).
  pose proof (currentStep_bounds p1 len H0 H1 ltac:(lia)) as Hb.
  fold st in Hb.
  assert (fullBlocks st = (currentStep st / 6)%Z) as Hf.
  { unfold st, brailleSteps, Math_floor. cbn [fullBlocks currentStep].
    change (Z.of_nat (length brailleChars) - 1)%Z with 6%Z.
    now rewrite <- Zdiv_Qdiv. }
  assert (partialIndex st = (currentStep st mod 6)%Z) as Hp.
  { unfold st, brailleSteps, js_rem. cbn [partialIndex currentStep].
    change (Z.of_nat (length brailleChars) - 1)%Z with 6%Z.
    apply Z.rem_mod_nonneg; [|lia].
    apply (currentStep_bounds p1 len H0 H1). lia. }
  assert (emptyBlocks st = (len - fullBlocks st - partial)%Z) as He
    by reflexivity.
  assert (0 <= fullBlocks st <= len
          /\ (0 < partialIndex st -> fullBlocks st < len))%Z as Hr.
  { rewrite Hf, Hp. Z.div_mod_to_equations. lia. }
  assert (Hc : currentStep st
               = Math_round (product (quotient p1 100)
                               (inject_Z (len * 6)))) by reflexivity.
  split; [exact Hb|]. split.
  { unfold st, brailleSteps. cbn [currentStep].
    change (Z.of_nat (length brailleChars) - 1)%Z with 6%Z.
    apply rounded_share_le; [reflexivity | | exact H12].
    change 0 with (inject_Z 0). rewrite <- Zle_Qle. lia. }
  split; [exact Hf|]. split; [exact Hp|]. split; [lia|].
  split; [exact He|].
  assert (Hsum : (0 <= emptyBlocks st)%Z
                 /\ (fullBlocks st + emptyBlocks st + partial = len)%Z).
  { rewrite He. unfold partial.
    destruct (Z.ltb_spec 0 (partialIndex st)); lia. }
  split; [apply Hsum|]. split; [apply Hsum|]. split.
  - intros Hsmall. rewrite Hc.
    apply (rounded_share_within p1 100 (len * 6));
      [reflexivity | exact H0 | exact H1 | lia].
  - intros k Hk Hsmall.
    assert (Hk0 : (0 <= k <= 100)%Z).
    { rewrite Hk in H0, H1. change 0 with (inject_Z 0) in H0.
      change 100 with (inject_Z 100) in H1.
      rewrite <- Zle_Qle in H0, H1. lia. }
    destruct (rounded_share_near k 100 (len * 6) 45) as (_ & N1 & N2);
      try lia.
    assert (X : exact
                = Math_round (inject_Z k / inject_Z 100
                              * inject_Z (len * 6))).
    { unfold exact. apply Math_round_comp. now rewrite Hk. }
    assert (Y : currentStep st
                = Math_round (product (quotient (inject_Z k) (inject_Z 100))
                                (inject_Z (len * 6)))).
    { rewrite Hc. apply Math_round_comp. now rewrite Hk. }
    rewrite X, Y. split; [exact N1|].
    intros Hne. apply N2.
    replace (2 * (k * (len * 6)))%Z with (12 * k * len)%Z by lia.
    exact Hne.
Qed.

Lemma brailleSteps_spec_witness :
  fullBlocks (brailleSteps 50 5) = 2%Z
  /\ (currentStep (brailleSteps 50 5) <= currentStep (brailleSteps 75 5))%Z.
Proof.
  destruct (brailleSteps_spec 50 75 5) as (_ & Hm & Hf & _);
    [discriminate | discriminate | discriminate | lia |].
  split; [exact Hf | exact Hm].
Defined.

(* ===================================================================== *)
(** * Paths *)
(* ===================================================================== *)

Lemma last_two (l : list jsstring) :
  (2 <= length l)%nat -> exists front a b, l = front ++ [a; b].
Proof.
  intros H. destruct l as [|x l] using rev_ind; [simpl in H; lia|].
  clear IHl. destruct l as [|y l] using rev_ind.
  - simpl in H. lia.
  - clear IHl. exists l, y, x. now rewrite <- app_assoc.
Qed.

Lemma slice_last2_app (front : list jsstring) a b :
  slice_last2 (front ++ [a; b]) = [a; b].
Proof.
  unfold slice_last2. rewrite length_app. simpl length.
  replace (length front + 2 - 2)%nat with (length front + 0)%nat by lia.
  rewrite skipn_app, Nat.add_0_r, skipn_all.
  replace (length front - length front)%nat with 0%nat by lia.
  reflexivity.
Qed.

Lemma last_two_inj (f1 f2 : list jsstring) a1 b1 a2 b2 :
  f1 ++ [a1; b1] = f2 ++ [a2; b2] -> a1 = a2 /\ b1 = b2.
Proof.
  change (f1 ++ [a1; b1]) with (f1 ++ [a1] ++ [b1]).
  change (f2 ++ [a2; b2]) with (f2 ++ [a2] ++ [b2]).
  rewrite !app_assoc. intros H.
  apply app_inj_tail in H. destruct H as [H ->].
  apply app_inj_tail in H. destruct H as [_ ->]. auto.
Qed.

(** A directory right under the home directory has three segments and is
    not shortened: the condition is on the path after [~] has replaced the
    home directory. *)
Lemma formatPath_home_child :
  let os := {| homedir := js "/home/u"; sep := js "/" |} in
  length (segmentsOf (js "/home/u/proj")) = 3%nat /\
  formatPath os (js "/home/u/proj") (js "truncated") = js "~/proj" /\
  ~ In ELLIPSIS (formatPath os (js "/home/u/proj") (js "truncated")).
Proof.
  split; [reflexivity|]. split; [reflexivity|].
  vm_compute. intros H.
  repeat (destruct H as [H|H]; [discriminate H|]). exact H.
Qed.

(** C8, as the code has it.  The formatter of the hook renderer gives [~]
    for [.] and [~/src] for [src].  The formatter of the native renderer,
    in truncated mode, on a path that has more than two segments once [~]
    has replaced the home directory, gives the ellipsis, the separator and
    the last two segments joined by the separator; so it does on
    [src/a/b/c] whenever the home directory is not a prefix of it. *)
Theorem formatPath_spec :
  Git.formatPath (js ".") = js "~" /\
  Git.formatPath (js "src") = js "~/src" /\
  (forall os path,
     (2 < length (segmentsOf (homeSubstituted os path)))%nat ->
     exists front a b,
       segmentsOf (homeSubstituted os path) = front ++ [a; b] /\
       formatPath os path (js "truncated")
       = [ELLIPSIS] ++ sep os ++ a ++ sep os ++ b) /\
  (forall os,
     String_startsWith (js "src/a/b/c") (homedir os) = false ->
     formatPath os (js "src/a/b/c") (js "truncated")
     = [ELLIPSIS] ++ sep os ++ js "b" ++ sep os ++ js "c").
Proof.
  split; [reflexivity|]. split; [reflexivity|].
  assert (forall os path,
     (2 < length (segmentsOf (homeSubstituted os path)))%nat ->
     exists front a b,
       segmentsOf (homeSubstituted os path) = front ++ [a; b] /\
       formatPath os path (js "truncated")
       = [ELLIPSIS] ++ sep os ++ a ++ sep os ++ b) as G.
  { intros os path H.
    destruct (last_two (segmentsOf (homeSubstituted os path)) ltac:(lia))
      as (front & a & b & E).
    exists front, a, b. split; [exact E|].
    unfold formatPath.
    change (jsstring_eqb (js "truncated") (js "basename")) with false.
    change (jsstring_eqb (js "truncated") (js "truncated")) with true.
    apply Nat.ltb_lt in H. rewrite H. cbn [andb].
    rewrite E, slice_last2_app. reflexivity. }
  split; [exact G|].
  intros os Hhome.
  assert (homeSubstituted os (js "src/a/b/c") = js "src/a/b/c") as Hs.
  { unfold homeSubstituted. rewrite Hhome. now rewrite andb_false_r. }
  destruct (G os (js "src/a/b/c")) as (front & a & b & E & R).
  { rewrite Hs. vm_compute. lia. }
  rewrite R. rewrite Hs in E.
  change (segmentsOf (js "src/a/b/c"))
    with ([js "src"; js "a"] ++ [js "b"; js "c"]) in E.
  apply last_two_inj in E. destruct E as [<- <-]. reflexivity.
Qed.

Lemma formatPath_spec_witness :
  formatPath {| homedir := js "/home/u"; sep := js "/" |}
    (js "/home/u/work/app/src") (js "truncated")
  = [ELLIPSIS] ++ js "/app/src".
Proof.
  destruct (proj1 (proj2 (proj2 formatPath_spec))
              {| homedir := js "/home/u"; sep := js "/" |}
              (js "/home/u/work/app/src")) as (front & a & b & E & R).
  - vm_compute. lia.
  - rewrite R. clear R.
    change (segmentsOf (homeSubstituted {| homedir := js "/home/u"; sep := js "/" |}
                          (js "/home/u/work/app/src")))
      with ([js "~"; js "work"] ++ [js "app"; js "src"]) in E.
    apply last_two_inj in E. destruct E as [<- <-]. reflexivity.
Defined.

(* ===================================================================== *)
(** * Progress bars at 0 and at 100 *)
(* ===================================================================== *)

Module BarFacts.
Import Colors Display.

Lemma is_sgr_sgr body :
  forallb ansi_body (js body) = true -> is_sgr (sgr body).
Proof. intros H. exists (js body). split; [exact H | reflexivity]. Qed.

Lemma is_wrapper_sgr body :
  forallb ansi_body (js body) = true ->
  is_wrapper (fun text => sgr body ++ text ++ ANSI.reset).
Proof.
  intros H. exists (sgr body). split; [now apply is_sgr_sgr | reflexivity].
Qed.

Lemma getProgressBarColor_wrapper p colorMode :
  is_wrapper (getProgressBarColor p colorMode).
Proof.
  unfold getProgressBarColor.
  repeat match goal with
         | |- context [if ?b then _ else _] => destruct b
         end; apply is_wrapper_sgr; reflexivity.
Qed.

Lemma getProgressBarBackground_wrapper background :
  match getProgressBarBackground background with
  | Some f => is_wrapper f
  | None => True
  end.
Proof.
  unfold getProgressBarBackground.
  repeat match goal with
         | |- context [if ?b then _ else _] => destruct b
         end; try exact I; apply is_wrapper_sgr; reflexivity.
Qed.

Lemma drop_while_prefix p (a : jsstring) c b :
  forallb p a = true -> p c = false -> drop_while p (a ++ c :: b) = c :: b.
Proof.
  induction a as [|x a IH]; simpl; intros Ha Hc.
  - now rewrite Hc.
  - apply andb_true_iff in Ha. destruct Ha as [Hx Ha]. rewrite Hx. auto.
Qed.

Lemma exec_at_ansi_hit body rest :
  forallb ansi_body body = true ->
  exec_at ansi_codes (27%N :: 91%N :: body ++ 109%N :: rest)
  = Some (rest, None).
Proof.
  intros H.
  change (exec_at ansi_codes (27%N :: 91%N :: body ++ 109%N :: rest))
    with (star_loop false (Class ansi_body)
            (fun s1 c1 =>
               mtch false (Char 109) s1 c1 (fun s' c => Some (s', c)))
            (length (body ++ 109%N :: rest)) (body ++ 109%N :: rest) None).
  apply RegExpFacts.star_class_greedy; [lia|].
  rewrite drop_while_prefix; [reflexivity | exact H | reflexivity].
Qed.

Lemma exec_at_ansi_miss c t :
  c <> 27%N -> exec_at ansi_codes (c :: t) = None.
Proof.
  intros H. unfold exec_at. simpl pattern. cbn [mtch ignoreCase].
  unfold char_match, code_eqb.
  replace (c =? 27)%N with false; [reflexivity|].
  symmetry. now apply N.eqb_neq.
Qed.

Lemma strip_nil : stripAnsiCodes [] = [].
Proof. reflexivity. Qed.

Lemma strip_sgr code rest :
  is_sgr code -> stripAnsiCodes (code ++ rest) = stripAnsiCodes rest.
Proof.
  intros (body & Hb & ->). unfold stripAnsiCodes.
  pose proof (exec_at_ansi_hit body rest Hb) as Hx.
  pose proof (RegExpFacts.String_replace_hit ansi_codes [] eq_refl
                (91%N :: body ++ [109%N]) 27%N rest None) as Hr.
  replace ((27%N :: 91%N :: body ++ [109%N]) ++ rest)
    with (27%N :: (91%N :: body ++ [109%N]) ++ rest) by reflexivity.
  replace (27%N :: (91%N :: body ++ [109%N]) ++ rest)
    with (27%N :: 91%N :: body ++ 109%N :: rest) in Hr |- *
    by (simpl; now rewrite <- app_assoc).
  rewrite (Hr Hx). reflexivity.
Qed.

Lemma strip_plain g rest :
  ~ In 27%N g -> stripAnsiCodes (g ++ rest) = g ++ stripAnsiCodes rest.
Proof.
  induction g as [|c g IH]; intros H; [reflexivity|].
  unfold stripAnsiCodes in *. simpl app.
  rewrite (RegExpFacts.String_replace_skip ansi_codes [] eq_refl c (g ++ rest)).
  - f_equal. apply IH. intros Hin. apply H. now right.
  - apply exec_at_ansi_miss. intros ->. apply H. now left.
Qed.

Lemma is_sgr_reset : is_sgr ANSI.reset.
Proof. apply is_sgr_sgr. reflexivity. Qed.

(** Stripping a painted run leaves the run. *)
Lemma strip_paint colorFn bgFn y rest :
  is_wrapper colorFn ->
  match bgFn with Some f => is_wrapper f | None => True end ->
  ~ In 27%N y ->
  stripAnsiCodes (paint colorFn bgFn y ++ rest) = y ++ stripAnsiCodes rest.
Proof.
  intros (cc & Hcc & Hc) Hbg Hy. unfold paint.
  destruct bgFn as [f|].
  - destruct Hbg as (cf & Hcf & Hf). rewrite Hf, Hc.
    rewrite <- !app_assoc.
    rewrite (strip_sgr cf _ Hcf), (strip_sgr cc _ Hcc).
    rewrite (strip_plain y _ Hy).
    rewrite (strip_sgr _ _ is_sgr_reset), (strip_sgr _ _ is_sgr_reset).
    reflexivity.
  - rewrite Hc. rewrite <- !app_assoc.
    rewrite (strip_sgr cc _ Hcc), (strip_plain y _ Hy).
    rewrite (strip_sgr _ _ is_sgr_reset). reflexivity.
Qed.

Lemma concat_repeat_char (g : N) n : concat (repeat [g] n) = repeat g n.
Proof. induction n; simpl; congruence. Qed.

Lemma String_repeat_char g n :
  (0 <= n)%Z -> String_repeat [g] n = Some (repeat g (Z.to_nat n)).
Proof.
  intros H. unfold String_repeat.
  replace (n <? 0)%Z with false by (symmetry; apply Z.ltb_ge; lia).
  now rewrite concat_repeat_char.
Qed.

Lemma repeat_plain g n : g <> 27%N -> ~ In 27%N (repeat g n).
Proof. intros H Hin. apply repeat_spec in Hin. congruence. Qed.

Lemma filled_zero len :
  Math_round (product (quotient 0 100) (inject_Z len)) = 0%Z.
Proof. apply rounded_share_0. Qed.

Lemma filled_full len :
  Math_round (product (quotient 100 100) (inject_Z len)) = len.
Proof. apply rounded_share_full. discriminate. Qed.

(** A bar of two glyphs at 0 and at 100. *)
Lemma two_glyph_bar colorFn bgFn (e : N) n :
  is_wrapper colorFn ->
  match bgFn with Some f => is_wrapper f | None => True end ->
  e <> 27%N ->
  stripAnsiCodes (paint colorFn bgFn [] ++ paint colorFn bgFn (repeat e n))
  = repeat e n /\
  stripAnsiCodes (paint colorFn bgFn (repeat e n) ++ paint colorFn bgFn [])
  = repeat e n.
Proof.
  intros Hc Hb He. split.
  - rewrite (strip_paint colorFn bgFn [] _ Hc Hb) by (intros []).
    rewrite <- (app_nil_r (paint colorFn bgFn (repeat e n))).
    rewrite (strip_paint colorFn bgFn _ [] Hc Hb) by now apply repeat_plain.
    simpl. now rewrite strip_nil, app_nil_r.
  - rewrite (strip_paint colorFn bgFn _ _ Hc Hb) by now apply repeat_plain.
    rewrite <- (app_nil_r (paint colorFn bgFn [])).
    rewrite (strip_paint colorFn bgFn [] [] Hc Hb) by (intros []).
    simpl. now rewrite strip_nil, app_nil_r.
Qed.

Lemma brailleSteps_zero len :
  brailleSteps 0 len
  = {| totalSteps := len * 6; currentStep := 0; fullBlocks := 0;
       partialIndex := 0; emptyBlocks := len |}.
Proof.
  unfold brailleSteps.
  change (Z.of_nat (length brailleChars) - 1)%Z with 6%Z.
  rewrite filled_zero.
  change (Math_floor (inject_Z 0 / inject_Z 6)) with 0%Z.
  change (js_rem 0 6) with 0%Z. change (0 <? 0)%Z with false.
  cbv iota. f_equal. lia.
Qed.

Lemma brailleSteps_full len :
  (0 <= len)%Z ->
  brailleSteps 100 len
  = {| totalSteps := len * 6; currentStep := len * 6; fullBlocks := len;
       partialIndex := 0; emptyBlocks := 0 |}.
Proof.
  intros H. unfold brailleSteps.
  change (Z.of_nat (length brailleChars) - 1)%Z with 6%Z.
  rewrite filled_full. unfold Math_floor, js_rem.
  rewrite <- Zdiv_Qdiv, Z.div_mul by lia.
  rewrite Z.rem_mul by lia. change (0 <? 0)%Z with false.
  cbv iota. f_equal. lia.
Qed.

End BarFacts.
Import BarFacts Colors Display.

(** C6.  For every length of at least 1, every colour mode and every
    background, the bar rendered at 0 shows, once its escape sequences are
    stripped, the empty glyph of its style [length] times and nothing else,
    and the bar rendered at 100 shows the filled glyph of its style [length]
    times and nothing else; this holds for the styles filled, rectangle and
    braille. *)
Theorem formatProgressBar_extremes
  (len : Z) (style colorMode background : jsstring) :
  (1 <= len)%Z ->
  (exists bar,
     formatProgressBar 0 len style colorMode background = Some bar /\
     stripAnsiCodes bar = repeat (emptyGlyph style) (Z.to_nat len)) /\
  (exists bar,
     formatProgressBar 100 len style colorMode background = Some bar /\
     stripAnsiCodes bar = repeat (filledGlyph style) (Z.to_nat len)).
Proof.
  intros Hlen.
  pose proof (getProgressBarBackground_wrapper background) as Hb.
  unfold formatProgressBar, emptyGlyph, filledGlyph.
  destruct (jsstring_eqb style (js "rectangle"));
    [|destruct (jsstring_eqb style (js "braille"))].
  - unfold formatProgressBarRectangle.
    rewrite filled_zero, filled_full.
    rewrite Z.sub_0_r, Z.sub_diag.
    rewrite !String_repeat_char by lia. cbn [and_then Z.to_nat repeat].
    split; eexists; (split; [reflexivity|]);
      apply two_glyph_bar; auto using getProgressBarColor_wrapper;
      discriminate.
  - unfold formatProgressBarBraille.
    rewrite brailleSteps_zero, (brailleSteps_full len) by lia.
    cbn [fullBlocks partialIndex emptyBlocks].
    replace (0 <? len)%Z with true by (symmetry; apply Z.ltb_lt; lia).
    rewrite !String_repeat_char by lia.
    cbn [and_then Z.to_nat repeat Z.ltb Z.compare].
    split; eexists; (split; [reflexivity|]).
    + rewrite app_nil_l.
      apply two_glyph_bar; auto using getProgressBarColor_wrapper;
        discriminate.
    + rewrite app_nil_l.
      rewrite (strip_paint _ _ _ [] (getProgressBarColor_wrapper _ _) Hb)
        by (apply repeat_plain; discriminate).
      now rewrite strip_nil, app_nil_r.
  - unfold formatProgressBarFilled.
    rewrite filled_zero, filled_full.
    rewrite Z.sub_0_r, Z.sub_diag.
    rewrite !String_repeat_char by lia. cbn [and_then Z.to_nat repeat].
    split; eexists; (split; [reflexivity|]);
      apply two_glyph_bar; auto using getProgressBarColor_wrapper;
      discriminate.
Qed.

Lemma formatProgressBar_extremes_witness :
  exists bar,
    formatProgressBar 0 10 (js "braille") (js "progressive") (js "dark")
    = Some bar /\
    stripAnsiCodes bar = repeat BRAILLE_EMPTY 10.
Proof.
  apply (formatProgressBar_extremes 10 (js "braille") (js "progressive")
           (js "dark")).
  lia.
Defined.

(* ===================================================================== *)
(** * Configuration from the environment *)
(* ===================================================================== *)

Module ConfigFacts.
Import Config.
Import stdpp.base stdpp.gmap stdpp.strings.

(** X3.  The width of the bar is validated: whatever the environment holds,
    the configured width is positive. *)
Lemma loadConfig_progressBarWidth_positive (p : Process) :
  (0 < progressBarWidth (loadConfig p))%Z.
Proof.
  unfold loadConfig.
  repeat match goal with
         | |- context [if ?b then _ else _] => destruct b eqn:?
         | |- context [match ?x with Some _ => _ | None => _ end] =>
             destruct x eqn:?
         end; cbn; try lia.
Qed.

(** A value of [STATUSLINE_MAX_TOKENS] that is not a number leaves the
    default. *)
Lemma loadConfig_maxTokens_not_numeric (p : Process) :
  parseInt (or_empty (getEnv p "STATUSLINE_MAX_TOKENS")) = None ->
  maxTokens (loadConfig p) = maxTokens DEFAULT_CONFIG.
Proof.
  intros H. unfold loadConfig. rewrite H.
  repeat match goal with
         | |- context [if ?b then _ else _] => destruct b eqn:?
         | |- context [match ?x with Some _ => _ | None => _ end] =>
             destruct x eqn:?
         end; reflexivity.
Qed.

End ConfigFacts.
Import Config ConfigFacts.

(** C2, on the code: the value of [STATUSLINE_MAX_TOKENS] is applied
    whenever it parses, with no test of its sign, so [0] and [-5] replace
    the default maximum of 200000; the same values for
    [STATUSLINE_PROGRESS_WIDTH] are discarded. *)
Theorem loadConfig_nonpositive_maxTokens :
  maxTokens (loadConfig (process_with "STATUSLINE_MAX_TOKENS" (js "0")))
  = 0%Z /\
  maxTokens (loadConfig (process_with "STATUSLINE_MAX_TOKENS" (js "-5")))
  = (-5)%Z /\
  progressBarWidth
    (loadConfig (process_with "STATUSLINE_PROGRESS_WIDTH" (js "0")))
  = 20%Z /\
  progressBarWidth
    (loadConfig (process_with "STATUSLINE_PROGRESS_WIDTH" (js "-5")))
  = 20%Z.
Proof. repeat split; vm_compute; reflexivity. Qed.

(* ===================================================================== *)
(** * Failures at the entry points *)
(* ===================================================================== *)

Import Entry.

(** When rendering throws, the native entry point ends with code 1 and has
    written nothing to standard output. *)
Lemma native_failure_exits_1 :
  let boom := {| name := js "Error"; message := js "boom" |} in
  let r := native_run (Ok {| oneLine := true |}) (fun _ => Throw boom) in
  exitCode r = 1%Z /\
  stdout (streams r) = [] /\
  stderr (streams r) = [js "Error: boom"].
Proof. repeat split. Qed.

(** C4, as the code has it.  In a hook entry point a failure is caught
    inside [main]: the process ends with code 0 in every case, and when
    reading the input throws, or building the statusline throws on the token
    usage and the configuration [main] passes to it, standard output holds
    exactly the minimal envelope, with the hook's event name only, and
    standard error the message.  (When only the line for the log fails, the
    output is already written and the minimal envelope follows it.)  In the
    native entry point a failure of the configuration or of the rendering is
    caught by the handler at the top level, which writes the message to
    standard error, leaves standard output empty and ends the process with
    code 1; without a failure it ends with code 0. *)
Theorem entry_points_on_failure :
  (forall hookName process readInput buildStatusline formatCompact,
     exitCode
       (hook_run hookName process readInput buildStatusline formatCompact)
     = 0%Z) /\
  (forall hookName process readInput buildStatusline formatCompact e,
     readInput = Throw e \/
     (exists input,
        readInput = Ok input /\
        buildStatusline input (tokenUsageOf process input)
          (configOf process input) = Throw e) ->
     streams
       (hook_run hookName process readInput buildStatusline formatCompact)
     = {| stdout := [minimal_output hookName];
          stderr := [js "[Statusline] Error: " ++ error_text e] |}) /\
  (forall hookName process readInput buildStatusline formatCompact
          input display e,
     readInput = Ok input ->
     buildStatusline input (tokenUsageOf process input)
       (configOf process input) = Ok display ->
     formatCompact input (tokenUsageOf process input)
       (configOf process input) = Throw e ->
     streams
       (hook_run hookName process readInput buildStatusline formatCompact)
     = {| stdout :=
            [createHookOutput display (tokenUsageOf process input)
               (eventNameOf hookName input);
             minimal_output hookName];
          stderr := [js "[Statusline] Error: " ++ error_text e] |}) /\
  (forall loadConfigSync render e,
     loadConfigSync = Throw e \/
     (exists config, loadConfigSync = Ok config /\ render config = Throw e) ->
     native_run loadConfigSync render
     = {| streams := {| stdout := [];
                        stderr := [js "Error: " ++ message e] |};
          exitCode := 1 |}) /\
  (forall loadConfigSync render config output,
     loadConfigSync = Ok config -> render config = Ok output ->
     native_run loadConfigSync render
     = {| streams :=
            {| stdout := output :: (if oneLine config then [] else [[]]);
               stderr := [] |};
          exitCode := 0 |}).
Proof.
  split; [|split; [|split; [|split]]].
  - intros hookName process readInput buildStatusline formatCompact.
    unfold hook_run, hook_main, try_catch, hook_body, bind, call,
      write_stdout, console_error.
    destruct readInput as [input|e]; [|reflexivity].
    destruct (buildStatusline input _ _) as [display|e]; [|reflexivity].
    destruct (formatCompact input _ _) as [compact|e]; reflexivity.
  - intros hookName process readInput buildStatusline formatCompact e
           [-> | (input & -> & Hb)].
    + reflexivity.
    + unfold hook_run, hook_main, try_catch, hook_body, bind, call,
        write_stdout, console_error.
      rewrite Hb. reflexivity.
  - intros hookName process readInput buildStatusline formatCompact
           input display e -> Hb Hc.
    unfold hook_run, hook_main, try_catch, hook_body, bind, call,
      write_stdout, console_error.
    rewrite Hb, Hc. reflexivity.
  - intros loadConfigSync render e [-> | (config & -> & Hr)].
    + reflexivity.
    + unfold native_run, native_main, bind, call. rewrite Hr. reflexivity.
  - intros loadConfigSync render config output -> Hr.
    unfold native_run, native_main, bind, call, write_stdout, ret.
    rewrite Hr. destruct (oneLine config); reflexivity.
Qed.

(** A build that throws only on a usage of 12 percent: the input of the
    second run makes [main] pass exactly that usage. *)
Lemma entry_points_on_failure_witness :
  let boom := {| name := js "TypeError"; message := js "boom" |} in
  let display :=
    {| branch := []; path := []; progressBar := []; tokenInfo := [];
       fileStats := []; full := js "ok" |} in
  let build := fun (_ : HookInput) (usage : TokenUsage)
                   (_ : StatuslineConfig) =>
                 if (percentage usage =? 12)%Z then Throw boom
                 else Ok display in
  let input :=
    {| eventName := None;
       conversation_summary := Some (js "24,000 tokens");
       working_directory := None;
       model := None |} in
  streams
    (hook_run (js "SessionStart") (process_with "TERM" (js "xterm"))
       (Throw boom) build (fun _ _ _ => Ok []))
  = {| stdout := [minimal_output (js "SessionStart")];
       stderr := [js "[Statusline] Error: TypeError: boom"] |} /\
  streams
    (hook_run (js "SessionStart") (process_with "TERM" (js "xterm"))
       (Ok input) build (fun _ _ _ => Ok []))
  = {| stdout := [minimal_output (js "SessionStart")];
       stderr := [js "[Statusline] Error: TypeError: boom"] |}.
Proof.
  intros boom display build input.
  pose proof (proj1 (proj2 entry_points_on_failure)) as H.
  split.
  - apply (H (js "SessionStart") (process_with "TERM" (js "xterm"))
             (Throw boom) build (fun _ _ _ => Ok []) boom).
    left. reflexivity.
  - apply (H (js "SessionStart") (process_with "TERM" (js "xterm"))
             (Ok input) build (fun _ _ _ => Ok []) boom).
    right. exists input. split; [reflexivity|]. vm_compute. reflexivity.
Defined.

(* ===================================================================== *)
(** * Further properties *)
(* ===================================================================== *)

Lemma all_between_spec (lo hi : Z) (P : Z -> bool) :
  all_between lo hi P = true ->
  forall z, (lo <= z <= hi)%Z -> P z = true.
Proof.
  unfold all_between. intros H z Hz.
  rewrite forallb_forall in H.
  specialize (H (Z.to_nat (z - lo))).
  replace (lo + Z.of_nat (Z.to_nat (z - lo)))%Z with z in H by lia.
  apply H. apply in_seq. lia.
Qed.

Lemma same_spec x y : same x y = true -> x = Some y.
Proof.
  destruct x as [z|]; [|discriminate]. cbn. intros H.
  apply Z.eqb_eq in H. now subst.
Qed.

Lemma percentages_on_doubles :
  all_between 1 100 (fun max =>
    all_between 0 max (fun cur =>
      same (Binary64.percentage_double cur max)
        (Math_round (product (quotient (inject_Z cur) (inject_Z max)) 100))))
  = true.
Proof. vm_compute. reflexivity. Qed.

Lemma thousands_on_doubles :
  all_between 0 200 (fun k =>
    same (Binary64.percentage_double (1000 * k) 200000)
      (Math_round
         (product (quotient (inject_Z (1000 * k)) (inject_Z 200000)) 100)))
  = true.
Proof. vm_compute. reflexivity. Qed.

Lemma cells_on_doubles :
  all_between 0 100 (fun p =>
    all_between 0 60 (fun len =>
      same (Binary64.filled_double p len)
        (Math_round (product (quotient (inject_Z p) 100) (inject_Z len)))))
  = true.
Proof. vm_compute. reflexivity. Qed.

(** X1.  The rounding of the model against the doubles of the kernel:
    [Math.round ((a / b) * c)], evaluated on binary64 floating-point
    numbers, is the value the model computes with [quotient] and [product],
    for every count up to a maximum of at most 100, for the thousands up to
    200000, and for the cells of every whole percentage on a bar of at most
    60 cells.  At a half the order of the operations shows: 29 of 200 (and
    29000 of 200000) is 14.499999999999998 percent once the quotient is
    rounded, so [calculateTokenUsage] gives 14, where [Math.round] of the
    exact value 14.5 is 15; 30 of 200 gives 15 either way. *)
Theorem percentage_double_half :
  (forall max cur : Z,
     (1 <= max <= 100)%Z -> (0 <= cur <= max)%Z ->
     Binary64.percentage_double cur max
     = Some (Math_round
               (product (quotient (inject_Z cur) (inject_Z max)) 100))) /\
  (forall k : Z,
     (0 <= k <= 200)%Z ->
     Binary64.percentage_double (1000 * k) 200000
     = Some (Math_round
               (product (quotient (inject_Z (1000 * k)) (inject_Z 200000))
                  100))) /\
  (forall p len : Z,
     (0 <= p <= 100)%Z -> (0 <= len <= 60)%Z ->
     Binary64.filled_double p len
     = Some (Math_round
               (product (quotient (inject_Z p) 100) (inject_Z len)))) /\
  Binary64.percentage_double 29 200 = Some 14%Z /\
  percentage (calculateTokenUsage (Some (js "29 tokens")) 200) = 14%Z /\
  Math_round (29 / 200 * 100) = 15%Z /\
  Binary64.percentage_double 29000 200000 = Some 14%Z /\
  percentage (calculateTokenUsage (Some (js "29,000 tokens")) 200000)
  = 14%Z /\
  Math_round (29000 / 200000 * 100) = 15%Z /\
  Binary64.percentage_double 30 200 = Some 15%Z /\
  percentage (calculateTokenUsage (Some (js "30 tokens")) 200) = 15%Z /\
  Math_round (30 / 200 * 100) = 15%Z.
Proof.
  split; [|split; [|split]].
  - intros max cur Hmax Hcur. apply same_spec.
    pose proof (all_between_spec 1 100 _ percentages_on_doubles max Hmax)
      as H.
    cbv beta in H. exact (all_between_spec 0 max _ H cur Hcur).
  - intros k Hk. apply same_spec.
    exact (all_between_spec 0 200 _ thousands_on_doubles k Hk).
  - intros p len Hp Hlen. apply same_spec.
    pose proof (all_between_spec 0 100 _ cells_on_doubles p Hp) as H.
    cbv beta in H. exact (all_between_spec 0 60 _ H len Hlen).
  - repeat split; vm_compute; reflexivity.
Qed.

Lemma two_runs colorFn bgFn (f e : N) a b :
  is_wrapper colorFn ->
  match bgFn with Some g => is_wrapper g | None => True end ->
  f <> 27%N -> e <> 27%N ->
  stripAnsiCodes (paint colorFn bgFn (repeat f a)
                  ++ paint colorFn bgFn (repeat e b))
  = repeat f a ++ repeat e b.
Proof.
  intros Hc Hb Hf He.
  rewrite (strip_paint colorFn bgFn _ _ Hc Hb) by now apply repeat_plain.
  rewrite <- (app_nil_r (paint colorFn bgFn (repeat e b))).
  rewrite (strip_paint colorFn bgFn _ [] Hc Hb) by now apply repeat_plain.
  now rewrite strip_nil, app_nil_r.
Qed.

(** On doubles 58 percent of 25 cells is 14 cells: 0.58 times 25 is
    14.499999999999998 once rounded. *)
Lemma filled_half_way :
  Math_round (product (quotient 58 100) (inject_Z 25)) = 14%Z /\
  Math_round (58 / 100 * inject_Z 25) = 15%Z.
Proof. split; vm_compute; reflexivity. Qed.

(** X2.  For every percentage in [0, 100] and every length, the filled and
    the rectangle bars show [filled] filled glyphs followed by
    [length - filled] empty glyphs, [length] glyphs in all, where [filled]
    is [Math.round ((percentage / 100) * length)] with the quotient and the
    product rounded to doubles.  That count is within one of
    [round (percentage / 100 * length)], and for a whole percentage it is
    that value unless the exact product lies half-way between two integers,
    where it is that value or the integer below (14 cells for 58 percent of
    25). *)
Theorem two_glyph_bars_layout
  (p : Q) (len : Z) (colorMode background : jsstring) :
  0 <= p -> p <= 100 -> (0 <= len)%Z ->
  let filled := Math_round (product (quotient p 100) (inject_Z len)) in
  let exact := Math_round (p / 100 * inject_Z len) in
  (0 <= filled <= len)%Z /\
  (exists bar,
     formatProgressBarFilled p len colorMode background = Some bar /\
     stripAnsiCodes bar
     = repeat FULL_BLOCK (Z.to_nat filled)
       ++ repeat LIGHT_SHADE (Z.to_nat (len - filled)) /\
     length (stripAnsiCodes bar) = Z.to_nat len) /\
  (exists bar,
     formatProgressBarRectangle p len colorMode background = Some bar /\
     stripAnsiCodes bar
     = repeat BLACK_PARALLELOGRAM (Z.to_nat filled)
       ++ repeat WHITE_PARALLELOGRAM (Z.to_nat (len - filled)) /\
     length (stripAnsiCodes bar) = Z.to_nat len) /\
  ((len < 2 ^ 53)%Z -> (exact - 1 <= filled <= exact + 1)%Z) /\
  (forall k : Z,
     p == inject_Z k -> (len < 2 ^ 45)%Z ->
     (exact - 1 <= filled <= exact)%Z /\
     (((2 * k * len + 100) mod 200 <> 0)%Z -> filled = exact)).
Proof.
  intros H0 H100 Hlen filled exact.
  pose proof (rounded_share_bounds p 100 len ltac:(reflexivity) H0 H100 Hlen)
    as Hb.
  fold filled in Hb.
  pose proof (getProgressBarBackground_wrapper background) as Hbg.
  pose proof (getProgressBarColor_wrapper p colorMode) as Hc.
  split; [exact Hb|].
  unfold formatProgressBarFilled, formatProgressBarRectangle.
  fold filled. rewrite !String_repeat_char by lia. cbn [and_then].
  split; [|split; [|split]].
  - eexists. split; [reflexivity|].
    rewrite two_runs by (auto; discriminate).
    split; [reflexivity|]. rewrite length_app, !repeat_length. lia.
  - eexists. split; [reflexivity|].
    rewrite two_runs by (auto; discriminate).
    split; [reflexivity|]. rewrite length_app, !repeat_length. lia.
  - intros Hsmall.
    apply (rounded_share_within p 100 len);
      [reflexivity | exact H0 | exact H100 | lia].
  - intros k Hk Hsmall.
    assert (Hk0 : (0 <= k <= 100)%Z).
    { rewrite Hk in H0, H100. change 0 with (inject_Z 0) in H0.
      change 100 with (inject_Z 100) in H100.
      rewrite <- Zle_Qle in H0, H100. lia. }
    destruct (rounded_share_near k 100 len 45) as (_ & N1 & N2); try lia.
    assert (X : exact
                = Math_round (inject_Z k / inject_Z 100 * inject_Z len)).
    { unfold exact. apply Math_round_comp. now rewrite Hk. }
    assert (Y : filled
                = Math_round (product (quotient (inject_Z k) (inject_Z 100))
                                (inject_Z len))).
    { unfold filled. apply Math_round_comp. now rewrite Hk. }
    rewrite X, Y. split; [exact N1|].
    intros Hne. apply N2.
    replace (2 * (k * len))%Z with (2 * k * len)%Z by lia.
    exact Hne.
Qed.

Lemma two_glyph_bars_layout_witness :
  exists bar,
    formatProgressBarRectangle 58 25 (js "progressive") (js "none")
    = Some bar /\
    stripAnsiCodes bar
    = repeat BLACK_PARALLELOGRAM 14 ++ repeat WHITE_PARALLELOGRAM 11 /\
    length (stripAnsiCodes bar) = 25%nat.
Proof.
  destruct (two_glyph_bars_layout 58 25 (js "progressive") (js "none"))
    as (_ & _ & R & _); [discriminate | discriminate | lia |].
  exact R.
Defined.

(** The expectations of the repository's unit tests on the token
    utilities and on the path formatter of the hooks. *)
Example repository_tests :
  estimateTokens (js "hello world this is a test") = 7%Z /\
  estimateTokens [] = 0%Z /\
  estimateTokens (js "   ") = 0%Z /\
  calculateTokenUsage (Some (js "some text here")) 200000
  = {| current := 4; max := 200000; percentage := 0 |} /\
  Git.formatPath (js ".") = js "~" /\
  Git.formatPath (js "src") = js "~/src" /\
  Git.formatPath (js "src/features") = js "~/src/features" /\
  Git.formatPath (js "src/components/button/components")
  = js "~/src/.../components".
Proof. repeat split. Qed.

(* ===================================================================== *)
(** * Decimal numerals *)
(* ===================================================================== *)

Module NumberFacts.

Lemma digits_acc d : forall acc,
  fold_left (fun acc d => (10 * acc + (Z.of_N d - 48))%Z)
    (js (NilEmpty.string_of_uint d)) (Zpos acc)
  = Zpos (Pos.of_uint_acc d acc).
Proof.
  induction d; intros acc; cbn [NilEmpty.string_of_uint Pos.of_uint_acc];
    [reflexivity | ..];
    change (js (String ?c ?r)) with (N_of_ascii c :: js r);
    cbn [fold_left]; rewrite <- IHd; f_equal; cbn; lia.
Qed.

Lemma digits_of_uint d :
  digits_value (js (NilEmpty.string_of_uint d)) = Z.of_N (Pos.of_uint d).
Proof.
  unfold digits_value.
  induction d; cbn [NilEmpty.string_of_uint Pos.of_uint];
    [reflexivity | ..];
    change (js (String ?c ?r)) with (N_of_ascii c :: js r);
    cbn [fold_left]; [exact IHd | ..];
    cbn [Z.of_N]; rewrite <- digits_acc; f_equal.
Qed.

Lemma uint_digits d : forallb is_digit (js (NilEmpty.string_of_uint d)) = true.
Proof.
  induction d; cbn [NilEmpty.string_of_uint]; [reflexivity | ..];
    change (js (String ?c ?r)) with (N_of_ascii c :: js r);
    cbn [forallb]; rewrite IHd; reflexivity.
Qed.

Lemma to_uint_not_nil p : Pos.to_uint p <> Decimal.Nil.
Proof.
  intros H. pose proof (DecimalPos.Unsigned.of_to p) as E.
  rewrite H in E. discriminate.
Qed.

(** The numeral of a non-negative integer: a non-empty run of digits whose
    value is the integer. *)
Lemma Number_toString_digits (n : Z) :
  (0 <= n)%Z ->
  Number_toString n <> [] /\
  forallb is_digit (Number_toString n) = true /\
  digits_value (Number_toString n) = n.
Proof.
  intros Hn. destruct n as [|p|p]; [repeat split; discriminate | | lia].
  unfold Number_toString. cbn [Z.to_int NilZero.string_of_int].
  unfold NilZero.string_of_uint.
  pose proof (to_uint_not_nil p) as Hnil.
  pose proof (uint_digits (Pos.to_uint p)) as Hd.
  pose proof (digits_of_uint (Pos.to_uint p)) as Hv.
  rewrite DecimalPos.Unsigned.of_to in Hv.
  destruct (Pos.to_uint p) eqn:E; [congruence | ..];
    (split; [discriminate | split; [exact Hd | exact Hv]]).
Qed.

(** [parseInt] reads back what [toString] prints. *)
Lemma parseInt_Number_toString (n : Z) :
  parseInt (Number_toString n) = Some n.
Proof.
  destruct (Z.le_gt_cases 0 n) as [H | H].
  - destruct (Number_toString_digits n H) as (Hne & Hd & Hv).
    rewrite TokenFacts.parseInt_digits by assumption. now rewrite Hv.
  - destruct n as [|p|p]; try lia.
    destruct (Number_toString_digits (Zpos p)) as (Hne & Hd & Hv); [lia|].
    unfold Number_toString in *.
    cbn [Z.to_int NilZero.string_of_int] in *.
    change (js (String "-" ?r)) with (45%N :: js r).
    set (ds := js (NilZero.string_of_uint (Pos.to_uint p))) in *.
    unfold parseInt. cbn [drop_while].
    change (is_whitespace 45) with false. cbv iota. cbn [read_sign].
    rewrite TokenFacts.take_while_all by exact Hd.
    clearbody ds. destruct ds as [|c t]; [congruence|].
    cbv iota beta. rewrite Hv. reflexivity.
Qed.

End NumberFacts.

(* ===================================================================== *)
(** * Token counts: reading, estimating and printing *)
(* ===================================================================== *)

Module TokenMore.
Import NumberFacts.

Lemma remove_commas_plain d :
  forallb is_digit d = true -> remove_commas d = d.
Proof.
  unfold remove_commas. induction d as [|c t IH]; simpl; auto.
  intros H. apply andb_true_iff in H. destruct H as [Hc Ht].
  replace (c =? 44)%N with false.
  - simpl. f_equal. auto.
  - symmetry. apply N.eqb_neq. apply is_digit_spec in Hc. lia.
Qed.

Lemma printed_count_grouped (n : Z) :
  (0 <= n)%Z ->
  grouped_number (Number_toString n) /\
  decimal_value (Number_toString n) = n.
Proof.
  intros Hn. destruct (Number_toString_digits n Hn) as (Hne & Hd & Hv).
  split.
  - exists (Number_toString n), []. split; [split; assumption|].
    split; [constructor|]. simpl. now rewrite app_nil_r.
  - unfold decimal_value. now rewrite remove_commas_plain.
Qed.

(** A character found before the end of a prefix belongs to the prefix. *)
Lemma char_in_prefix (pre x pre' : jsstring) c y :
  pre ++ x = pre' ++ c :: y -> (length pre' < length pre)%nat -> In c pre.
Proof.
  revert pre'. induction pre as [|a pre IH]; intros pre' E L.
  - simpl in L. lia.
  - destruct pre' as [|a' pre'].
    + simpl in E. injection E as -> _. now left.
    + simpl in E. injection E as -> E. right.
      apply (IH pre' E). simpl in L. lia.
Qed.

(** ** White space around a text *)

Lemma drop_while_all p (a s : jsstring) :
  forallb p a = true -> drop_while p (a ++ s) = drop_while p s.
Proof.
  induction a as [|c t IH]; simpl; auto. intros H.
  apply andb_true_iff in H. destruct H as [Hc Ht]. rewrite Hc. auto.
Qed.

Lemma drop_while_app p (a b : jsstring) :
  drop_while p (a ++ b)
  = if forallb p a then drop_while p b else drop_while p a ++ b.
Proof.
  induction a as [|c t IH]; simpl; auto.
  destruct (p c); simpl; auto.
Qed.

Lemma drop_while_none p (a : jsstring) :
  forallb p a = true -> drop_while p a = [].
Proof.
  intros H. rewrite <- (app_nil_r a). now rewrite drop_while_all.
Qed.

Lemma drop_collapse_drop s :
  drop_while is_whitespace (collapse_whitespace s)
  = drop_while is_whitespace
      (collapse_whitespace (drop_while is_whitespace s)).
Proof.
  destruct s as [|c t]; [reflexivity|].
  cbn [drop_while]. destruct (is_whitespace c) eqn:E; [|reflexivity].
  now rewrite collapse_whitespace_head.
Qed.

Lemma drop_collapse_leading a s :
  forallb is_whitespace a = true ->
  drop_while is_whitespace (collapse_whitespace (a ++ s))
  = drop_while is_whitespace (collapse_whitespace s).
Proof.
  intros H. rewrite drop_collapse_drop, (drop_collapse_drop s).
  now rewrite drop_while_all.
Qed.

Lemma collapse_trailing b :
  forallb is_whitespace b = true ->
  forall n s, (length s <= n)%nat ->
  exists t, (t = [] \/ t = [32%N]) /\
            collapse_whitespace (s ++ b) = collapse_whitespace s ++ t.
Proof.
  intros Hb. induction n as [|n IH]; intros s Hs.
  - destruct s; [|simpl in Hs; lia]. simpl.
    destruct (collapse_all_whitespace b Hb) as [-> | ->]; eauto.
  - destruct s as [|c s'].
    + simpl. destruct (collapse_all_whitespace b Hb) as [-> | ->]; eauto.
    + destruct (is_whitespace c) eqn:E.
      * change ((c :: s') ++ b) with (c :: s' ++ b).
        rewrite !collapse_whitespace_head by exact E.
        rewrite drop_while_app.
        destruct (forallb is_whitespace s') eqn:A.
        -- rewrite drop_while_none by exact Hb.
           rewrite drop_while_none by exact A.
           exists []. split; [now left|]. reflexivity.
        -- destruct (IH (drop_while is_whitespace s')) as (t & Ht & Et).
           { pose proof (drop_while_length is_whitespace s').
             simpl in Hs. lia. }
           exists t. split; [exact Ht|]. simpl. now rewrite Et.
      * destruct (IH s') as (t & Ht & Et); [simpl in Hs; lia|].
        exists t. split; [exact Ht|].
        simpl. rewrite E. simpl. now rewrite Et.
Qed.

Lemma trim_trailing x t :
  t = [] \/ t = [32%N] -> String_trim (x ++ t) = String_trim x.
Proof.
  intros Ht. assert (forallb is_whitespace (rev t) = true) as Hr.
  { destruct Ht as [-> | ->]; reflexivity. }
  assert (forallb is_whitespace t = true) as Hw.
  { destruct Ht as [-> | ->]; reflexivity. }
  unfold String_trim. rewrite drop_while_app.
  destruct (forallb is_whitespace x) eqn:A.
  - rewrite (drop_while_none _ _ Hw), (drop_while_none _ _ A). reflexivity.
  - rewrite rev_app_distr. now rewrite drop_while_all.
Qed.

Lemma trim_collapse_padding a s b :
  forallb is_whitespace a = true -> forallb is_whitespace b = true ->
  String_trim (collapse_whitespace (a ++ s ++ b))
  = String_trim (collapse_whitespace s).
Proof.
  intros Ha Hb.
  transitivity (String_trim (collapse_whitespace (s ++ b))).
  - unfold String_trim. now rewrite drop_collapse_leading.
  - destruct (collapse_trailing b Hb (length s) s (le_n _)) as (t & Ht & ->).
    now apply trim_trailing.
Qed.

Lemma collapse_length s :
  (length (collapse_whitespace s) <= length s)%nat.
Proof.
  induction s as [|c t IH]; [simpl; lia|].
  cbn [collapse_whitespace]. destruct (is_whitespace c).
  - destruct t as [|c' t']; [simpl; lia|].
    destruct (is_whitespace c'); simpl in *; lia.
  - simpl. lia.
Qed.

Lemma trim_length s : (length (String_trim s) <= length s)%nat.
Proof.
  unfold String_trim. rewrite length_rev.
  pose proof (drop_while_length is_whitespace
                (rev (drop_while is_whitespace s))) as H1.
  rewrite length_rev in H1.
  pose proof (drop_while_length is_whitespace s). lia.
Qed.

End TokenMore.
Import NumberFacts TokenMore.

(** X6.  A count printed in decimal and followed by the word token or
    tokens is read back by [parseConversationTokens], whatever follows the
    word and whatever stands before the number, provided no digit does.  The
    count is a safe integer, below [2^53]: those are printed digit by digit
    and read back as they are. *)
Theorem parseConversationTokens_reads_printed_count
  (pre ws w post : jsstring) (n : Z) :
  forallb (fun c => negb (is_digit c)) pre = true ->
  (0 <= n < 2 ^ 53)%Z -> whitespace_run ws -> token_word w ->
  parseConversationTokens (pre ++ Number_toString n ++ ws ++ w ++ post) = n.
Proof.
  intros Hpre [Hn _] Hws Hw.
  destruct (printed_count_grouped n Hn) as [Hg Hv].
  set (s := pre ++ Number_toString n ++ ws ++ w ++ post).
  assert (token_occurrence s pre (Number_toString n)) as Hocc.
  { exists ws, w, post. repeat split; auto. }
  assert (forall pre' num', token_occurrence s pre' num' ->
                            (length pre <= length pre')%nat) as Hleft.
  { intros pre' num' (ws' & w' & post' & E & Hg' & _).
    destruct (Nat.le_gt_cases (length pre) (length pre')) as [L | L]; auto.
    exfalso. destruct (grouped_number_head num' Hg') as (c & t & -> & Hc).
    unfold s in E. simpl in E.
    pose proof (char_in_prefix _ _ _ _ _ E L) as Hin.
    rewrite forallb_forall in Hpre. specialize (Hpre c Hin).
    rewrite Hc in Hpre. discriminate. }
  destruct (exec_token_leftmost s pre _ Hocc Hleft) as [rest Hx].
  rewrite (parse_of_match s rest _ Hg Hx). exact Hv.
Qed.

Lemma parseConversationTokens_reads_printed_count_witness :
  parseConversationTokens
    (js "Used " ++ Number_toString 45000 ++ js " " ++ js "Tokens"
     ++ js " of 200000.") = 45000%Z.
Proof.
  apply (parseConversationTokens_reads_printed_count
           (js "Used ") (js " ") (js "Tokens") (js " of 200000.") 45000).
  - reflexivity.
  - split; [lia | reflexivity].
  - reflexivity.
  - right. reflexivity.
Defined.

(** X7.  White space before and after a text does not change its estimate,
    and the estimate never exceeds a quarter of the number of code units,
    rounded up. *)
Theorem estimateTokens_padding (a s b : jsstring) :
  whitespace_run a -> whitespace_run b ->
  estimateTokens (a ++ s ++ b) = estimateTokens s /\
  (estimateTokens (a ++ s ++ b)
   <= Math_ceil (inject_Z (Z.of_nat (length s)) / 4))%Z.
Proof.
  intros Ha Hb.
  assert (estimateTokens (a ++ s ++ b) = estimateTokens s) as E.
  { rewrite !estimateTokens_eq. unfold estimate_spec.
    now rewrite trim_collapse_padding. }
  split; [exact E|]. rewrite E, estimateTokens_eq.
  unfold estimate_spec, Math_ceil. rewrite !Qceiling_quarter.
  apply Z.div_le_mono; [lia|].
  pose proof (trim_length (collapse_whitespace s)).
  pose proof (collapse_length s). lia.
Qed.

Lemma estimateTokens_padding_witness :
  estimateTokens (js "  " ++ js "hello   world" ++ js " ")
  = estimateTokens (js "hello   world") /\
  (estimateTokens (js "  " ++ js "hello   world" ++ js " ")
   <= Math_ceil (inject_Z (Z.of_nat (length (js "hello   world"))) / 4))%Z.
Proof.
  apply (estimateTokens_padding (js "  ") (js "hello   world") (js " "));
    reflexivity.
Defined.

Lemma toFixed0_nonneg (x : Q) :
  0 <= x -> Number_toFixed x 0 = Number_toString (Math_round x).
Proof.
  intros H. unfold Number_toFixed, Math_round.
  destruct (x ?= 0) eqn:C.
  - cbn [app]. f_equal. apply Qfloor_comp.
    change (inject_Z (10 ^ Z.of_nat 0)) with 1. now rewrite Qmult_1_r.
  - exfalso. apply Qle_not_lt in H. apply H. exact C.
  - cbn [app]. f_equal. apply Qfloor_comp.
    change (inject_Z (10 ^ Z.of_nat 0)) with 1. now rewrite Qmult_1_r.
Qed.

Lemma round_thousands (count : Z) :
  Math_round (inject_Z count / 1000) = ((count + 500) / 1000)%Z.
Proof.
  unfold Math_round, Qfloor, Qdiv, Qmult, Qinv, Qplus, inject_Z. simpl.
  Z.div_mod_to_equations. lia.
Qed.

(** Rounding the quotient to a double does not change the nearest number of
    thousands: a half is a binary64 value, and any other quotient is too far
    from a half. *)
Lemma round_thousands_quotient (count : Z) :
  (0 <= count < 1000000)%Z ->
  Math_round (quotient (inject_Z count) 1000) = ((count + 500) / 1000)%Z.
Proof.
  intros Hc.
  assert (H0 : 0 <= inject_Z count / 1000).
  { apply Qle_shift_div_l; [reflexivity|].
    rewrite Qmult_0_l. change 0 with (inject_Z 0). rewrite <- Zle_Qle. lia. }
  assert (H1 : inject_Z count / 1000 < inject_Z (2 ^ 10)).
  { apply Qlt_shift_div_r; [reflexivity|].
    change (inject_Z (2 ^ 10) * 1000) with (inject_Z 1024000).
    rewrite <- Zlt_Qlt. lia. }
  destruct (Z.eq_dec ((2 * count + 1000) mod 2000) 0) as [T|T].
  - unfold quotient.
    rewrite (binary64_exact (inject_Z count / 1000)
               ((2 * count + 1000) / 2000 * 2 - 1) 1); try lia; try assumption.
    + apply round_thousands.
    + apply Qlt_trans with (inject_Z (2 ^ 10)); [exact H1 | reflexivity].
    + assert (E : (2 * count + 1000
                   = 2000 * ((2 * count + 1000) / 2000))%Z).
      { pose proof (Z.div_mod (2 * count + 1000) 2000 ltac:(lia)). lia. }
      set (k := ((2 * count + 1000) / 2000)%Z) in *.
      assert (E' : (count = 1000 * k - 500)%Z) by lia.
      rewrite E'. change (inject_Z (2 ^ 1)) with 2.
      rewrite inject_Z_sub, inject_Z_mult, inject_Z_sub, inject_Z_mult.
      change (inject_Z 1000) with 1000. change (inject_Z 500) with 500.
      change (inject_Z 2) with 2. change (inject_Z 1) with 1. field.
  - destruct (binary64_error 10 (inject_Z count / 1000) ltac:(lia) H0 H1)
      as [P1 P2].
    assert (F : inject_Z (2 * count + 1000) / inject_Z 2000 - (1 # 2)
                == inject_Z count / 1000).
    { rewrite inject_Z_plus, inject_Z_mult.
      change (inject_Z 1000) with 1000. change (inject_Z 2000) with 2000.
      change (inject_Z 2) with 2. field. }
    destruct (Math_round_near (quotient (inject_Z count) 1000)
                (1 / inject_Z (2 ^ (54 - 10))) (2 * count + 1000) 2000)
      as [_ N]; try (rewrite F; assumption); try lia; try reflexivity.
    + discriminate.
    + rewrite (N T).
      replace (2 * count + 1000)%Z with (2 * (count + 500))%Z by lia.
      change 2000%Z with (2 * 1000)%Z.
      now rewrite Z.div_mul_cancel_l by lia.
Qed.

(** X8.  From a thousand up to a million [formatTokenCount] prints the
    nearest number of thousands, a half going up, and the letter K; so the
    counts from 999500 on are printed as 1000K, the M form starting only at
    a million. *)
Theorem formatTokenCount_thousands (count : Z) :
  (1000 <= count < 1000000)%Z ->
  formatTokenCount count
  = Number_toString ((count + 500) / 1000) ++ js "K" /\
  ((999500 <= count)%Z -> formatTokenCount count = js "1000K").
Proof.
  intros [Hlo Hhi].
  assert (formatTokenCount count
          = Number_toString ((count + 500) / 1000) ++ js "K") as E.
  { unfold formatTokenCount.
    replace (1000000 <=? count)%Z with false by (symmetry; apply Z.leb_gt; lia).
    replace (1000 <=? count)%Z with true by (symmetry; apply Z.leb_le; lia).
    rewrite toFixed0_nonneg.
    - now rewrite round_thousands_quotient by lia.
    - apply binary64_nonneg. apply Qle_shift_div_l; [reflexivity|].
      rewrite Qmult_0_l. change 0 with (inject_Z 0).
      rewrite <- Zle_Qle. lia. }
  split; [exact E|]. intros H. rewrite E.
  replace ((count + 500) / 1000)%Z with 1000%Z; [reflexivity|].
  Z.div_mod_to_equations. lia.
Qed.

Lemma formatTokenCount_thousands_witness :
  formatTokenCount 999999
  = Number_toString ((999999 + 500) / 1000) ++ js "K" /\
  ((999500 <= 999999)%Z -> formatTokenCount 999999 = js "1000K").
Proof.
  apply (formatTokenCount_thousands 999999). lia.
Defined.

(** X9.  The colour name and the warning agree: a usage gets a warning
    exactly when [getTokenColor] calls its percentage low, and the critical
    warning is a case of it. *)
Theorem getTokenColor_low_iff_warning (usage : TokenUsage) :
  (getTokenColor (percentage usage) = js "low"
   <-> getContextWarning usage <> None) /\
  (isContextCritical usage 90 = true ->
   getTokenColor (percentage usage) = js "low").
Proof.
  unfold getTokenColor, getContextWarning, isContextCritical, isContextLow.
  destruct usage as [c m p]. cbn [percentage].
  destruct (90 <=? p)%Z eqn:A, (75 <=? p)%Z eqn:B, (25 <=? p)%Z eqn:C;
    try (apply Z.leb_le in A); try (apply Z.leb_gt in A);
    try (apply Z.leb_le in B); try (apply Z.leb_gt in B);
    try (apply Z.leb_le in C); try (apply Z.leb_gt in C);
    try lia;
    (split; [split; intros H; try discriminate; try reflexivity;
             try (exfalso; apply H; reflexivity)
            | intros H; try discriminate; reflexivity]).
Qed.

(* ===================================================================== *)
(** * Splitting and joining *)
(* ===================================================================== *)

Module SplitFacts.

Lemma split_acc_cons p cur s :
  exists h t, split_acc p [] s = h :: t /\
              split_acc p cur s = (rev cur ++ h) :: t.
Proof.
  revert cur. induction s as [|c s IH]; intros cur.
  - exists [], []. simpl. now rewrite app_nil_r.
  - simpl. destruct (p c).
    + exists [], (split_acc p [] s). simpl. now rewrite app_nil_r.
    + destruct (IH [c]) as (h & t & E & E1).
      destruct (IH (c :: cur)) as (h' & t' & E' & E2).
      rewrite E in E'. injection E' as <- <-.
      exists (c :: h), t. split; [exact E1|].
      rewrite E2. simpl. now rewrite <- app_assoc.
Qed.

Lemma String_split_cons p c s :
  String_split p (c :: s)
  = if p c then [] :: String_split p s
    else match String_split p s with
         | h :: t => (c :: h) :: t
         | [] => []
         end.
Proof.
  unfold String_split. simpl. destruct (p c); [reflexivity|].
  destruct (split_acc_cons p [c] s) as (h & t & E & E1).
  rewrite E, E1. reflexivity.
Qed.

Lemma String_split_not_nil p s : String_split p s <> [].
Proof.
  destruct (split_acc_cons p [] s) as (h & t & E & _).
  unfold String_split. rewrite E. discriminate.
Qed.

(** A piece without separator, a separator, and the rest. *)
Lemma String_split_app p (x : jsstring) c rest :
  forallb (fun a => negb (p a)) x = true -> p c = true ->
  String_split p (x ++ c :: rest) = x :: String_split p rest.
Proof.
  intros Hx Hc. induction x as [|a x IH].
  - simpl. rewrite String_split_cons, Hc. reflexivity.
  - simpl in Hx. apply andb_true_iff in Hx. destruct Hx as [Ha Hx].
    simpl. rewrite String_split_cons.
    apply negb_true_iff in Ha. rewrite Ha, (IH Hx). reflexivity.
Qed.

Lemma String_split_plain p (x : jsstring) :
  forallb (fun a => negb (p a)) x = true -> String_split p x = [x].
Proof.
  intros Hx. induction x as [|a x IH]; [reflexivity|].
  simpl in Hx. apply andb_true_iff in Hx. destruct Hx as [Ha Hx].
  rewrite String_split_cons. apply negb_true_iff in Ha.
  rewrite Ha, (IH Hx). reflexivity.
Qed.

Lemma Array_join_cons (x : jsstring) l sep :
  Array_join (x :: l) sep = x ++ concat (map (app sep) l).
Proof.
  revert x. induction l as [|y l IH]; intros x.
  - simpl. now rewrite app_nil_r.
  - change (Array_join (x :: y :: l) sep)
      with (x ++ sep ++ Array_join (y :: l) sep).
    rewrite IH. simpl. now rewrite <- app_assoc.
Qed.

(** Joining the pieces with the separator gives the text back. *)
Lemma join_split (c : N) s :
  Array_join (String_split (fun x => (x =? c)%N) s) [c] = s.
Proof.
  induction s as [|a s IH]; [reflexivity|].
  rewrite String_split_cons. destruct (a =? c)%N eqn:E.
  - apply N.eqb_eq in E. subst a.
    pose proof (String_split_not_nil (fun x => (x =? c)%N) s) as Hn.
    destruct (String_split (fun x => (x =? c)%N) s) as [|h t] eqn:Es;
      [congruence|].
    change (Array_join ([] :: h :: t) [c])
      with ([] ++ [c] ++ Array_join (h :: t) [c]).
    rewrite IH. reflexivity.
  - pose proof (String_split_not_nil (fun x => (x =? c)%N) s) as Hn.
    destruct (String_split (fun x => (x =? c)%N) s) as [|h t] eqn:Es;
      [congruence|].
    rewrite Array_join_cons in IH |- *.
    rewrite <- app_comm_cons. f_equal. exact IH.
Qed.

(** No piece holds a separator. *)
Lemma split_pieces_plain p s :
  Forall (fun g => forallb (fun a => negb (p a)) g = true)
    (String_split p s).
Proof.
  induction s as [|a s IH]; [repeat constructor|].
  rewrite String_split_cons. destruct (p a) eqn:E.
  - constructor; [reflexivity | exact IH].
  - destruct (String_split p s) as [|h t]; [constructor|].
    inversion IH; subst. constructor; [|assumption].
    simpl. now rewrite E.
Qed.

(** Splitting what was joined gives the pieces back. *)
Lemma split_join p (c : N) (x : jsstring) l :
  p c = true ->
  Forall (fun g => forallb (fun a => negb (p a)) g = true) (x :: l) ->
  String_split p (Array_join (x :: l) [c]) = x :: l.
Proof.
  intros Hc. revert x. induction l as [|y l IH]; intros x H.
  - inversion H; subst. now apply String_split_plain.
  - inversion H; subst.
    change (Array_join (x :: y :: l) [c])
      with (x ++ c :: Array_join (y :: l) [c]).
    rewrite String_split_app by assumption. f_equal. now apply IH.
Qed.

End SplitFacts.

(* ===================================================================== *)
(** * Escape sequences *)
(* ===================================================================== *)

Module StripFacts.
Import Colors Display RegExpFacts SplitFacts.

Definition no_digit_head (s : jsstring) : Prop :=
  match s with
  | [] => True
  | c :: _ => is_digit c = false
  end.

(** A greedy bounded run of digits takes all the digits in front of it when
    the continuation accepts what follows. *)
Lemma digits_upto_greedy {R : Type}
  (k : jsstring -> option jsstring -> option R) x s' cap :
  no_digit_head s' -> k s' cap = Some x ->
  forall n ds,
    (length ds <= n)%nat -> forallb is_digit ds = true ->
    mtch false (digits_upto n) (ds ++ s') cap k = Some x.
Proof.
  intros Hs Hk. induction n as [|n IH]; intros ds Hl Hd.
  - destruct ds; [exact Hk | simpl in Hl; lia].
  - destruct ds as [|d ds].
    + cbn [digits_upto Opt app mtch].
      destruct s' as [|c t]; [exact Hk|].
      simpl in Hs. rewrite Hs. exact Hk.
    + simpl in Hd. apply andb_true_iff in Hd. destruct Hd as [Hd Hds].
      cbn [digits_upto Opt app mtch]. rewrite Hd.
      rewrite IH; [reflexivity | simpl in Hl; lia | exact Hds].
Qed.

Definition no_param_head (s : jsstring) : Prop :=
  match s with
  | [] => True
  | c :: _ => is_digit c = false /\ c <> 59%N
  end.

Definition param_groups (gs : list jsstring) : jsstring :=
  concat (map (cons 59%N) gs).

Lemma param_groups_cons g gs :
  param_groups (g :: gs) = 59%N :: g ++ param_groups gs.
Proof. reflexivity. Qed.

Lemma no_digit_head_groups gs s' :
  no_param_head s' -> no_digit_head (param_groups gs ++ s').
Proof.
  destruct gs; simpl.
  - destruct s'; simpl; tauto.
  - reflexivity.
Qed.

(** The loop over the groups of a semicolon and digits takes them all. *)
Lemma param_star_greedy {R : Type}
  (k : jsstring -> option jsstring -> option R) x s' cap :
  no_param_head s' -> k s' cap = Some x ->
  forall gs fuel,
    forallb short_digits gs = true ->
    (length (param_groups gs ++ s') <= fuel)%nat ->
    star_loop false (Seq (Char 59) (digits_upto 4)) k fuel
      (param_groups gs ++ s') cap = Some x.
Proof.
  intros Hs Hk. induction gs as [|g gs IH]; intros fuel Hg Hf.
  - simpl. destruct fuel as [|fuel]; [exact Hk|].
    cbn [star_loop mtch]. destruct s' as [|c t]; [exact Hk|].
    destruct Hs as [_ Hc]. unfold char_match, code_eqb.
    replace (c =? 59)%N with false by (symmetry; now apply N.eqb_neq).
    exact Hk.
  - simpl in Hg. apply andb_true_iff in Hg. destruct Hg as [Hg Hgs].
    unfold short_digits in Hg. apply andb_true_iff in Hg.
    destruct Hg as [Hd Hl]. apply Nat.leb_le in Hl.
    rewrite param_groups_cons in *. set (tl := param_groups gs) in *.
    rewrite <- app_comm_cons, <- app_assoc in *.
    destruct fuel as [|fuel]; [simpl in Hf; lia|].
    cbn [star_loop]. cbn [mtch]. cbn [char_match code_eqb N.eqb Pos.eqb].
    rewrite (digits_upto_greedy _ x (tl ++ s') cap).
    + reflexivity.
    + now apply no_digit_head_groups.
    + replace (length (tl ++ s') =? length (59%N :: g ++ tl ++ s'))%nat
        with false
        by (symmetry; apply Nat.eqb_neq; simpl; rewrite !length_app; lia).
      apply IH; [exact Hgs|].
      simpl in Hf. rewrite !length_app in Hf. rewrite length_app. lia.
    + exact Hl.
    + exact Hd.
Qed.

Lemma sgr_parameters_inv body :
  sgr_parameters body = true ->
  exists d ds gs,
    body = (d :: ds) ++ param_groups gs /\
    is_digit d = true /\ forallb is_digit ds = true /\
    (length ds <= 3)%nat /\ forallb short_digits gs = true.
Proof.
  unfold sgr_parameters. intros H.
  pose proof (join_split 59 body) as J.
  destruct (String_split (fun c => (c =? 59)%N) body) as [|g gs];
    [discriminate|].
  apply andb_true_iff in H. destruct H as [H Hgs].
  apply andb_true_iff in H. destruct H as [Hne Hg].
  unfold short_digits in Hg. apply andb_true_iff in Hg.
  destruct Hg as [Hd Hl]. apply Nat.leb_le in Hl.
  destruct g as [|d ds]; [discriminate|].
  simpl in Hd. apply andb_true_iff in Hd. destruct Hd as [Hd Hds].
  exists d, ds, gs. rewrite Array_join_cons in J.
  change (concat (map (app [59%N]) gs)) with (param_groups gs) in J.
  repeat split; auto. simpl in Hl. lia.
Qed.

Lemma final_m : ansi_final 109 = true.
Proof. reflexivity. Qed.

(** One attempt of the pattern of [stripAnsi] at a colour code. *)
Lemma exec_at_sequence body rest :
  sgr_parameters body = true ->
  exec_at ansi_sequences (27%N :: 91%N :: body ++ 109%N :: rest)
  = Some (rest, None).
Proof.
  intros H. destruct (sgr_parameters_inv body H)
    as (d & ds & gs & -> & Hd & Hds & Hl & Hgs).
  unfold exec_at. cbn [pattern ansi_sequences ignoreCase].
  cbn [mtch]. change (ansi_introducer 27) with true. cbv iota.
  set (k2 := fun (s1 : jsstring) (c1 : option jsstring) =>
               mtch false (Seq (Opt ansi_parameters) (Class ansi_final))
                 s1 c1 (fun s' c => Some (s', c))).
  change (star_loop false (Class ansi_punctuation) k2
            (length (91%N :: ((d :: ds) ++ param_groups gs) ++ 109%N :: rest))
            (91%N :: ((d :: ds) ++ param_groups gs) ++ 109%N :: rest) None
          = Some (rest, None)).
  apply star_class_greedy; [lia|].
  assert (ansi_punctuation d = false) as Hp.
  { apply TokenFacts.is_digit_spec in Hd. unfold ansi_punctuation.
    repeat (apply orb_false_iff; split); apply N.eqb_neq; lia. }
  cbn [drop_while app]. change (ansi_punctuation 91) with true. cbv iota.
  rewrite Hp. unfold k2. cbn [mtch Opt ansi_parameters digits_1to4].
  rewrite Hd. rewrite <- app_assoc.
  rewrite (digits_upto_greedy _ (rest, None : option jsstring)
             (param_groups gs ++ 109%N :: rest) None).
  - reflexivity.
  - apply no_digit_head_groups. simpl. split; [reflexivity | discriminate].
  - change (star_loop false (Seq (Char 59) (digits_upto 4))
              (fun s1 c1 =>
                 mtch false (Class ansi_final) s1 c1
                   (fun s' c => Some (s', c)))
              (length (param_groups gs ++ 109%N :: rest))
              (param_groups gs ++ 109%N :: rest) None
            = Some (rest, None)).
    apply param_star_greedy; auto.
    simpl. split; [reflexivity | discriminate].
  - exact Hl.
  - exact Hds.
Qed.

Lemma exec_at_sequence_miss c t :
  ansi_introducer c = false -> exec_at ansi_sequences (c :: t) = None.
Proof.
  intros H. unfold exec_at. cbn [pattern ansi_sequences mtch]. now rewrite H.
Qed.

Lemma stripAnsi_code body rest :
  sgr_parameters body = true ->
  stripAnsi ((27%N :: 91%N :: body ++ [109%N]) ++ rest) = stripAnsi rest.
Proof.
  intros H. unfold stripAnsi.
  pose proof (exec_at_sequence body rest H) as Hx.
  pose proof (String_replace_hit ansi_sequences [] eq_refl
                (91%N :: body ++ [109%N]) 27%N rest None) as Hr.
  replace ((27%N :: 91%N :: body ++ [109%N]) ++ rest)
    with (27%N :: 91%N :: body ++ 109%N :: rest)
    by (simpl; now rewrite <- app_assoc).
  replace (27%N :: (91%N :: body ++ [109%N]) ++ rest)
    with (27%N :: 91%N :: body ++ 109%N :: rest) in Hr
    by (simpl; now rewrite <- app_assoc).
  rewrite (Hr Hx). reflexivity.
Qed.

Lemma stripAnsi_plain g rest :
  plain_text g -> stripAnsi (g ++ rest) = g ++ stripAnsi rest.
Proof.
  unfold plain_text. induction g as [|c g IH]; intros H; [reflexivity|].
  simpl in H. apply andb_true_iff in H. destruct H as [Hc Hg].
  apply negb_true_iff in Hc.
  unfold stripAnsi in *. simpl app.
  rewrite (String_replace_skip ansi_sequences [] eq_refl c (g ++ rest)).
  - f_equal. now apply IH.
  - now apply exec_at_sequence_miss.
Qed.

(** The shape of every member of [colors]: a colour code in front, the
    reset code behind. *)
Definition coloured_by (body : string) (f : ColorFunction) : Prop :=
  forall x, f x = sgr body ++ x ++ ANSI.reset.

Lemma colors_shape :
  Forall (fun nf => exists body,
            coloured_by body (snd nf) /\
            sgr_parameters (js body) = true /\
            forallb ansi_body (js body) = true) colors.
Proof.
  unfold colors.
  repeat (constructor;
          [eexists; split; [intros x; reflexivity | split; reflexivity]|]).
  constructor.
Qed.

Lemma member_shape name f :
  In (name, f) colors ->
  exists body, coloured_by body f /\ sgr_parameters (js body) = true /\
               forallb ansi_body (js body) = true.
Proof.
  intros H. pose proof colors_shape as S.
  rewrite Forall_forall in S. exact (S (name, f) H).
Qed.

Lemma plain_no_esc text : plain_text text -> ~ In 27%N text.
Proof.
  unfold plain_text. intros H Hin. rewrite forallb_forall in H.
  specialize (H _ Hin). discriminate.
Qed.

Lemma sgr_unfold body : sgr body = 27%N :: 91%N :: js body ++ [109%N].
Proof. reflexivity. Qed.

Lemma stripAnsi_coloured body f text rest :
  coloured_by body f -> sgr_parameters (js body) = true ->
  plain_text text ->
  stripAnsi (f text ++ rest) = text ++ stripAnsi rest.
Proof.
  intros Hf Hb Hp. rewrite Hf. rewrite <- !app_assoc.
  rewrite sgr_unfold, (stripAnsi_code _ _ Hb).
  rewrite (stripAnsi_plain _ _ Hp).
  change ANSI.reset with (27%N :: 91%N :: js "0" ++ [109%N]).
  now rewrite stripAnsi_code.
Qed.

Lemma stripAnsi_outer body f inner :
  coloured_by body f -> sgr_parameters (js body) = true ->
  stripAnsi (f inner) = stripAnsi (inner ++ ANSI.reset).
Proof.
  intros Hf Hb. rewrite Hf. rewrite sgr_unfold.
  now rewrite (stripAnsi_code _ _ Hb).
Qed.

Lemma stripAnsi_reset : stripAnsi ANSI.reset = [].
Proof. reflexivity. Qed.

Lemma is_sgr_body body :
  forallb ansi_body (js body) = true -> is_sgr (sgr body).
Proof. intros H. exists (js body). split; [exact H | reflexivity]. Qed.

Lemma stripAnsiCodes_coloured body f text rest :
  coloured_by body f -> forallb ansi_body (js body) = true ->
  ~ In 27%N text ->
  stripAnsiCodes (f text ++ rest) = text ++ stripAnsiCodes rest.
Proof.
  intros Hf Hb Hp. rewrite Hf. rewrite <- !app_assoc.
  rewrite (BarFacts.strip_sgr _ _ (is_sgr_body body Hb)).
  rewrite (BarFacts.strip_plain _ _ Hp).
  now rewrite (BarFacts.strip_sgr _ _ BarFacts.is_sgr_reset).
Qed.

Lemma stripAnsiCodes_outer body f inner :
  coloured_by body f -> forallb ansi_body (js body) = true ->
  stripAnsiCodes (f inner) = stripAnsiCodes (inner ++ ANSI.reset).
Proof.
  intros Hf Hb. rewrite Hf.
  now rewrite (BarFacts.strip_sgr _ _ (is_sgr_body body Hb)).
Qed.

End StripFacts.
Import SplitFacts StripFacts.

(** X10.  [stripAnsi] undoes every member of [colors]: on a text without
    ESC and CSI the colour code in front and the reset code behind are
    removed and the text is left as it is, also when more text follows and
    when a second member is applied on top of the first. *)
Theorem stripAnsi_undoes_colors (name : string) (f : ColorFunction)
  (text rest : jsstring) :
  In (name, f) Colors.colors -> plain_text text ->
  stripAnsi (f text ++ rest) = text ++ stripAnsi rest /\
  stripAnsi (f text) = text /\
  (forall name' g, In (name', g) Colors.colors -> stripAnsi (g (f text)) = text).
Proof.
  intros Hin Hp.
  destruct (member_shape name f Hin) as (body & Hf & Hb & _).
  split; [now apply (stripAnsi_coloured body)|]. split.
  - rewrite <- (app_nil_r (f text)).
    rewrite (stripAnsi_coloured body f text [] Hf Hb Hp).
    apply app_nil_r.
  - intros name' g Hg.
    destruct (member_shape name' g Hg) as (body' & Hf' & Hb' & _).
    rewrite (stripAnsi_outer body' g _ Hf' Hb').
    rewrite (stripAnsi_coloured body f text _ Hf Hb Hp).
    rewrite stripAnsi_reset. apply app_nil_r.
Qed.

Lemma stripAnsi_undoes_colors_witness :
  stripAnsi (orange (js "42%") ++ js " used") = js "42%" ++ stripAnsi (js " used").
Proof.
  apply (stripAnsi_undoes_colors "orange" orange (js "42%") (js " used")).
  - unfold Colors.colors. do 4 right. left. reflexivity.
  - reflexivity.
Defined.

(** X11.  [stripAnsiCodes], the pattern of the hooks, undoes every member
    of [colors] as well: the text between the colour code and the reset code
    is left, provided it holds no ESC. *)
Theorem stripAnsiCodes_undoes_colors (name : string) (f : ColorFunction)
  (text rest : jsstring) :
  In (name, f) Colors.colors -> ~ In 27%N text ->
  stripAnsiCodes (f text ++ rest) = text ++ stripAnsiCodes rest /\
  stripAnsiCodes (f text) = text /\
  (forall name' g, In (name', g) Colors.colors ->
                   stripAnsiCodes (g (f text)) = text).
Proof.
  intros Hin Hp.
  destruct (member_shape name f Hin) as (body & Hf & _ & Hb).
  split; [now apply (stripAnsiCodes_coloured body)|]. split.
  - rewrite <- (app_nil_r (f text)).
    rewrite (stripAnsiCodes_coloured body f text [] Hf Hb Hp).
    rewrite BarFacts.strip_nil. apply app_nil_r.
  - intros name' g Hg.
    destruct (member_shape name' g Hg) as (body' & Hf' & _ & Hb').
    rewrite (stripAnsiCodes_outer body' g _ Hf' Hb').
    rewrite (stripAnsiCodes_coloured body f text _ Hf Hb Hp).
    replace (stripAnsiCodes ANSI.reset) with (@nil N) by reflexivity.
    apply app_nil_r.
Qed.

Lemma stripAnsiCodes_undoes_colors_witness :
  stripAnsiCodes (bgPeach (js "main") ++ js "*")
  = js "main" ++ stripAnsiCodes (js "*").
Proof.
  apply (stripAnsiCodes_undoes_colors "bgPeach" bgPeach (js "main") (js "*")).
  - unfold Colors.colors. do 6 right. left. reflexivity.
  - intros H. simpl in H. intuition discriminate.
Defined.

(* ===================================================================== *)
(** * Progress bars: width and range *)
(* ===================================================================== *)

Module BarMore.
Import Colors Display BarFacts.

Lemma brailleSteps_parts (p : Q) (len : Z) :
  0 <= p -> p <= 100 -> (0 <= len)%Z ->
  let st := brailleSteps p len in
  (0 <= fullBlocks st <= len)%Z /\
  (0 <= partialIndex st < 6)%Z /\
  emptyBlocks st
  = (len - fullBlocks st - (if (0 <? partialIndex st)%Z then 1 else 0))%Z /\
  (0 <= emptyBlocks st)%Z.
Proof.
  intros H0 H100 Hlen st.
  pose proof (currentStep_bounds p len H0 H100 Hlen) as Hb. fold st in Hb.
  assert (fullBlocks st = (currentStep st / 6)%Z) as Hf.
  { unfold st, brailleSteps, Math_floor. cbn [fullBlocks currentStep].
    change (Z.of_nat (length brailleChars) - 1)%Z with 6%Z.
    now rewrite <- Zdiv_Qdiv. }
  assert (partialIndex st = (currentStep st mod 6)%Z) as Hp.
  { unfold st, brailleSteps, js_rem. cbn [partialIndex currentStep].
    change (Z.of_nat (length brailleChars) - 1)%Z with 6%Z.
    apply Z.rem_mod_nonneg; [|lia].
    apply (currentStep_bounds p len H0 H100 Hlen). }
  assert (emptyBlocks st
          = (len - fullBlocks st
             - (if (0 <? partialIndex st)%Z then 1 else 0))%Z) as He
    by reflexivity.
  assert (0 <= fullBlocks st <= len
          /\ (0 < partialIndex st -> fullBlocks st < len)
          /\ 0 <= partialIndex st < 6)%Z as Hr.
  { rewrite Hf, Hp. Z.div_mod_to_equations. lia. }
  repeat split; try lia; auto.
  rewrite He. destruct (Z.ltb_spec 0 (partialIndex st)); lia.
Qed.

(** The glyph of a partial cell. *)
Lemma partial_glyph (i : Z) :
  (0 < i < 6)%Z ->
  exists g, nth (Z.to_nat i) brailleChars (js "undefined") = [g] /\
            g <> 27%N.
Proof.
  intros H.
  assert (i = 1 \/ i = 2 \/ i = 3 \/ i = 4 \/ i = 5)%Z as Hi by lia.
  destruct Hi as [-> | [-> | [-> | [-> | ->]]]];
    eexists; (split; [reflexivity | discriminate]).
Qed.

Lemma strip_paint_end colorFn bgFn y :
  is_wrapper colorFn ->
  match bgFn with Some f => is_wrapper f | None => True end ->
  ~ In 27%N y ->
  stripAnsiCodes (paint colorFn bgFn y) = y.
Proof.
  intros Hc Hb Hy. rewrite <- (app_nil_r (paint colorFn bgFn y)).
  rewrite (strip_paint colorFn bgFn y [] Hc Hb Hy).
  rewrite strip_nil. apply app_nil_r.
Qed.

Lemma two_glyph_width (f e : N) (p : Q) (len : Z) colorFn bgFn :
  is_wrapper colorFn ->
  match bgFn with Some g => is_wrapper g | None => True end ->
  f <> 27%N -> e <> 27%N ->
  0 <= p -> p <= 100 -> (0 <= len)%Z ->
  let filled := Math_round (product (quotient p 100) (inject_Z len)) in
  exists bar,
    (filledBar <- String_repeat [f] filled ;;
     emptyBar <- String_repeat [e] (len - filled) ;;
     Some (paint colorFn bgFn filledBar ++ paint colorFn bgFn emptyBar))
    = Some bar /\
    length (stripAnsiCodes bar) = Z.to_nat len.
Proof.
  intros Hc Hb Hf He H0 H100 Hlen filled.
  pose proof (rounded_share_bounds p 100 len ltac:(reflexivity) H0 H100 Hlen)
    as B.
  fold filled in B.
  rewrite !String_repeat_char by lia. cbn [and_then].
  eexists. split; [reflexivity|].
  rewrite two_runs by assumption.
  rewrite length_app, !repeat_length. lia.
Qed.

Lemma braille_layout (p : Q) (len : Z) (colorMode background : jsstring) :
  0 <= p -> p <= 100 -> (0 <= len)%Z ->
  let st := brailleSteps p len in
  exists bar,
    formatProgressBarBraille p len colorMode background = Some bar /\
    stripAnsiCodes bar
    = repeat BRAILLE_FULL (Z.to_nat (fullBlocks st))
      ++ (if (0 <? partialIndex st)%Z
          then nth (Z.to_nat (partialIndex st)) brailleChars []
          else [])
      ++ repeat BRAILLE_EMPTY (Z.to_nat (emptyBlocks st)) /\
    length (stripAnsiCodes bar) = Z.to_nat len.
Proof.
  intros H0 H100 Hlen st.
  destruct (brailleSteps_parts p len H0 H100 Hlen)
    as (Hf & Hp & He & Hn). fold st in Hf, Hp, He, Hn.
  pose proof (getProgressBarBackground_wrapper background) as Hbg.
  pose proof (getProgressBarColor_wrapper p colorMode) as Hc.
  unfold formatProgressBarBraille. fold st. clearbody st.
  rewrite String_repeat_char by lia. cbn [and_then].
  set (colorFn := getProgressBarColor p colorMode) in *.
  set (bgFn := getProgressBarBackground background) in *.
  assert (exists tail,
            (if (0 <? emptyBlocks st)%Z
             then emptyRun <- String_repeat [BRAILLE_EMPTY] (emptyBlocks st) ;;
                  Some (paint colorFn bgFn emptyRun)
             else Some []) = Some tail /\
            stripAnsiCodes tail
            = repeat BRAILLE_EMPTY (Z.to_nat (emptyBlocks st)))
    as (tail & -> & Ht).
  { destruct (Z.ltb_spec 0 (emptyBlocks st)) as [L | L].
    - rewrite String_repeat_char by lia. cbn [and_then].
      eexists. split; [reflexivity|].
      apply strip_paint_end; auto. apply repeat_plain. discriminate.
    - exists []. split; [reflexivity|].
      replace (emptyBlocks st) with 0%Z by lia. reflexivity. }
  cbn [and_then]. eexists. split; [reflexivity|].
  assert (stripAnsiCodes
            (paint colorFn bgFn (repeat BRAILLE_FULL (Z.to_nat (fullBlocks st)))
             ++ (if (0 <? partialIndex st)%Z
                 then paint colorFn bgFn
                        (nth (Z.to_nat (partialIndex st)) brailleChars
                           (js "undefined"))
                 else [])
             ++ tail)
          = repeat BRAILLE_FULL (Z.to_nat (fullBlocks st))
            ++ (if (0 <? partialIndex st)%Z
                then nth (Z.to_nat (partialIndex st)) brailleChars []
                else [])
            ++ repeat BRAILLE_EMPTY (Z.to_nat (emptyBlocks st))) as E.
  { rewrite (strip_paint colorFn bgFn _ _ Hc Hbg)
      by (apply repeat_plain; discriminate).
    f_equal. destruct (Z.ltb_spec 0 (partialIndex st)) as [L | L].
    - destruct (partial_glyph (partialIndex st)) as (g & Hg & Hne); [lia|].
      rewrite Hg.
      replace (nth (Z.to_nat (partialIndex st)) brailleChars [])
        with [g].
      + rewrite (strip_paint colorFn bgFn [g] _ Hc Hbg).
        * now rewrite Ht.
        * intros [Hin | []]. congruence.
      + rewrite <- Hg. apply nth_indep.
        change (length brailleChars) with 7%nat. lia.
    - exact Ht. }
  split; [exact E|].
  etransitivity; [apply (f_equal (@length N)); exact E|].
  rewrite !length_app, !repeat_length.
  destruct (Z.ltb_spec 0 (partialIndex st)) as [L | L].
  - destruct (partial_glyph (partialIndex st)) as (g & Hg & Hne); [lia|].
    replace (nth (Z.to_nat (partialIndex st)) brailleChars []) with [g].
    + simpl. replace (0 <? partialIndex st)%Z with true in He
        by (symmetry; apply Z.ltb_lt; lia). lia.
    + rewrite <- Hg. apply nth_indep.
      change (length brailleChars) with 7%nat. lia.
  - simpl. replace (0 <? partialIndex st)%Z with false in He
      by (symmetry; apply Z.ltb_ge; lia). lia.
Qed.

Lemma repeat_throws g (n : Z) :
  String_repeat [g] n = None <-> (n < 0)%Z.
Proof.
  unfold String_repeat. destruct (Z.ltb_spec n 0); split; intros E;
    try reflexivity; try discriminate; lia.
Qed.

Lemma two_glyph_throws (f e : N) (filled len : Z) colorFn bgFn :
  (filledBar <- String_repeat [f] filled ;;
   emptyBar <- String_repeat [e] (len - filled) ;;
   Some (paint colorFn bgFn filledBar ++ paint colorFn bgFn emptyBar))
  = None <-> (filled < 0 \/ len < filled)%Z.
Proof.
  unfold String_repeat.
  destruct (Z.ltb_spec filled 0), (Z.ltb_spec (len - filled) 0);
    cbn [and_then]; split; intros E; try reflexivity; try discriminate; lia.
Qed.

End BarMore.
Import BarMore.

(** X12.  The braille bar, for a percentage in [0, 100]: its visible text
    is [fullBlocks] full cells, then the cell of [partialIndex] when that is
    positive, then [emptyBlocks] empty cells, and it has [length] cells in
    all.  The numbers are those of [brailleSteps], which rounds as the
    doubles do: at 35 percent a bar of 15 cells has five full cells and then
    the cell of index 1. *)
Theorem formatProgressBarBraille_layout
  (p : Q) (len : Z) (colorMode background : jsstring) :
  0 <= p -> p <= 100 -> (0 <= len)%Z ->
  let st := brailleSteps p len in
  exists bar,
    formatProgressBarBraille p len colorMode background = Some bar /\
    stripAnsiCodes bar
    = repeat BRAILLE_FULL (Z.to_nat (fullBlocks st))
      ++ (if (0 <? partialIndex st)%Z
          then nth (Z.to_nat (partialIndex st)) brailleChars []
          else [])
      ++ repeat BRAILLE_EMPTY (Z.to_nat (emptyBlocks st)) /\
    length (stripAnsiCodes bar) = Z.to_nat len.
Proof. exact (braille_layout p len colorMode background). Qed.

Lemma formatProgressBarBraille_layout_witness :
  exists bar,
    formatProgressBarBraille 35 15 (js "progressive") (js "dark") = Some bar /\
    stripAnsiCodes bar
    = repeat BRAILLE_FULL 5 ++ [10436%N] ++ repeat BRAILLE_EMPTY 9 /\
    length (stripAnsiCodes bar) = 15%nat.
Proof.
  apply (formatProgressBarBraille_layout 35 15 (js "progressive") (js "dark"));
    [discriminate | discriminate | lia].
Defined.

(** X13.  Whatever the style, the colour mode and the background,
    [formatProgressBar] returns, for a percentage in [0, 100], a bar whose
    visible text has exactly [length] glyphs. *)
Theorem formatProgressBar_width
  (p : Q) (len : Z) (style colorMode background : jsstring) :
  0 <= p -> p <= 100 -> (0 <= len)%Z ->
  exists bar,
    formatProgressBar p len style colorMode background = Some bar /\
    length (stripAnsiCodes bar) = Z.to_nat len.
Proof.
  intros H0 H100 Hlen.
  pose proof (BarFacts.getProgressBarBackground_wrapper background) as Hbg.
  pose proof (BarFacts.getProgressBarColor_wrapper p colorMode) as Hc.
  unfold formatProgressBar.
  destruct (jsstring_eqb style (js "rectangle")).
  - apply two_glyph_width; auto; discriminate.
  - destruct (jsstring_eqb style (js "braille")).
    + destruct (braille_layout p len colorMode background H0 H100 Hlen)
        as (bar & E & _ & L).
      exists bar. auto.
    + apply two_glyph_width; auto; discriminate.
Qed.

Lemma formatProgressBar_width_witness :
  exists bar,
    formatProgressBar 33 15 (js "braille") (js "peach") (js "none")
    = Some bar /\
    length (stripAnsiCodes bar) = 15%nat.
Proof.
  apply (formatProgressBar_width 33 15 (js "braille") (js "peach") (js "none"));
    [discriminate | discriminate | lia].
Defined.

(** For whole percentages from -200 to 300 and lengths up to 30 the count
    of filled glyphs leaves the range from 0 to the length exactly when
    [round (percentage / 100 * length)] does. *)
Lemma range_on_small_bars :
  all_between (-200) 300 (fun p =>
    all_between 0 30 (fun len =>
      Bool.eqb
        (out_of_range
           (Math_round (product (quotient (inject_Z p) 100) (inject_Z len)))
           len)
        (out_of_range (Math_round (inject_Z p / 100 * inject_Z len)) len)))
  = true.
Proof. vm_compute. reflexivity. Qed.

(** X14.  Outside [0, 100] the styles differ.  The filled and the rectangle
    bars throw (the [RangeError] of [repeat]) exactly when the rounded number
    of filled glyphs is negative or exceeds the length; the braille bar
    returns for every percentage that is not negative, also above 100.  The
    number of filled glyphs is [Math.round ((percentage / 100) * length)] as
    the doubles give it; for the whole percentages from -200 to 300 and the
    lengths up to 30 it is out of range exactly when
    [round (percentage / 100 * length)] is. *)
Theorem progress_bar_range
  (p : Q) (len : Z) (colorMode background : jsstring) :
  let filled := Math_round (product (quotient p 100) (inject_Z len)) in
  let exact := Math_round (p / 100 * inject_Z len) in
  (formatProgressBarFilled p len colorMode background = None
   <-> (filled < 0 \/ len < filled)%Z) /\
  (formatProgressBarRectangle p len colorMode background = None
   <-> (filled < 0 \/ len < filled)%Z) /\
  (0 <= p -> (0 <= len)%Z ->
   formatProgressBarBraille p len colorMode background <> None) /\
  (forall k : Z,
     p == inject_Z k -> (-200 <= k <= 300)%Z -> (0 <= len <= 30)%Z ->
     ((filled < 0 \/ len < filled) <-> (exact < 0 \/ len < exact))%Z).
Proof.
  intros filled exact. split; [apply two_glyph_throws|].
  split; [apply two_glyph_throws|]. split.
  - intros H0 Hlen. unfold formatProgressBarBraille.
    assert (0 <= fullBlocks (brailleSteps p len))%Z as Hf.
    { unfold brailleSteps, Math_floor. cbn [fullBlocks].
      change (Z.of_nat (length brailleChars) - 1)%Z with 6%Z.
      rewrite <- Zdiv_Qdiv. apply Z.div_pos; [|lia].
      rewrite <- (rounded_share_0 100 (inject_Z (len * 6))).
      apply rounded_share_le; [reflexivity | | exact H0].
      change 0 with (inject_Z 0). rewrite <- Zle_Qle. lia. }
    rewrite BarFacts.String_repeat_char by exact Hf. cbn [and_then].
    destruct (Z.ltb_spec 0 (emptyBlocks (brailleSteps p len))) as [L | L].
    + rewrite BarFacts.String_repeat_char by lia. discriminate.
    + discriminate.
  - intros k Hk Hrange Hlen.
    pose proof (all_between_spec (-200) 300 _ range_on_small_bars k Hrange)
      as H.
    cbv beta in H.
    pose proof (all_between_spec 0 30 _ H len Hlen) as E. cbv beta in E.
    apply Bool.eqb_prop in E.
    assert (X : exact = Math_round (inject_Z k / 100 * inject_Z len)).
    { unfold exact. apply Math_round_comp. now rewrite Hk. }
    assert (Y : filled
                = Math_round (product (quotient (inject_Z k) 100)
                                (inject_Z len))).
    { unfold filled. apply Math_round_comp. now rewrite Hk. }
    rewrite <- X, <- Y in E. unfold out_of_range in E.
    destruct (Z.ltb_spec filled 0), (Z.ltb_spec len filled),
      (Z.ltb_spec exact 0), (Z.ltb_spec len exact);
      cbn in E; try discriminate; split; intros; lia.
Qed.

Lemma progress_bar_range_witness :
  formatProgressBarFilled 150 10 (js "progressive") (js "none") = None /\
  formatProgressBarBraille 150 10 (js "progressive") (js "none") <> None.
Proof.
  destruct (progress_bar_range 150 10 (js "progressive") (js "none"))
    as (F & _ & B).
  split.
  - apply F. right. reflexivity.
  - apply B; [discriminate | lia].
Defined.

(* ===================================================================== *)
(** * Configuration: defaults and model limits *)
(* ===================================================================== *)

Module ConfigMore.
Import Config.
Import stdpp.base stdpp.gmap stdpp.strings.

Lemma percentage_bounds (summary : option jsstring) (maxTokens : Z) :
  (0 < maxTokens)%Z ->
  (0 <= percentage (calculateTokenUsage summary maxTokens) <= 100)%Z.
Proof.
  intros Hm. unfold calculateTokenUsage. cbn [percentage].
  pose proof (TokenFacts.parseConversationTokens_nonneg (or_empty summary)).
  apply percentage_range; lia.
Qed.

Lemma model_limit_values (model : jsstring) :
  getMaxTokensForModel model = 200000%Z \/
  getMaxTokensForModel model = 1000000%Z.
Proof.
  unfold getMaxTokensForModel, MODEL_TOKEN_LIMITS. cbn [first_limit].
  repeat match goal with
         | |- context [if ?b then _ else _] => destruct b
         end; auto.
Qed.

(** An unset or empty variable leaves the default, and [colors] is never
    changed. *)
Lemma loadConfig_missing (p : Process) :
  colors (loadConfig p) = colors DEFAULT_CONFIG /\
  (truthy (getEnv p "STATUSLINE_MAX_TOKENS") = false ->
   maxTokens (loadConfig p) = 200000%Z) /\
  (truthy (getEnv p "STATUSLINE_PROGRESS_WIDTH") = false ->
   progressBarWidth (loadConfig p) = 20%Z) /\
  (truthy (getEnv p "STATUSLINE_ICONS") = false ->
   jsstring_eqb (getPlatform p) (js "windows") = false ->
   showIcons (loadConfig p) = true).
Proof.
  unfold loadConfig. repeat split.
  - repeat match goal with
           | |- context [if ?b then _ else _] => destruct b eqn:?
           | |- context [match ?x with Some _ => _ | None => _ end] =>
               destruct x eqn:?
           end; reflexivity.
  - intros ->.
    repeat match goal with
           | |- context [if ?b then _ else _] => destruct b eqn:?
           | |- context [match ?x with Some _ => _ | None => _ end] =>
               destruct x eqn:?
           end; reflexivity.
  - intros ->.
    repeat match goal with
           | |- context [if ?b then _ else _] => destruct b eqn:?
           | |- context [match ?x with Some _ => _ | None => _ end] =>
               destruct x eqn:?
           end; reflexivity.
  - intros -> ->.
    repeat match goal with
           | |- context [if ?b then _ else _] => destruct b eqn:?
           | |- context [match ?x with Some _ => _ | None => _ end] =>
               destruct x eqn:?
           end; reflexivity.
Qed.

(** On Windows outside a modern terminal the icons are off, whatever
    [STATUSLINE_ICONS] says. *)
Lemma loadConfig_windows (p : Process) :
  jsstring_eqb (getPlatform p) (js "windows") = true ->
  String_includes (or_empty (getEnv p "TERM")) (js "xterm") = false ->
  truthy (getEnv p "WT_SESSION") = false ->
  showIcons (loadConfig p) = false.
Proof.
  intros Hw Ht Hs. unfold loadConfig. rewrite Hw, Ht, Hs. reflexivity.
Qed.

Definition bare (platform : jsstring) : Process :=
  {| env := empty; platform := platform |}.

End ConfigMore.
Import ConfigMore.

(** X4.  The limit of a model is 200000 or 1000000, and it is 1000000
    exactly when the first key of the table that the model name includes is
    one of the two keys with that limit: none of the three keys before
    claude-opus-4-5 is included, and either claude-opus-4-5 is, or
    claude-opus-4-6 is and claude-sonnet-4-5 is not. *)
Theorem getMaxTokensForModel_first_key (model : jsstring) :
  let has (key : string) := String_includes model (js key) in
  (getMaxTokensForModel model = 200000%Z \/
   getMaxTokensForModel model = 1000000%Z) /\
  (getMaxTokensForModel model = 1000000%Z <->
   has "claude-3-5-haiku"%string = false /\ has "claude-3-5-sonnet"%string = false /\
   has "claude-3-opus"%string = false /\
   (has "claude-opus-4-5"%string = true \/
    (has "claude-sonnet-4-5"%string = false /\ has "claude-opus-4-6"%string = true))).
Proof.
  intros has. split; [apply model_limit_values|].
  unfold getMaxTokensForModel, MODEL_TOKEN_LIMITS, has. cbn [first_limit].
  destruct (String_includes model (js "claude-3-5-haiku")),
           (String_includes model (js "claude-3-5-sonnet")),
           (String_includes model (js "claude-3-opus")),
           (String_includes model (js "claude-opus-4-5")),
           (String_includes model (js "claude-sonnet-4-5")),
           (String_includes model (js "claude-opus-4-6")),
           (String_includes model (js "claude-sonnet-4-6"));
    cbn; split; intros H; try discriminate; try reflexivity;
    try (repeat split; auto; fail);
    try (repeat split; auto; right; auto; fail);
    try (destruct H as (H1 & H2 & H3 & [H4 | [H4 H5]]); discriminate).
Qed.

(** X15.  With a model name in the input, the hooks replace the maximum
    read from the environment by the limit of the model and keep every other
    setting; the maximum is then positive and the percentage of the usage
    lies in [0, 100], whatever [STATUSLINE_MAX_TOKENS] holds. *)
Theorem updateConfigForModel_after_loadConfig
  (p : Config.Process) (model : jsstring) (summary : option jsstring) :
  let config := updateConfigForModel (loadConfig p) model in
  maxTokens config = getMaxTokensForModel model /\
  (0 < maxTokens config)%Z /\
  progressBarWidth config = progressBarWidth (loadConfig p) /\
  showIcons config = showIcons (loadConfig p) /\
  Config.colors config = Config.colors (loadConfig p) /\
  (0 <= percentage (calculateTokenUsage summary (maxTokens config))
   <= 100)%Z.
Proof.
  intros config.
  assert (0 < maxTokens config)%Z as Hpos.
  { unfold config, updateConfigForModel. cbn [maxTokens set_maxTokens].
    destruct (model_limit_values model) as [-> | ->]; lia. }
  repeat split; try reflexivity; try exact Hpos;
    apply (percentage_bounds summary _ Hpos).
Qed.

(** X16.  What the environment does not set stays at its default: an unset
    or empty variable leaves the default maximum, the default width and,
    outside Windows, the icons on; the colour names are never changed.  On
    Windows without xterm in [TERM] and without [WT_SESSION] the icons are
    off, also when [STATUSLINE_ICONS] asks for them. *)
Theorem loadConfig_defaults (p : Config.Process) :
  Config.colors (loadConfig p) = Config.colors DEFAULT_CONFIG /\
  (truthy (getEnv p "STATUSLINE_MAX_TOKENS") = false ->
   maxTokens (loadConfig p) = 200000%Z) /\
  (truthy (getEnv p "STATUSLINE_PROGRESS_WIDTH") = false ->
   progressBarWidth (loadConfig p) = 20%Z) /\
  (truthy (getEnv p "STATUSLINE_ICONS") = false ->
   jsstring_eqb (getPlatform p) (js "windows") = false ->
   showIcons (loadConfig p) = true) /\
  (jsstring_eqb (getPlatform p) (js "windows") = true ->
   String_includes (or_empty (getEnv p "TERM")) (js "xterm") = false ->
   truthy (getEnv p "WT_SESSION") = false ->
   showIcons (loadConfig p) = false).
Proof.
  destruct (loadConfig_missing p) as (H1 & H2 & H3 & H4).
  repeat split; auto. apply loadConfig_windows.
Qed.

Lemma loadConfig_defaults_witness :
  loadConfig (bare (js "linux")) = DEFAULT_CONFIG /\
  showIcons
    (loadConfig (process_with "STATUSLINE_ICONS" (js "true"))) = true.
Proof.
  destruct (loadConfig_defaults (bare (js "linux")))
    as (H1 & H2 & H3 & H4 & _).
  split; [|reflexivity].
  specialize (H2 eq_refl). specialize (H3 eq_refl).
  specialize (H4 eq_refl eq_refl).
  destruct (loadConfig (bare (js "linux"))) as [m w i c].
  cbn in H1, H2, H3, H4. subst. reflexivity.
Defined.

(* ===================================================================== *)
(** * The output of the hooks *)
(* ===================================================================== *)

Module DisplayMore.
Import Colors Display.

Lemma Array_join_snoc (l : list jsstring) (t sep : jsstring) :
  Array_join (l ++ [t]) sep
  = match l with
    | [] => t
    | _ => Array_join l sep ++ sep ++ t
    end.
Proof.
  induction l as [|x l IH]; [reflexivity|].
  destruct l as [|y l]; [reflexivity|].
  change (Array_join ((x :: y :: l) ++ [t]) sep)
    with (x ++ sep ++ Array_join ((y :: l) ++ [t]) sep).
  rewrite IH.
  change (Array_join (x :: y :: l) sep)
    with (x ++ sep ++ Array_join (y :: l) sep).
  now rewrite <- !app_assoc.
Qed.

Lemma formatTokenUsage_nonempty usage :
  Formatters.nonempty (formatTokenUsage usage) = true.
Proof.
  unfold formatTokenUsage.
  destruct (Number_toString (percentage usage)); reflexivity.
Qed.

Lemma nonempty_true (s : jsstring) :
  Formatters.nonempty s = true <-> s <> [].
Proof. destruct s; simpl; split; congruence. Qed.

Lemma nonempty_app_r (a b : jsstring) :
  Formatters.nonempty b = true -> Formatters.nonempty (a ++ b) = true.
Proof. destruct a, b; simpl; congruence. Qed.

Lemma warning_message usage :
  getWarningSystemMessage usage
  = match getContextWarning usage with
    | Some w => Some (ANSI.brightYellow ++ w ++ ANSI.reset)
    | None => None
    end.
Proof.
  unfold getWarningSystemMessage, getContextWarning.
  destruct (isContextCritical usage 90); [reflexivity|].
  destruct (isContextLow usage 75); reflexivity.
Qed.

Lemma warning_plain usage w :
  getContextWarning usage = Some w -> ~ In 27%N w.
Proof.
  unfold getContextWarning.
  destruct (isContextCritical usage 90).
  - intros E. injection E as <-. intros H. simpl in H. intuition discriminate.
  - destruct (isContextLow usage 75); [|discriminate].
    intros E. injection E as <-. intros H. simpl in H. intuition discriminate.
Qed.

Lemma warning_threshold usage :
  getContextWarning usage <> None <-> (75 <= percentage usage)%Z.
Proof.
  unfold getContextWarning, isContextCritical, isContextLow.
  destruct (Z.leb_spec 90 (percentage usage)).
  - split; [lia | discriminate].
  - destruct (Z.leb_spec 75 (percentage usage)); split;
      try lia; try discriminate; congruence.
Qed.

(** The full line of [buildStatusline]: the parts that are not empty,
    the token information last. *)
Lemma full_line (b p bar t : jsstring) :
  Formatters.nonempty t = true ->
  exists before,
    Array_join (filter Formatters.nonempty [b; p; bar; t]) (js "  ")
    = before ++ t /\
    before ++ t <> [].
Proof.
  intros Ht.
  assert (filter Formatters.nonempty [b; p; bar; t]
          = filter Formatters.nonempty [b; p; bar] ++ [t]) as E.
  { change [b; p; bar; t] with ([b; p; bar] ++ [t]).
    rewrite filter_app. cbn [filter]. now rewrite Ht. }
  rewrite E, Array_join_snoc.
  assert (forall before, before ++ t <> []) as Hne.
  { intros before. apply nonempty_true. now apply nonempty_app_r. }
  destruct (filter Formatters.nonempty [b; p; bar]).
  - exists []. split; [reflexivity | apply (Hne [])].
  - eexists. rewrite app_assoc. split; [reflexivity | apply Hne].
Qed.

End DisplayMore.
Import DisplayMore.

(** X17.  The object a hook writes: it carries the event name it was given;
    [additionalContext] is absent exactly when the full line is empty, and
    otherwise holds the heading, the full line and, when there are file
    changes, their line, with no empty line in between; [systemMessage] is
    present exactly from 75 percent on and is the warning of
    [getContextWarning] in bright yellow. *)
Theorem createHookOutput_fields
  (display : StatuslineDisplay) (usage : TokenUsage) (eventName : jsstring) :
  let out := createHookOutput display usage eventName in
  hookEventName out = eventName /\
  (additionalContext out = None <-> full display = []) /\
  (full display <> [] ->
   additionalContext out
   = Some (js "## Statusline" ++ [10%N] ++ full display
           ++ (if Formatters.nonempty (fileStats display)
               then [10%N] ++ js "File changes: " ++ fileStats display
               else []))) /\
  (systemMessage out <> None <-> (75 <= percentage usage)%Z) /\
  (forall m, systemMessage out = Some m ->
     exists w, getContextWarning usage = Some w /\
               m = Colors.ANSI.brightYellow ++ w ++ Colors.ANSI.reset /\
               stripAnsiCodes m = w).
Proof.
  intros out.
  assert (systemMessage out
          = match getContextWarning usage with
            | Some w => Some (Colors.ANSI.brightYellow ++ w
                              ++ Colors.ANSI.reset)
            | None => None
            end) as Hs.
  { unfold out, createHookOutput. cbn [systemMessage].
    rewrite warning_message.
    destruct (getContextWarning usage) as [w|]; reflexivity. }
  split; [reflexivity|].
  split.
  { unfold out, createHookOutput, formatStatuslineForContext.
    cbn [additionalContext].
    destruct (full display) as [|c t] eqn:E.
    - split; reflexivity.
    - simpl Formatters.nonempty. cbv iota.
      destruct (Formatters.nonempty (fileStats display));
        split; discriminate. }
  split.
  { unfold out, createHookOutput, formatStatuslineForContext.
    cbn [additionalContext].
    intros Hne. destruct (full display) as [|c t] eqn:E; [congruence|].
    simpl Formatters.nonempty. cbv iota.
    destruct (Formatters.nonempty (fileStats display));
      cbn [app Array_join]; rewrite ?app_nil_r; reflexivity. }
  split.
  { rewrite Hs. rewrite <- warning_threshold.
    destruct (getContextWarning usage); split; congruence. }
  intros m. rewrite Hs.
  destruct (getContextWarning usage) as [w|] eqn:E; [|discriminate].
  intros Hm. injection Hm as <-. exists w.
  split; [reflexivity|]. split; [reflexivity|].
  pose proof (StripFacts.stripAnsiCodes_coloured "93"
                (fun x => Colors.ANSI.brightYellow ++ x ++ Colors.ANSI.reset)
                w [] (fun x => eq_refl) eq_refl (warning_plain usage w E))
    as H.
  cbv beta in H. change (stripAnsiCodes []) with (@nil N) in H.
  rewrite !app_nil_r in H. exact H.
Qed.

(** X18.  Whenever [buildStatusline] returns, the full line is not empty and
    ends with the token information, so the hook output built from it
    always carries [additionalContext]. *)
Theorem buildStatusline_always_context
  (progressBarOf : Z -> Z -> bool -> option jsstring)
  (gitInfo : Git.GitInfo) (stats : Git.FileStats) (usage : TokenUsage)
  (config : Config.StatuslineConfig) (display : StatuslineDisplay)
  (eventName : jsstring) :
  buildStatusline progressBarOf gitInfo stats usage config = Some display ->
  tokenInfo display = formatTokenUsage usage /\
  full display <> [] /\
  (exists before, full display = before ++ formatTokenUsage usage) /\
  additionalContext (createHookOutput display usage eventName) <> None.
Proof.
  unfold buildStatusline. intros H.
  destruct (progressBarOf (percentage usage) (Config.progressBarWidth config)
              (Config.showIcons config)) as [bar|]; [|discriminate].
  cbn [and_then] in H.
  match type of H with
  | Some {| branch := ?b; path := ?p; progressBar := _; tokenInfo := _;
            fileStats := ?fs; full := _ |} = _ =>
      set (b0 := b) in H; set (p0 := p) in H; set (fs0 := fs) in H
  end.
  destruct (full_line b0 p0 bar (formatTokenUsage usage)
              (formatTokenUsage_nonempty usage)) as (before & Hb & Hne).
  unfold jsstring in *. rewrite Hb in H. injection H as <-.
  cbn [tokenInfo full].
  split; [reflexivity|]. split; [exact Hne|].
  split; [now exists before|].
  unfold createHookOutput, formatStatuslineForContext.
  cbn [additionalContext full fileStats].
  apply nonempty_true in Hne. rewrite Hne.
  destruct (Formatters.nonempty fs0); discriminate.
Qed.

Lemma buildStatusline_always_context_witness :
  let gitInfo :=
    {| Git.branch := js "main"; Git.root := js "/r";
       Git.currentPath := js "/r/src"; Git.relativePath := js "src";
       Git.dirty := true; Git.staged := false;
       Git.commitsAhead := 0; Git.commitsBehind := 0 |} in
  let stats :=
    {| Git.insertions := 3; Git.deletions := 0; Git.modifications := 1 |} in
  let usage := {| current := 50000; max := 200000; percentage := 25 |} in
  exists display,
    buildStatusline (fun _ _ _ => Some (js "[##--]")) gitInfo stats usage
      DEFAULT_CONFIG = Some display /\
    full display <> [].
Proof.
  intros gitInfo stats usage. eexists. split; [reflexivity|].
  exact (proj1 (proj2 (buildStatusline_always_context
                         (fun _ _ _ => Some (js "[##--]")) gitInfo stats
                         usage DEFAULT_CONFIG _ (js "SessionStart")
                         eq_refl))).
Defined.

(* ===================================================================== *)
(** * The native entry point: context window, reset time, git status *)
(* ===================================================================== *)

Module NativeMore.
Import NativeGit.

Lemma floor_div (a b : Z) :
  Math_floor (inject_Z a / inject_Z b) = (a / b)%Z.
Proof. unfold Math_floor. now rewrite <- Zdiv_Qdiv. Qed.

Lemma clamp_after_rounding (t m : Z) :
  (0 < m)%Z -> (0 <= t)%Z ->
  Z.min 100 (Math_round (product (quotient (inject_Z t) (inject_Z m)) 100))
  = Math_round (product (quotient (inject_Z (Z.min t m)) (inject_Z m)) 100).
Proof.
  intros Hm Ht.
  destruct (Z.le_gt_cases t m) as [L | L].
  - rewrite (Z.min_l t m) by exact L. apply Z.min_r.
    apply percentage_range; lia.
  - rewrite (Z.min_r t m) by lia.
    rewrite percentage_full by exact Hm. apply Z.min_l.
    rewrite <- (percentage_full m Hm) at 1.
    apply (rounded_share_le (inject_Z m) (inject_Z t) (inject_Z m) 100).
    + change 0 with (inject_Z 0). now rewrite <- Zlt_Qlt.
    + discriminate.
    + rewrite <- Zle_Qle. lia.
Qed.

Lemma countFiles_nonneg diff : (0 <= countFiles diff)%Z.
Proof. unfold countFiles. lia. Qed.

End NativeMore.
Import NativeMore.

(** On doubles 29000 of a window of 200000 is 14 percent. *)
Lemma payloadContext_half_way :
  contextPercentage
    (payloadContext
       {| input_tokens := Some 29000%Z;
          cache_creation_input_tokens := None;
          cache_read_input_tokens := None |}
       (Some 200000%Z) 200000) = 14%Z.
Proof. vm_compute. reflexivity. Qed.

(** X19.  The percentage [main] computes from the payload: the window is
    the size of the payload, or the configured one when the payload has
    none or has 0; with a positive window and a token count that is not
    negative, clamping after rounding gives the same number as the clamp
    before rounding of [calculateTokenUsage], on doubles as well: a
    percentage in [0, 100] that is 100 from a full window on.  For a window
    below [2^45] it is [round (100 * min (tokens, window) / window)] unless
    that fraction lies half-way between two integers, where it is that value
    or the integer below. *)
Theorem payloadContext_percentage
  (usage : CurrentUsage) (size : option Z) (maxContextTokens : Z) :
  let r := payloadContext usage size maxContextTokens in
  let window := number_or size maxContextTokens in
  let safe := Z.min (contextTokens r) window in
  let exact := Math_round (100 * inject_Z safe / inject_Z window) in
  (0 < window)%Z -> (0 <= contextTokens r)%Z ->
  contextPercentage r
  = Math_round (product (quotient (inject_Z safe) (inject_Z window)) 100) /\
  (0 <= contextPercentage r <= 100)%Z /\
  ((window <= contextTokens r)%Z -> contextPercentage r = 100%Z) /\
  ((window < 2 ^ 45)%Z ->
   (exact - 1 <= contextPercentage r <= exact)%Z /\
   (((200 * safe + window) mod (2 * window) <> 0)%Z ->
    contextPercentage r = exact)).
Proof.
  intros r window safe exact Hw Ht.
  assert (contextPercentage r
          = Math_round (product (quotient (inject_Z safe) (inject_Z window))
                          100)) as E.
  { unfold r, payloadContext. cbn [contextPercentage contextTokens].
    fold window. apply clamp_after_rounding; [exact Hw|].
    exact Ht. }
  assert (Hs : (0 <= safe <= window)%Z) by (unfold safe; lia).
  split; [exact E|]. rewrite E.
  split; [now apply percentage_range|]. split.
  - intros Hfull.
    replace safe with window by (unfold safe; lia).
    now apply percentage_full.
  - intros Hsmall. apply (percentage_near safe window Hs). lia.
Qed.

Lemma payloadContext_percentage_witness :
  contextPercentage
    (payloadContext
       {| input_tokens := Some 1200%Z;
          cache_creation_input_tokens := None;
          cache_read_input_tokens := Some 58800%Z |}
       (Some 0%Z) 200000) = 30%Z.
Proof.
  destruct (payloadContext_percentage
              {| input_tokens := Some 1200%Z;
                 cache_creation_input_tokens := None;
                 cache_read_input_tokens := Some 58800%Z |}
              (Some 0%Z) 200000) as (E & _ & _).
  - reflexivity.
  - discriminate.
  - rewrite E. reflexivity.
Defined.

(** X20.  [formatResetTime] and [formatDuration] on the same positive span
    of whole milliseconds print the same text, except on a whole number of
    hours, where [formatResetTime] adds 0m; an invalid date gives N/A and a
    reset time that is not in the future gives now. *)
Theorem formatResetTime_vs_formatDuration (now d : Z) :
  (0 < d)%Z ->
  let minutes := (d / 60000)%Z in
  formatResetTime (Some (now + d)%Z) now
  = (if (60 <=? minutes)%Z && (minutes mod 60 =? 0)%Z
     then formatDuration (inject_Z d) ++ js "0m"
     else formatDuration (inject_Z d)) /\
  formatResetTime None now = js "N/A" /\
  (forall t, (t <= now)%Z -> formatResetTime (Some t) now = js "now").
Proof.
  intros Hd minutes. split; [|split].
  - assert (0 <= inject_Z d) as Hq.
    { change 0 with (inject_Z 0). rewrite <- Zle_Qle. lia. }
    rewrite (formatDuration_unfold (inject_Z d) Hq).
    change (Qfloor (inject_Z d / 60000))
      with (Math_floor (inject_Z d / inject_Z 60000)).
    rewrite floor_div. fold minutes.
    unfold formatResetTime.
    replace (now + d - now)%Z with d by lia.
    replace (d <=? 0)%Z with false by (symmetry; apply Z.leb_gt; lia).
    change (inject_Z d / 3600000) with (inject_Z d / inject_Z 3600000).
    change (inject_Z (js_rem d 3600000) / 60000)
      with (inject_Z (js_rem d 3600000) / inject_Z 60000).
    rewrite !floor_div. unfold js_rem.
    rewrite Z.rem_mod_nonneg by lia.
    assert (d / 3600000 = minutes / 60)%Z as ->.
    { unfold minutes. rewrite Z.div_div by lia. reflexivity. }
    assert ((d mod 3600000) / 60000 = minutes mod 60)%Z as ->.
    { unfold minutes. Z.div_mod_to_equations. lia. }
    assert (0 <= minutes)%Z as Hm by (apply Z.div_pos; lia).
    destruct (Z.ltb_spec 0 (minutes / 60)) as [Hh | Hh].
    + replace (60 <=? minutes)%Z with true
        by (symmetry; apply Z.leb_le; Z.div_mod_to_equations; lia).
      destruct (Z.eqb_spec (minutes mod 60) 0) as [Hz | Hz].
      * rewrite Hz. cbn [andb]. change (0 <? 0)%Z with false. cbv iota.
        rewrite <- !app_assoc. reflexivity.
      * cbn [andb].
        replace (0 <? minutes mod 60)%Z with true; [reflexivity|].
        symmetry. apply Z.ltb_lt.
        pose proof (Z.mod_pos_bound minutes 60). lia.
    + replace (60 <=? minutes)%Z with false
        by (symmetry; apply Z.leb_gt; Z.div_mod_to_equations; lia).
      reflexivity.
  - reflexivity.
  - intros t Ht. unfold formatResetTime.
    replace (t - now <=? 0)%Z with true by (symmetry; apply Z.leb_le; lia).
    reflexivity.
Qed.

Lemma formatResetTime_vs_formatDuration_witness :
  formatResetTime (Some (1000 + 7200000)%Z) 1000 = js "2h0m" /\
  formatDuration (inject_Z 7200000) = js "2h".
Proof.
  destruct (formatResetTime_vs_formatDuration 1000 7200000) as (E & _ & _);
    [lia|].
  split; [rewrite E|]; reflexivity.
Defined.

(** X21.  What [getGitStatusSync] returns, whatever the commands printed:
    the branch is never empty (no-git outside a repository, detached
    when git names no branch); changes are reported exactly when the
    repository check succeeded and one of the two [diff-index] checks
    failed; without changes all six counters are 0, and the numbers of
    files are never negative. *)
Theorem getGitStatusSync_invariants (c : NativeGit.Commands) :
  let s := NativeGit.getGitStatusSync c in
  NativeGit.branch s <> [] /\
  (NativeGit.gitDirCheck c <> 0%Z ->
   NativeGit.branch s = js "no-git") /\
  (NativeGit.hasChanges s = true <->
   NativeGit.gitDirCheck c = 0%Z /\
   (NativeGit.diffCheck c <> 0%Z \/ NativeGit.cachedCheck c <> 0%Z)) /\
  (NativeGit.hasChanges s = false ->
   NativeGit.staged s = NativeGit.no_counts /\
   NativeGit.unstaged s = NativeGit.no_counts) /\
  (0 <= NativeGit.files (NativeGit.staged s))%Z /\
  (0 <= NativeGit.files (NativeGit.unstaged s))%Z.
Proof.
  intros s. unfold s, NativeGit.getGitStatusSync, NativeGit.hasChangesOf,
    NativeGit.getGitBranch.
  destruct (Z.eqb_spec (NativeGit.gitDirCheck c) 0) as [Hg | Hg];
    cbn [negb].
  - destruct (Z.eqb_spec (NativeGit.diffCheck c) 0) as [Hd | Hd],
             (Z.eqb_spec (NativeGit.cachedCheck c) 0) as [Hc | Hc];
      cbn [negb orb NativeGit.branch NativeGit.hasChanges NativeGit.staged
           NativeGit.unstaged NativeGit.files NativeGit.no_counts];
      (split; [destruct (NativeGit.branchResult c); discriminate|]);
      (split; [intros; congruence|]);
      (split; [split; [intros H; try discriminate H; split; auto
                      | intros [_ [H | H]]; congruence || reflexivity]|]);
      (split; [intros H; try discriminate H; split; reflexivity|]);
      try (split; apply countFiles_nonneg); try (split; lia).
  - cbn [NativeGit.branch NativeGit.hasChanges NativeGit.staged
         NativeGit.unstaged NativeGit.files NativeGit.no_counts].
    split; [discriminate|]. split; [reflexivity|].
    split; [split; [discriminate | intros [H _]; congruence]|].
    split; [split; reflexivity|]. split; lia.
Qed.

(* ===================================================================== *)
(** * The hook scripts *)
(* ===================================================================== *)

Module ScriptFacts.
Import Colors Display Formatters HookScripts.

Lemma script_percentage (summary : option jsstring) :
  (0 <= percentage (getTokenUsage summary 200000) <= 100)%Z.
Proof.
  unfold getTokenUsage. cbn [percentage].
  unfold Math_ceil. rewrite TokenFacts.Qceiling_quarter.
  assert (0 <= (Z.of_nat (length (or_empty summary)) + 3) / 4)%Z
    by (apply Z.div_pos; lia).
  apply percentage_range; lia.
Qed.

Lemma script_current (summary : option jsstring) :
  (0 <= current (getTokenUsage summary 200000) <= 200000)%Z.
Proof.
  unfold getTokenUsage. cbn [current].
  unfold Math_ceil. rewrite TokenFacts.Qceiling_quarter.
  assert (0 <= (Z.of_nat (length (or_empty summary)) + 3) / 4)%Z
    by (apply Z.div_pos; lia).
  lia.
Qed.

(** On a bar of 20 cells a whole percentage never lies half-way: the count
    of filled cells is the exact one. *)
Lemma twenty_cells (pct : Z) :
  (0 <= pct <= 100)%Z ->
  Math_round (product (quotient (inject_Z pct) 100) 20)
  = ((2 * pct + 5) / 10)%Z.
Proof.
  intros Hp.
  destruct (rounded_share_near pct 100 20 45) as (E & _ & N); try lia.
  change (inject_Z 100) with 100 in N, E.
  change (inject_Z 20) with 20 in N, E.
  rewrite N.
  - rewrite E. Z.div_mod_to_equations. lia.
  - Z.div_mod_to_equations. lia.
Qed.

Lemma bar_text_plain (a b : nat) :
  ~ In 27%N (js "[" ++ (repeat FULL_BLOCK a ++ repeat LIGHT_SHADE b)
             ++ js "]").
Proof.
  intros H. apply in_app_or in H. destruct H as [H | H].
  - simpl in H. intuition discriminate.
  - apply in_app_or in H. destruct H as [H | H].
    + apply in_app_or in H.
      destruct H as [H | H]; apply repeat_spec in H; discriminate.
    + simpl in H. intuition discriminate.
Qed.

Lemma getProgressBar_text (pct width : Z) :
  (0 <= pct <= 100)%Z -> (0 <= width)%Z ->
  let filled :=
    Math_round (product (quotient (inject_Z pct) 100) (inject_Z width)) in
  (0 <= filled <= width)%Z /\
  exists bar,
    getProgressBar pct width = Some bar /\
    stripAnsiCodes bar
    = js "[" ++ (repeat FULL_BLOCK (Z.to_nat filled)
                 ++ repeat LIGHT_SHADE (Z.to_nat (width - filled)))
      ++ js "]".
Proof.
  intros Hp Hw filled.
  assert (0 <= filled <= width)%Z as Hf.
  { apply rounded_share_bounds; [reflexivity | | | exact Hw].
    - change 0 with (inject_Z 0). rewrite <- Zle_Qle. lia.
    - change 100 with (inject_Z 100). rewrite <- Zle_Qle. lia. }
  split; [exact Hf|].
  unfold getProgressBar. fold filled.
  rewrite !BarFacts.String_repeat_char by lia. cbn [and_then].
  eexists. split; [reflexivity|].
  set (text := js "[" ++ (repeat FULL_BLOCK (Z.to_nat filled)
                          ++ repeat LIGHT_SHADE (Z.to_nat (width - filled)))
               ++ js "]").
  assert (forall body,
            forallb ansi_body (js body) = true ->
            stripAnsiCodes
              (sgr body ++ js "[" ++ (repeat FULL_BLOCK (Z.to_nat filled)
                 ++ repeat LIGHT_SHADE (Z.to_nat (width - filled)))
               ++ js "]" ++ sgr "0") = text) as Hs.
  { intros body Hb.
    pose proof (StripFacts.stripAnsiCodes_coloured body
                  (fun x => sgr body ++ x ++ ANSI.reset) text []
                  (fun x => eq_refl) Hb (bar_text_plain _ _)) as H.
    cbv beta in H. change (stripAnsiCodes []) with (@nil N) in H.
    rewrite !app_nil_r in H. rewrite <- H. unfold text.
    rewrite <- !app_assoc. reflexivity. }
  destruct (75 <=? pct)%Z; [apply Hs; reflexivity|].
  destruct (25 <=? pct)%Z; apply Hs; reflexivity.
Qed.

End ScriptFacts.
Import ScriptFacts.

(** A summary of 460000 characters is 115000 tokens, 57 percent on doubles
    (the quotient 0.575 times 100 is 57.49999999999999 once rounded) and 11
    filled cells. *)
Lemma hook_script_half_way :
  let usage :=
    HookScripts.getTokenUsage
      (Some (repeat 97%N (Z.to_nat 460000))) 200000 in
  current usage = 115000%Z /\
  percentage usage = 57%Z /\
  Math_round (100 * inject_Z (current usage) / 200000) = 58%Z /\
  Math_round (product (quotient (inject_Z (percentage usage)) 100) 20)
  = 11%Z.
Proof. vm_compute. repeat split. Qed.

(** X22.  In the two hook scripts the bar never fails: whatever the
    summary, the percentage of [getTokenUsage] lies in [0, 100], and
    [getProgressBar] returns a bar of 20 glyphs between brackets, the filled
    ones first; so [statusline] is always built.  The percentage is
    [Math.round ((current / maxTokens) * 100)] on doubles:
    [round (100 * current / 200000)] unless that fraction lies half-way
    between two integers, where it is that value or the integer below; the
    number of filled glyphs is the percentage divided by 5 and rounded, no
    whole percentage lying half-way there. *)
Theorem hook_script_bar (summary : option jsstring) :
  let usage := HookScripts.getTokenUsage summary 200000 in
  let filled :=
    Math_round (product (quotient (inject_Z (percentage usage)) 100) 20) in
  let exact := Math_round (100 * inject_Z (current usage) / 200000) in
  (0 <= percentage usage <= 100)%Z /\
  (exact - 1 <= percentage usage <= exact)%Z /\
  (((200 * current usage + 200000) mod 400000 <> 0)%Z ->
   percentage usage = exact) /\
  filled = ((2 * percentage usage + 5) / 10)%Z /\
  (exists bar,
     HookScripts.getProgressBar (percentage usage) 20 = Some bar /\
     stripAnsiCodes bar
     = js "[" ++ (repeat FULL_BLOCK (Z.to_nat filled)
                  ++ repeat LIGHT_SHADE (Z.to_nat (20 - filled)))
       ++ js "]" /\
     length (stripAnsiCodes bar) = 22%nat) /\
  (forall gitInfo noBranch,
     HookScripts.statusline gitInfo noBranch summary <> None).
Proof.
  intros usage filled exact.
  pose proof (script_percentage summary) as Hp. fold usage in Hp.
  pose proof (script_current summary) as Hc. fold usage in Hc.
  destruct (getProgressBar_text (percentage usage) 20 Hp ltac:(lia))
    as (Hf & bar & Hbar & Hs).
  change (inject_Z 20) with (20 : Q) in Hf, Hs. fold filled in Hf, Hs.
  assert (Hpct : percentage usage
                 = Math_round
                     (product (quotient (inject_Z (current usage))
                                 (inject_Z 200000)) 100)).
  { unfold usage, HookScripts.getTokenUsage. cbn [percentage current].
    reflexivity. }
  assert (Hsmall : (0 < 200000 < 2 ^ 45)%Z) by (split; reflexivity).
  pose proof (percentage_near (current usage) 200000 Hc Hsmall) as N.
  cbv zeta in N. rewrite <- Hpct in N.
  change (inject_Z 200000) with (200000 : Q) in N.
  change (200 * current usage + 200000)%Z
    with (200 * current usage + 200000)%Z in N.
  fold exact in N. destruct N as [N1 N2].
  split; [exact Hp|]. split; [exact N1|]. split; [exact N2|].
  split; [unfold filled; apply twenty_cells; exact Hp|].
  clearbody filled. split.
  - exists bar. split; [exact Hbar|]. split; [exact Hs|].
    rewrite Hs. rewrite !length_app, !repeat_length. simpl. lia.
  - intros gitInfo noBranch. unfold HookScripts.statusline.
    fold usage. rewrite Hbar. discriminate.
Qed.

(** X23.  The object of [getGitInfo] has no property [relativePath] (its
    path is under [relative]), so the path the two hook scripts print is
    always ~/undefined, and the line they build does not depend on the
    relative path git reported. *)
Theorem hook_script_path
  (branch root relative relative' : jsstring) (dirty : bool)
  (noBranch : jsstring) (summary : option jsstring) :
  HookScripts.relativePathText
    (HookScripts.gitInfoOf branch root relative dirty) = js "~/undefined" /\
  HookScripts.relativePathText HookScripts.gitInfoFallback
  = js "~/undefined" /\
  HookScripts.statusline
    (HookScripts.gitInfoOf branch root relative dirty) noBranch summary
  = HookScripts.statusline
      (HookScripts.gitInfoOf branch root relative' dirty) noBranch summary.
Proof.
  split; [reflexivity|]. split; [reflexivity|]. reflexivity.
Qed.

(* ===================================================================== *)
(** * Reading what git prints *)
(* ===================================================================== *)

Module GitFacts.
Import NativeGit NumberFacts SplitFacts.

Lemma digit_not_space c : is_digit c = true -> is_whitespace c = false.
Proof.
  intros H. apply TokenFacts.is_digit_spec in H.
  destruct (is_whitespace c) eqn:E; [|reflexivity].
  apply TokenFacts.is_whitespace_spec in E. lia.
Qed.

Lemma digits_without p (ds : jsstring) :
  (forall c, is_digit c = true -> p c = false) ->
  forallb is_digit ds = true -> forallb (fun a => negb (p a)) ds = true.
Proof.
  intros Hp. induction ds as [|c t IH]; simpl; auto. intros H.
  apply andb_true_iff in H. destruct H as [Hc Ht].
  rewrite (Hp c Hc). simpl. auto.
Qed.

Lemma digit_not_tab c : is_digit c = true -> is_tab c = false.
Proof.
  intros H. apply TokenFacts.is_digit_spec in H.
  unfold is_tab. apply N.eqb_neq. lia.
Qed.

Lemma digit_not_newline c : is_digit c = true -> is_newline c = false.
Proof.
  intros H. apply TokenFacts.is_digit_spec in H.
  unfold is_newline. apply N.eqb_neq. lia.
Qed.

(** The text of a count: no tab, no line feed, no white space in front,
    and [parseInt ... || 0] reads its value. *)
Lemma count_text_facts (n : option Z) :
  counted n ->
  forallb (fun a => negb (is_tab a)) (count_text n) = true /\
  forallb (fun a => negb (is_newline a)) (count_text n) = true /\
  (exists c t, count_text n = c :: t /\ is_whitespace c = false) /\
  parsed_or_zero (count_text n) = count_value n.
Proof.
  destruct n as [z|]; simpl; intros Hz.
  - destruct (Number_toString_digits z Hz) as (Hne & Hd & Hv).
    split; [apply digits_without; [exact digit_not_tab | exact Hd]|].
    split; [apply digits_without; [exact digit_not_newline | exact Hd]|].
    split.
    + destruct (Number_toString z) as [|c t]; [congruence|].
      exists c, t. split; [reflexivity|].
      simpl in Hd. apply andb_true_iff in Hd. destruct Hd as [Hc _].
      now apply digit_not_space.
    + unfold parsed_or_zero. now rewrite parseInt_Number_toString.
  - repeat split. exists 45%N, []. split; reflexivity.
Qed.

Lemma drop_while_last p (l : jsstring) c :
  p c = false -> drop_while p (l ++ [c]) <> [].
Proof.
  intros Hc. induction l as [|x l IH]; simpl.
  - rewrite Hc. discriminate.
  - destruct (p x); [exact IH | discriminate].
Qed.

Lemma trim_not_blank c t :
  is_whitespace c = false ->
  Formatters.nonempty (String_trim (c :: t)) = true.
Proof.
  intros Hc. unfold String_trim. cbn [drop_while]. rewrite Hc.
  cbn [rev].
  pose proof (drop_while_last is_whitespace (rev t) c Hc) as H.
  destruct (drop_while is_whitespace (rev t ++ [c])) as [|x l];
    [congruence|].
  cbn [rev]. destruct (rev l); reflexivity.
Qed.

Lemma numstat_line_plain e :
  numstat_entry e ->
  forallb (fun a => negb (is_newline a)) (numstat_line e) = true.
Proof.
  destruct e as [[a d] name]. intros (Ha & Hd & Hn). unfold numstat_line.
  destruct (count_text_facts a Ha) as (_ & Na & _).
  destruct (count_text_facts d Hd) as (_ & Nd & _).
  rewrite !forallb_app. rewrite Na, Nd. exact Hn.
Qed.

Lemma parseStats_line_entry acc e :
  numstat_entry e ->
  parseStats_line acc (numstat_line e)
  = {| added := plus (added acc) (Some (count_value (fst (fst e))));
       deleted := plus (deleted acc) (Some (count_value (snd (fst e)))) |}.
Proof.
  destruct e as [[a d] name]. intros (Ha & Hd & Hn).
  destruct (count_text_facts a Ha) as (Ta & _ & (c & t & Ec & Hc) & Pa).
  destruct (count_text_facts d Hd) as (Td & _ & _ & Pd).
  unfold parseStats_line, numstat_line. cbn [fst snd].
  assert (Formatters.nonempty
            (String_trim (count_text a ++ [9%N] ++ count_text d ++ [9%N]
                          ++ name)) = true) as ->.
  { rewrite Ec. cbn [app]. now apply trim_not_blank. }
  change (count_text a ++ [9%N] ++ count_text d ++ [9%N] ++ name)
    with (count_text a ++ 9%N :: count_text d ++ 9%N :: name).
  rewrite (String_split_app is_tab _ 9%N _ Ta eq_refl).
  rewrite (String_split_app is_tab _ 9%N _ Td eq_refl).
  cbn [map element nth_error]. now rewrite Pa, Pd.
Qed.

Lemma sum_cons a l : sum (a :: l) = (a + sum l)%Z.
Proof. reflexivity. Qed.

Lemma parseStats_loop entries :
  Forall numstat_entry entries ->
  forall x y,
    fold_left parseStats_line (map numstat_line entries)
      {| added := Some x; deleted := Some y |}
    = {| added := Some (x + sum (map (fun e => count_value (fst (fst e)))
                                   entries))%Z;
         deleted := Some (y + sum (map (fun e => count_value (snd (fst e)))
                                     entries))%Z |}.
Proof.
  induction 1 as [|e entries He _ IH]; intros x y.
  - cbn. now rewrite !Z.add_0_r.
  - cbn [map fold_left]. rewrite (parseStats_line_entry _ e He).
    cbn [added deleted plus]. rewrite IH. cbn [map].
    rewrite !sum_cons. f_equal; f_equal; lia.
Qed.

Lemma blank_line acc : parseStats_line acc [] = acc.
Proof. reflexivity. Qed.

Lemma numstat_lines entries :
  Forall numstat_entry entries -> entries <> [] ->
  String_split is_newline (numstat entries) = map numstat_line entries.
Proof.
  intros H Hne. unfold numstat.
  destruct entries as [|e entries]; [congruence|].
  cbn [map]. apply (split_join is_newline 10%N); [reflexivity|].
  change (numstat_line e :: map numstat_line entries)
    with (map numstat_line (e :: entries)).
  apply Forall_map. revert H. apply Forall_impl.
  exact numstat_line_plain.
Qed.

(** ** Backslashes *)

Lemma exec_at_backslash c t :
  exec_at Git.backslashes (c :: t)
  = if (c =? 92)%N then Some (t, None) else None.
Proof. reflexivity. Qed.

Lemma replace_backslashes s :
  String_replace s Git.backslashes (js "/") = forward_slashes s.
Proof.
  induction s as [|c t IH].
  - apply (RegExpFacts.String_replace_nil Git.backslashes); reflexivity.
  - unfold forward_slashes. cbn [map]. destruct (c =? 92)%N eqn:E.
    + pose proof (exec_at_backslash c t) as Hx. rewrite E in Hx.
      pose proof (RegExpFacts.String_replace_hit Git.backslashes (js "/")
                    eq_refl [] c t None Hx) as Hr.
      cbn [app] in Hr. rewrite Hr, IH. reflexivity.
    + pose proof (exec_at_backslash c t) as Hx. rewrite E in Hx.
      rewrite (RegExpFacts.String_replace_skip Git.backslashes (js "/")
                 eq_refl c t Hx).
      f_equal. exact IH.
Qed.

Lemma jsstring_eqb_true a b : jsstring_eqb a b = true <-> a = b.
Proof.
  revert b. induction a as [|x a IH]; intros [|y b]; simpl;
    try (split; congruence).
  unfold code_eqb. rewrite andb_true_iff, N.eqb_eq, IH.
  split; [intros [-> ->]; reflexivity | intros E; injection E; auto].
Qed.

Lemma jsstring_eqb_longer a x (b : jsstring) :
  jsstring_eqb a (a ++ x :: b) = false.
Proof.
  destruct (jsstring_eqb a (a ++ x :: b)) eqn:E; [|reflexivity].
  apply jsstring_eqb_true in E.
  apply (f_equal (@length N)) in E. rewrite length_app in E.
  simpl in E. lia.
Qed.

Lemma startsWith_app (a b : jsstring) : String_startsWith (a ++ b) a = true.
Proof.
  induction a as [|x a IH]; [destruct b; reflexivity|].
  simpl. unfold code_eqb. now rewrite N.eqb_refl, IH.
Qed.

Lemma slice_app (a b : jsstring) :
  String_slice_from (a ++ b) (length a) = b.
Proof.
  unfold String_slice_from. induction a; simpl; auto.
Qed.

Lemma forward_slashes_app a b :
  forward_slashes (a ++ b) = forward_slashes a ++ forward_slashes b.
Proof. apply map_app. Qed.

Lemma forward_slashes_length a : length (forward_slashes a) = length a.
Proof. apply length_map. Qed.

End GitFacts.
Import GitFacts.

(** X24.  [parseStats] of the native renderer adds up the two columns of
    what [git diff --numstat] prints: for any list of entries, each with
    its two counts (or the dashes of a binary file, which count 0) and a
    path, the result is the two sums; no output gives 0 and 0. *)
Theorem parseStats_numstat
  (entries : list (option Z * option Z * jsstring)) :
  Forall numstat_entry entries ->
  NativeGit.parseStats (numstat entries)
  = {| NativeGit.added :=
         Some (sum (map (fun e => count_value (fst (fst e))) entries));
       NativeGit.deleted :=
         Some (sum (map (fun e => count_value (snd (fst e))) entries)) |}.
Proof.
  intros H. unfold NativeGit.parseStats.
  destruct entries as [|e entries].
  - reflexivity.
  - rewrite numstat_lines by (auto; discriminate).
    now rewrite parseStats_loop.
Qed.

Lemma parseStats_numstat_witness :
  NativeGit.parseStats
    (numstat [ (Some 12%Z, Some 3%Z, js "src/index.ts");
               (None, None, js "logo.png");
               (Some 0%Z, Some 7%Z, js "a b.txt") ])
  = {| NativeGit.added := Some 12%Z; NativeGit.deleted := Some 10%Z |}.
Proof.
  apply (parseStats_numstat
           [ (Some 12%Z, Some 3%Z, js "src/index.ts");
             (None, None, js "logo.png");
             (Some 0%Z, Some 7%Z, js "a b.txt") ]).
  repeat constructor; simpl; lia.
Defined.

(** X25.  [getRelativePath] of the hooks, for a directory inside the
    root: a current path made of the root, a slash or a backslash and a
    rest that is not empty gives the rest with forward slashes; the root
    itself, also with a separator behind it, gives a dot. *)
Theorem getRelativePath_inside (root rest : jsstring) (sep : N) :
  sep = 47%N \/ sep = 92%N ->
  Git.getRelativePath root root = js "." /\
  Git.getRelativePath root (root ++ [sep]) = js "." /\
  (rest <> [] ->
   Git.getRelativePath root (root ++ sep :: rest) = forward_slashes rest).
Proof.
  intros Hsep.
  assert (forward_slashes [sep] = [47%N]) as Hs
    by (destruct Hsep as [-> | ->]; reflexivity).
  assert (forall tail,
            Git.getRelativePath root (root ++ sep :: tail)
            = if Formatters.nonempty (forward_slashes tail)
              then forward_slashes tail else js ".") as Hin.
  { intros tail. unfold Git.getRelativePath.
    rewrite jsstring_eqb_longer. rewrite !replace_backslashes.
    rewrite forward_slashes_app, startsWith_app.
    rewrite slice_app.
    change (sep :: tail) with ([sep] ++ tail).
    rewrite forward_slashes_app, Hs.
    replace (String_startsWith ([47%N] ++ forward_slashes tail) (js "/"))
      with true
      by (cbn; destruct (forward_slashes tail); reflexivity).
    reflexivity. }
  split; [|split].
  - unfold Git.getRelativePath.
    now rewrite (proj2 (jsstring_eqb_true root root) eq_refl).
  - apply (Hin []).
  - intros Hne. rewrite Hin. destruct rest; [congruence | reflexivity].
Qed.

Lemma getRelativePath_inside_witness :
  Git.getRelativePath (js "C:/work/app")
    (js "C:/work/app" ++ 92%N :: js "src\lib")
  = js "src/lib".
Proof.
  apply (getRelativePath_inside (js "C:/work/app") (js "src\lib") 92%N).
  - right. reflexivity.
  - discriminate.
Defined.

(* ===================================================================== *)
(** * The short statistics of the hooks *)
(* ===================================================================== *)

Module ShortstatFacts.
Import NumberFacts RegExpFacts.

(** The two patterns of [parseStats] differ in their word only. *)
Definition count_re (w : jsstring) : RegExp :=
  {| pattern := Seq (Group (Plus (Class is_digit))) (Lit w);
     ignoreCase := false;
     global := false |}.

Lemma insertion_count_re : Git.insertion_count = count_re (js " insertion").
Proof. reflexivity. Qed.

Lemma deletion_count_re : Git.deletion_count = count_re (js " deletion").
Proof. reflexivity. Qed.

Lemma Lit_cons c c' w :
  Lit (c :: c' :: w) = Seq (Char c) (Lit (c' :: w)).
Proof. reflexivity. Qed.

Lemma mtch_Lit {R : Type} (w rest : jsstring) cap
  (k : jsstring -> option jsstring -> option R) :
  mtch false (Lit w) (w ++ rest) cap k = k rest cap.
Proof.
  induction w as [|c w IH]; [reflexivity|].
  destruct w as [|c' w].
  - cbn. unfold code_eqb. now rewrite N.eqb_refl.
  - rewrite Lit_cons. cbn [mtch app]. unfold char_match, code_eqb.
    rewrite N.eqb_refl. exact IH.
Qed.

Lemma lang_Lit (w q : jsstring) : lang false (Lit w) q -> q = w.
Proof.
  revert q. induction w as [|c w IH]; intros q H.
  - exact H.
  - destruct w as [|c' w].
    + destruct H as (x & -> & Hx). unfold char_match, code_eqb in Hx.
      apply N.eqb_eq in Hx. now subst.
    + rewrite Lit_cons in H.
      destruct H as (a1 & a2 & -> & (x & -> & Hx) & H2).
      unfold char_match, code_eqb in Hx. apply N.eqb_eq in Hx. subst x.
      apply IH in H2. now subst.
Qed.

Lemma exec_at_count_unfold w s :
  exec_at (count_re w) s
  = mtch false (Plus (Class is_digit)) s None
      (fun s1 _ =>
         mtch false (Lit w) s1 (Some (firstn (length s - length s1) s))
           (fun s' c => Some (s', c))).
Proof. reflexivity. Qed.

Lemma exec_at_count_sound w s rest cap :
  exec_at (count_re w) s = Some (rest, cap) ->
  exists num, s = num ++ w ++ rest /\ num <> [] /\
              forallb is_digit num = true.
Proof.
  rewrite exec_at_count_unfold. intros H.
  apply mtch_sound in H. destruct H as (num & s1 & c1 & -> & Ln & H & _).
  apply mtch_sound in H. destruct H as (q & s2 & c2 & -> & Lq & H & _).
  inversion H; subst. apply lang_Lit in Lq. subst q.
  apply (proj1 (TokenFacts.lang_plus_class false is_digit num)) in Ln.
  exists num. tauto.
Qed.

Lemma exec_at_count_hit w num rest :
  num <> [] -> forallb is_digit num = true ->
  match w with c :: _ => is_digit c = false | [] => False end ->
  exec_at (count_re w) (num ++ w ++ rest) = Some (rest, Some num).
Proof.
  intros Hne Hd Hw. destruct num as [|d ds]; [congruence|].
  destruct w as [|c w']; [contradiction|].
  simpl in Hd. apply andb_true_iff in Hd. destruct Hd as [Hd Hds].
  rewrite exec_at_count_unfold.
  set (s := (d :: ds) ++ (c :: w') ++ rest).
  set (k := fun (s1 : jsstring) (_ : option jsstring) =>
              mtch false (Lit (c :: w')) s1
                (Some (firstn (length s - length s1) s))
                (fun s' c0 => Some (s', c0))).
  change (mtch false (Plus (Class is_digit)) s None k)
    with (if is_digit d
          then star_loop false (Class is_digit) k
                 (length (ds ++ (c :: w') ++ rest))
                 (ds ++ (c :: w') ++ rest) None
          else None).
  rewrite Hd. apply star_class_greedy; [lia|].
  change (ds ++ (c :: w') ++ rest) with (ds ++ c :: w' ++ rest).
  rewrite (BarFacts.drop_while_prefix is_digit ds c (w' ++ rest) Hds Hw).
  unfold k. change (c :: w' ++ rest) with ((c :: w') ++ rest).
  rewrite mtch_Lit. f_equal. f_equal. f_equal.
  unfold s. apply TokenFacts.firstn_consumed.
Qed.

Lemma exec_at_nondigit w c s :
  is_digit c = false -> exec_at (count_re w) (c :: s) = None.
Proof.
  intros H. rewrite exec_at_count_unfold. cbn [Plus mtch]. now rewrite H.
Qed.

Lemma exec_at_end w : exec (count_re w) [] = None.
Proof. reflexivity. Qed.

Definition no_digits (a : jsstring) : bool :=
  forallb (fun c => negb (is_digit c)) a.

(** Text without digits holds no match. *)
Lemma skip_plain w a s :
  no_digits a = true -> exec (count_re w) (a ++ s) = exec (count_re w) s.
Proof.
  unfold no_digits. induction a as [|c a IH]; [reflexivity|].
  intros H. simpl in H. apply andb_true_iff in H. destruct H as [Hc Ha].
  apply negb_true_iff in Hc. cbn [app exec].
  rewrite (exec_at_nondigit w c (a ++ s) Hc). auto.
Qed.

(** A number followed by another word holds no match. *)
Lemma skip_number w f x :
  forallb is_digit f = true ->
  match w with c :: _ => is_digit c = false | [] => False end ->
  match x with c :: _ => is_digit c = false | [] => False end ->
  (forall rest, x <> w ++ rest) ->
  exec (count_re w) (f ++ x) = exec (count_re w) x.
Proof.
  intros Hf Hw Hx Hdiff. apply TokenFacts.exec_skip.
  intros p1 p2 -> Hne.
  destruct (exec_at (count_re w) (p2 ++ x)) as [[rest cap]|] eqn:E;
    [|reflexivity].
  exfalso. apply exec_at_count_sound in E.
  destruct E as (num & E & _ & Hnum).
  rewrite forallb_app in Hf. apply andb_true_iff in Hf.
  destruct Hf as [_ Hp2].
  destruct w as [|cw w']; [contradiction|].
  destruct x as [|cx x']; [contradiction|].
  assert (p2 = num) as ->.
  { rewrite <- (TokenFacts.take_while_prefix is_digit p2 cx x' Hp2 Hx).
    rewrite E. change ((cw :: w') ++ rest) with (cw :: w' ++ rest).
    now apply TokenFacts.take_while_prefix. }
  apply app_inv_head in E. exact (Hdiff rest E).
Qed.

Lemma printed_digits (n : Z) :
  (0 <= n)%Z ->
  Number_toString n <> [] /\ forallb is_digit (Number_toString n) = true.
Proof.
  intros H. destruct (Number_toString_digits n H) as (A & B & _). auto.
Qed.

Lemma matched_printed (n : Z) (rest : jsstring) :
  (0 <= n)%Z ->
  Git.matched_count
    (match Some (rest, Some (Number_toString n)) with
     | Some (_, c) => Some c
     | None => None
     end) = n.
Proof.
  intros H. cbn [Git.matched_count].
  now rewrite parseInt_Number_toString.
Qed.

(** The parts of the line, as the scan meets them. *)
Lemma files_part_shape (f : Z) :
  exists c x, files_part f = Number_toString f ++ c :: x /\
              is_digit c = false /\ no_digits (c :: x) = true /\
              (forall s rest, c :: x ++ s <> js " insertion" ++ rest) /\
              (forall s rest, c :: x ++ s <> js " deletion" ++ rest).
Proof.
  unfold files_part, plural. destruct (f =? 1)%Z.
  - exists 32%N, (js "file changed").
    repeat split; intros; discriminate.
  - exists 32%N, (js "files changed").
    repeat split; intros; discriminate.
Qed.

Lemma count_part_shape (n : Z) (word sign : string) :
  (n =? 0)%Z = false ->
  exists tail,
    count_part n word sign
    = js ", " ++ Number_toString n ++ (32%N :: js word) ++ tail /\
    tail = (if (n =? 1)%Z then [] else js "s") ++ js sign.
Proof.
  intros H. unfold count_part, plural. rewrite H.
  destruct (n =? 1)%Z; eexists; (split; [|reflexivity]);
    cbn [app]; rewrite <- ?app_assoc; reflexivity.
Qed.

Lemma tail_plain (n : Z) (sign : string) :
  no_digits (js sign) = true ->
  no_digits ((if (n =? 1)%Z then [] else js "s") ++ js sign) = true.
Proof.
  intros H. unfold no_digits in *. rewrite forallb_app, H.
  destruct (n =? 1)%Z; reflexivity.
Qed.

(** A part with the word of the pattern is the match. *)
Lemma own_part w (n : Z) (word sign : string) s :
  (0 <= n)%Z -> (n =? 0)%Z = false -> w = 32%N :: js word ->
  exists rest,
    exec (count_re w) (count_part n word sign ++ s)
    = Some (rest, Some (Number_toString n)).
Proof.
  intros Hn Hz ->.
  destruct (count_part_shape n word sign Hz) as (tail & -> & _).
  destruct (printed_digits n Hn) as [Hne Hd].
  rewrite <- !app_assoc. rewrite skip_plain by reflexivity.
  eexists. apply TokenFacts.exec_here.
  apply exec_at_count_hit; auto.
Qed.

(** A part with another word holds no match. *)
Lemma other_part w (n : Z) (word sign : string) s :
  (0 <= n)%Z ->
  match w with c :: _ => is_digit c = false | [] => False end ->
  no_digits (js word) = true -> no_digits (js sign) = true ->
  (forall tail rest, (32%N :: js word) ++ tail <> w ++ rest) ->
  exec (count_re w) (count_part n word sign ++ s) = exec (count_re w) s.
Proof.
  intros Hn Hw Hword Hsign Hdiff.
  destruct (n =? 0)%Z eqn:Hz.
  - unfold count_part. now rewrite Hz.
  - destruct (count_part_shape n word sign Hz) as (tail & -> & Et).
    destruct (printed_digits n Hn) as [Hne Hd].
    rewrite <- !app_assoc. rewrite skip_plain by reflexivity.
    rewrite skip_number; auto; [|reflexivity].
    change ((32%N :: js word) ++ tail ++ s)
      with ([32%N] ++ js word ++ tail ++ s).
    rewrite (skip_plain w [32%N]) by reflexivity.
    rewrite skip_plain by exact Hword.
    rewrite skip_plain; [reflexivity|].
    rewrite Et. now apply tail_plain.
Qed.

Lemma scan_files w (f : Z) s :
  (0 <= f)%Z ->
  w = js " insertion" \/ w = js " deletion" ->
  exec (count_re w) (files_part f ++ s) = exec (count_re w) s.
Proof.
  intros Hf Hw.
  destruct (files_part_shape f) as (c & x & -> & Hc & Hx & Hi & Hd).
  destruct (printed_digits f Hf) as [_ Hdig].
  rewrite <- app_assoc. change ((c :: x) ++ s) with (c :: x ++ s).
  rewrite skip_number; auto.
  - change (c :: x ++ s) with ((c :: x) ++ s). now apply skip_plain.
  - destruct Hw as [-> | ->]; reflexivity.
  - intros rest. destruct Hw as [-> | ->]; [apply Hi | apply Hd].
Qed.

Lemma ins_of_exec (s : jsstring) :
  Git.ins (Git.parseStats s)
  = Git.matched_count
      (match exec (count_re (js " insertion")) s with
       | Some (_, c) => Some c
       | None => None
       end).
Proof. reflexivity. Qed.

Lemma del_of_exec (s : jsstring) :
  Git.del (Git.parseStats s)
  = Git.matched_count
      (match exec (count_re (js " deletion")) s with
       | Some (_, c) => Some c
       | None => None
       end).
Proof. reflexivity. Qed.

End ShortstatFacts.
Import ShortstatFacts.

(** X26.  [parseStats] of the hooks reads the two counts back from what
    [git diff --shortstat] prints: for every number of files, insertions
    and deletions it returns the insertions and the deletions, a part that
    git leaves out counting 0. *)
Theorem parseStats_shortstat (f i d : Z) :
  (0 <= f)%Z -> (0 <= i)%Z -> (0 <= d)%Z ->
  Git.parseStats (shortstat f i d) = {| Git.ins := i; Git.del := d |}.
Proof.
  intros Hf Hi Hd.
  assert (Git.ins (Git.parseStats (shortstat f i d)) = i) as Ei.
  { rewrite ins_of_exec. unfold shortstat.
    rewrite scan_files by auto.
    destruct (i =? 0)%Z eqn:Hz.
    - apply Z.eqb_eq in Hz. subst i.
      change (count_part 0 "insertion" "(+)") with (@nil N). cbn [app].
      rewrite <- (app_nil_r (count_part d "deletion" "(-)")).
      rewrite other_part; auto; try reflexivity;
        try (intros tail rest; discriminate).
    - destruct (own_part (js " insertion") i "insertion" "(+)"
                  (count_part d "deletion" "(-)") Hi Hz eq_refl)
        as (rest & ->).
      now apply matched_printed. }
  assert (Git.del (Git.parseStats (shortstat f i d)) = d) as Ed.
  { rewrite del_of_exec. unfold shortstat.
    rewrite scan_files by auto.
    rewrite other_part; auto; try reflexivity;
      try (intros tail rest; discriminate).
    destruct (d =? 0)%Z eqn:Hz.
    - apply Z.eqb_eq in Hz. subst d. reflexivity.
    - rewrite <- (app_nil_r (count_part d "deletion" "(-)")).
      destruct (own_part (js " deletion") d "deletion" "(-)" []
                  Hd Hz eq_refl) as (rest & ->).
      now apply matched_printed. }
  destruct (Git.parseStats (shortstat f i d)) as [a b].
  cbn in Ei, Ed. now subst.
Qed.

Lemma parseStats_shortstat_witness :
  Git.parseStats (js "3 files changed, 120 insertions(+), 1 deletion(-)")
  = {| Git.ins := 120; Git.del := 1 |}.
Proof.
  apply (parseStats_shortstat 3 120 1); lia.
Defined.

(* ===================================================================== *)
(** * Paths: the last segment, and the first and the last *)
(* ===================================================================== *)

Module PathMore.
Import Formatters SplitFacts.

(** A separator cuts the pieces in two lists. *)
Lemma String_split_at p (a : jsstring) c b :
  p c = true ->
  String_split p (a ++ c :: b) = String_split p a ++ String_split p b.
Proof.
  intros Hc. induction a as [|x a IH].
  - simpl. rewrite String_split_cons, Hc. reflexivity.
  - cbn [app]. rewrite !String_split_cons, IH.
    destruct (p x); [reflexivity|].
    pose proof (String_split_not_nil p a) as Hn.
    destruct (String_split p a); [congruence | reflexivity].
Qed.

Lemma segments_of_slashes (t : jsstring) :
  forallb is_slash t = true -> segmentsOf t = [].
Proof.
  unfold segmentsOf. induction t as [|c t IH]; [reflexivity|].
  intros H. simpl in H. apply andb_true_iff in H. destruct H as [Hc Ht].
  rewrite String_split_cons, Hc. cbn [filter nonempty]. auto.
Qed.

Lemma segments_of_name (name trailing : jsstring) :
  name <> [] -> forallb (fun a => negb (is_slash a)) name = true ->
  forallb is_slash trailing = true ->
  segmentsOf (name ++ trailing) = [name].
Proof.
  intros Hne Hn Ht. unfold segmentsOf. destruct trailing as [|c t].
  - rewrite app_nil_r, String_split_plain by exact Hn.
    destruct name; [congruence | reflexivity].
  - simpl in Ht. apply andb_true_iff in Ht. destruct Ht as [Hc Ht].
    rewrite String_split_app by assumption.
    cbn [filter]. fold (segmentsOf t). rewrite segments_of_slashes by exact Ht.
    destruct name; [congruence | reflexivity].
Qed.

Lemma segments_of_child (dir name trailing : jsstring) sep :
  is_slash sep = true -> name <> [] ->
  forallb (fun a => negb (is_slash a)) name = true ->
  forallb is_slash trailing = true ->
  segmentsOf (dir ++ sep :: name ++ trailing) = segmentsOf dir ++ [name].
Proof.
  intros Hs Hne Hn Ht.
  pose proof (segments_of_name name trailing Hne Hn Ht) as E.
  unfold segmentsOf in *.
  rewrite String_split_at by exact Hs. rewrite filter_app. now rewrite E.
Qed.

Lemma join_not_dot (a b : jsstring) (l : list jsstring) :
  jsstring_eqb (Array_join (a :: b :: l) (js "/")) (js ".") = false.
Proof.
  destruct (jsstring_eqb (Array_join (a :: b :: l) (js "/")) (js "."))
    eqn:E; [|reflexivity].
  apply GitFacts.jsstring_eqb_true in E.
  assert (In 47%N (Array_join (a :: b :: l) (js "/"))) as Hin.
  { change (Array_join (a :: b :: l) (js "/"))
      with (a ++ js "/" ++ Array_join (b :: l) (js "/")).
    apply in_or_app. right. now left. }
  rewrite E in Hin. simpl in Hin. intuition discriminate.
Qed.

End PathMore.
Import PathMore.

(** X27.  In basename mode [formatPath] gives the last segment of the
    path: for a path made of anything, a separator, a name without
    separator and any number of trailing separators, the result is the
    name, whatever the home directory is; a path made of separators only
    is returned as it is. *)
Theorem formatPath_basename
  (os : Os) (dir name trailing : jsstring) (sep : N) :
  is_slash sep = true -> name <> [] ->
  forallb (fun a => negb (is_slash a)) name = true ->
  forallb is_slash trailing = true ->
  Formatters.formatPath os (dir ++ sep :: name ++ trailing) (js "basename")
  = name /\
  Formatters.formatPath os (name ++ trailing) (js "basename") = name /\
  Formatters.formatPath os trailing (js "basename") = trailing.
Proof.
  intros Hs Hne Hn Ht. unfold Formatters.formatPath.
  change (jsstring_eqb (js "basename") (js "basename")) with true.
  cbv iota. split; [|split].
  - rewrite (segments_of_child dir name trailing sep Hs Hne Hn Ht).
    rewrite last_last. destruct name; [congruence | reflexivity].
  - rewrite (segments_of_name name trailing Hne Hn Ht).
    cbn [last]. destruct name; [congruence | reflexivity].
  - rewrite (segments_of_slashes trailing Ht). reflexivity.
Qed.

Lemma formatPath_basename_witness :
  Formatters.formatPath {| homedir := js "/home/ann"; sep := js "/" |}
    (js "/home/ann/work" ++ 47%N :: js "app" ++ js "//") (js "basename")
  = js "app".
Proof.
  apply (formatPath_basename {| homedir := js "/home/ann"; sep := js "/" |}
           (js "/home/ann/work") (js "app") (js "//") 47%N);
    try reflexivity.
  discriminate.
Defined.

(** X28.  The path formatter of the hooks keeps the first and the last
    segment of a path of three or more segments and nothing of what lies
    between them; a path of one or two segments is shown whole. *)
Theorem Git_formatPath_segments
  (first last : jsstring) (middle : list jsstring) :
  Forall (fun g => forallb (fun a => negb (a =? 47)%N) g = true)
    (first :: middle ++ [last]) ->
  (middle <> [] ->
   Git.formatPath (Array_join (first :: middle ++ [last]) (js "/"))
   = js "~/" ++ first ++ js "/.../" ++ last) /\
  Git.formatPath (Array_join [first; last] (js "/"))
  = js "~/" ++ first ++ js "/" ++ last /\
  (first <> js "." -> Git.formatPath first = js "~/" ++ first).
Proof.
  intros H. split; [|split].
  - intros Hm. unfold Git.formatPath.
    destruct middle as [|m middle]; [congruence|].
    change (first :: (m :: middle) ++ [last])
      with (first :: m :: middle ++ [last]) in *.
    rewrite join_not_dot. change (js "/") with [47%N].
    rewrite (split_join (fun c => (c =? 47)%N) 47%N first _ eq_refl H).
    cbn [length]. rewrite length_app. cbn [length].
    replace (S (S (length middle + 1)) <=? 2)%nat with false
      by (symmetry; apply Nat.leb_gt; lia).
    cbn [hd].
    change (first :: m :: middle ++ [last])
      with ((first :: m :: middle) ++ [last]).
    now rewrite last_last.
  - unfold Git.formatPath.
    change (Array_join [first; last] (js "/"))
      with (Array_join (first :: last :: []) (js "/")).
    rewrite join_not_dot.
    assert (Forall (fun g => forallb (fun a => negb (a =? 47)%N) g = true)
              [first; last]) as H2.
    { inversion H as [|x l Hx Hl]; subst. constructor; [exact Hx|].
      apply Forall_app in Hl. destruct Hl as [_ Hl]. exact Hl. }
    change (js "/") with [47%N].
    rewrite (split_join (fun c => (c =? 47)%N) 47%N first [last] eq_refl H2).
    reflexivity.
  - intros Hdot. unfold Git.formatPath.
    destruct (jsstring_eqb first (js ".")) eqn:E.
    + apply GitFacts.jsstring_eqb_true in E. congruence.
    + inversion H as [|x l Hx Hl]; subst.
      rewrite (String_split_plain _ first Hx). reflexivity.
Qed.

Lemma Git_formatPath_segments_witness :
  Git.formatPath
    (Array_join (js "src" :: [js "components"; js "button"] ++ [js "ui"])
       (js "/"))
  = js "~/" ++ js "src" ++ js "/.../" ++ js "ui".
Proof.
  apply (Git_formatPath_segments (js "src") (js "ui")
           [js "components"; js "button"]).
  - repeat constructor.
  - discriminate.
Defined.

